(** * pltform.utils: configuration store, ranking, argument parsing, token formatting

    A shallow embedding of [src/pltform/utils.py] and the properties its
    specification states about it.

    Conventions of the embedding.
    - A Python [str] is a sequence of code points.  This development covers
      the code points below 256, one [ascii] per code point, so a Python
      string is a [string].  The character classes ([str.isdecimal],
      [str.isnumeric], [\p{Lu}], [str.lower]) are the Unicode ones
      restricted to that range.
    - Python integers are [Z]; a list index is a [Z] and follows Python's
      rule for negative indices; an index out of range raises [IndexError].
      The interpreter is CPython 3.11 or later with its default limit of
      4300 digits on the conversion of an integer from and to a string.
      The numbers [rankdata] ranks are integers, and the floats it and
      [typecast] compute are exact rationals.
    - A YAML document has the shape the class [Config] describes: profile,
      section, parameter, value, with strings for the three names; or it
      has that shape up to a first profile or section whose value is no
      mapping but null, a number or a boolean, where the merge loop of
      [Config.load] fails.
    - A dictionary whose identity matters (the per-section parameter
      dictionaries of [Config], which [Config.config] hands out to callers)
      lives in a heap of dictionaries and is named by its location.
    - A function that can raise returns a [result]. *)

From Stdlib Require Import ZArith QArith String Ascii List Lia DecimalString DecimalNat.
From stdpp Require Import gmap strings list fin_maps sorting.

Local Open Scope string_scope.
Local Open Scope list_scope.
Local Open Scope Z_scope.

(** ** Values *)

(** Python values: what [typecast] produces and what a caller may pass as a
    keyword argument.  Floats are modelled by exact rationals. *)
Inductive value :=
  | VNone
  | VBool (b : bool)
  | VInt (n : Z)
  | VFloat (q : Q)
  | VStr (s : string).

#[global] Instance Q_eq_dec : EqDecision Q.
Proof. solve_decision. Defined.
#[global] Instance value_eq_dec : EqDecision value.
Proof. solve_decision. Defined.

(** ** Exceptions and results *)

(** The messages of the [RuntimeError]s the module raises, each with the
    values formatted into it. *)
Inductive message :=
  | BadFilesArgument                (* "Bad argument, 'files' not iterable" *)
  | CouldNotLoad (file : string)    (* "Could not load from '{file}'" *)
  | DefaultNeverLoaded              (* "Default profile ('default') never loaded" *)
  | ProfileNeverLoaded (p : string) (* "Profile '{profile}' never loaded" *)
  | TokenNotFound (token_var : string) (kwargs : gmap string value).
                                    (* "Token '{token_var}' not found in {kwargs}" *)

Inductive exn :=
  | RuntimeError (m : message)
  | OSError       (* open() could not read the file *)
  | YAMLError     (* yaml.safe_load could not parse the file *)
  | ValueError
  | TypeError
  | IndexError
  | ZeroDivisionError.

Inductive result (A : Type) :=
  | Ok (a : A)
  | Raise (e : exn).
Arguments Ok {A} a.
Arguments Raise {A} e.

#[global] Instance result_ret : MRet result := fun A a => Ok a.
#[global] Instance result_bind : MBind result := fun A B f r =>
  match r with
  | Ok a => f a
  | Raise e => Raise e
  end.

(** [for x in xs: st = body(st, x)], where the body may raise. *)
Fixpoint for_each {S A} (body : S -> A -> result S) (xs : list A) (st : S) : result S :=
  match xs with
  | [] => Ok st
  | x :: xs' => st' ← body st x; for_each body xs' st'
  end.

(** ** Characters and strings *)

Definition code (c : ascii) : N := N_of_ascii c.

Definition in_range (lo hi : N) (c : ascii) : bool :=
  ((lo <=? code c) && (code c <=? hi))%N.

(** Unicode category Nd below 256: the ASCII digits. *)
Definition char_isdecimal (c : ascii) : bool := in_range 48 57 c.

(** Characters with a Unicode numeric value below 256: the digits, the
    superscripts U+00B2, U+00B3, U+00B9 and the fractions U+00BC..U+00BE. *)
Definition char_isnumeric (c : ascii) : bool :=
  char_isdecimal c || in_range 178 179 c || in_range 185 185 c || in_range 188 190 c.

(** Unicode category Lu below 256: A..Z, U+00C0..U+00D6, U+00D8..U+00DE. *)
Definition char_isupper (c : ascii) : bool :=
  in_range 65 90 c || in_range 192 214 c || in_range 216 222 c.

Definition char_lower (c : ascii) : ascii :=
  if char_isupper c then ascii_of_N (code c + 32) else c.

Fixpoint str_forall (p : ascii -> bool) (s : string) : bool :=
  match s with
  | EmptyString => true
  | String c s' => p c && str_forall p s'
  end.

Definition nonempty (s : string) : bool :=
  match s with EmptyString => false | String _ _ => true end.

(** [s.isdecimal()], [s.isnumeric()]: every character qualifies and there
    is at least one. *)
Definition isdecimal (s : string) : bool := nonempty s && str_forall char_isdecimal s.
Definition isnumeric (s : string) : bool := nonempty s && str_forall char_isnumeric s.

(** [s.lower()] *)
Fixpoint lower (s : string) : string :=
  match s with
  | EmptyString => EmptyString
  | String c s' => String (char_lower c) (lower s')
  end.

(** [c in s] for a one-character [c]. *)
Fixpoint contains (c : ascii) (s : string) : bool :=
  match s with
  | EmptyString => false
  | String d s' => if Ascii.eqb d c then true else contains c s'
  end.

(** [s.partition(sep)] for a one-character separator: the text before the
    first separator and, when there is one, the text after it. *)
Fixpoint cut (sep : ascii) (s : string) : string * option string :=
  match s with
  | EmptyString => (EmptyString, None)
  | String c s' =>
      if Ascii.eqb c sep then (EmptyString, Some s')
      else let '(a, b) := cut sep s' in (String c a, b)
  end.

(** [s.split(sep, 1)] *)
Definition split1 (sep : ascii) (s : string) : list string :=
  match cut sep s with
  | (a, None) => [a]
  | (a, Some b) => [a; b]
  end.

(** The number a string of decimal digits spells. *)
Definition digit_value (c : ascii) : Z := Z.of_N (code c) - 48.

Fixpoint int_digits (acc : Z) (s : string) : Z :=
  match s with
  | EmptyString => acc
  | String c s' => int_digits (10 * acc + digit_value c) s'
  end.

(** The interpreter's limit on the number of digits of an integer that is
    converted from or to a string ([sys.get_int_max_str_digits()]): 4300
    unless configured otherwise. *)
Definition INT_MAX_STR_DIGITS : Z := 4300.

(** [int(s)] for a string of decimal digits: beyond the limit the builtin
    raises [ValueError]. *)
Definition int_of_str (s : string) : result Z :=
  if INT_MAX_STR_DIGITS <? Z.of_nat (String.length s) then Raise ValueError
  else Ok (int_digits 0 s).

(** ** Truth values *)

(** [not v] *)
Definition falsy (v : value) : bool :=
  match v with
  | VNone => true
  | VBool b => negb b
  | VInt n => n =? 0
  | VFloat q => Qeq_bool q 0
  | VStr s => negb (nonempty s)
  end.

(** [float(s)] for a string [s] of numeric characters, the only strings
    [typecast] passes to it.  The builtin reads decimal digits (with sign,
    point and exponent, none of which is a numeric character) and raises
    [ValueError] on any other character, among them the superscripts and
    fractions that [str.isnumeric] accepts. *)
Definition float_of_numeric (s : string) : result Q :=
  if isdecimal s then Ok (inject_Z (int_digits 0 s)) else Raise ValueError.

(** ** parse_argv *)

Definition typecast (val : string) : result value :=
  if isdecimal val then n ← int_of_str val; Ok (VInt n)
  else if isnumeric val then q ← float_of_numeric val; Ok (VFloat q)
  else if bool_decide (lower val ∈ ["false"; "f"; "no"; "n"]) then Ok (VBool false)
  else if bool_decide (lower val ∈ ["true"; "t"; "yes"; "y"]) then Ok (VBool true)
  else if bool_decide (lower val ∈ ["null"; "none"; "nil"]) then Ok VNone
  else if (0 <? Z.of_nat (String.length val)) then Ok (VStr val) else Ok VNone.

Record argv_state := {
  args : list value;
  kwargs : gmap string value;
  args_done : bool
}.

(** The keyword part of the loop body: [kw, val = arg.split('=', 1)];
    [kwargs[kw] = typecast(val)]. *)
Definition argv_keyword (st : argv_state) (arg : string) : result argv_state :=
  match split1 "=" arg with
  | [kw; val] =>
      v ← typecast val;
      Ok {| args := args st; kwargs := <[kw := v]> (kwargs st); args_done := true |}
  | _ => Raise ValueError
  end.

Definition argv_body (st : argv_state) (arg : string) : result argv_state :=
  if negb (args_done st) then
    if negb (contains "=" arg) then
      v ← typecast arg;
      Ok {| args := args st ++ [v]; kwargs := kwargs st; args_done := false |}
    else argv_keyword st arg
  else argv_keyword st arg.

Definition parse_argv (argv : list string) : result (list value * gmap string value) :=
  st ← for_each argv_body argv {| args := []; kwargs := ∅; args_done := false |};
  Ok (args st, kwargs st).

(** ** Python lists *)

(** The position a Python index names in a list of length [n]. *)
Definition py_index (n : nat) (i : Z) : option nat :=
  if (0 <=? i) && (i <? Z.of_nat n) then Some (Z.to_nat i)
  else if (- Z.of_nat n <=? i) && (i <? 0) then Some (Z.to_nat (Z.of_nat n + i))
  else None.

(** [l[i]] *)
Definition getitem {A} (l : list A) (i : Z) : result A :=
  match py_index (length l) i ≫= (l !!.) with
  | Some x => Ok x
  | None => Raise IndexError
  end.

(** [l[i] = x] *)
Definition setitem {A} (l : list A) (i : Z) (x : A) : result (list A) :=
  match py_index (length l) i with
  | Some k => Ok (<[k := x]> l)
  | None => Raise IndexError
  end.

(** [range(lo, hi)] *)
Definition range (lo hi : Z) : list Z := seqZ lo (hi - lo).

(** [[f(x) for x in xs]], where [f] may raise. *)
Fixpoint map_result {A B} (f : A -> result B) (xs : list A) : result (list B) :=
  match xs with
  | [] => Ok []
  | x :: xs' => y ← f x; ys ← map_result f xs'; Ok (y :: ys)
  end.

(** [sorted(items, key=..., reverse=...)] on items decorated with their
    keys.  The builtin is stable, also with [reverse=True]: items with
    equal keys keep their original order.  [precedes reverse k1 k2] says
    that an item of key [k1] met first stays before one of key [k2]. *)
Definition precedes (reverse : bool) (k1 k2 : Z) : bool :=
  if reverse then k2 <=? k1 else k1 <=? k2.

Fixpoint insert_keyed {A} (reverse : bool) (x : Z * A) (l : list (Z * A)) : list (Z * A) :=
  match l with
  | [] => [x]
  | y :: l' =>
      if precedes reverse (fst x) (fst y) then x :: y :: l'
      else y :: insert_keyed reverse x l'
  end.

Definition sorted_keyed {A} (reverse : bool) (l : list (Z * A)) : list (Z * A) :=
  foldr (insert_keyed reverse) [] l.

(** ** rankdata *)

(** A rank is an [int] under method 'min' and a [float] under 'average'.
    Floats are modelled by exact rationals. *)
Inductive rank :=
  | RInt (n : Z)
  | RFloat (q : Q).

Definition rank_eq (r1 r2 : rank) : Prop :=
  match r1, r2 with
  | RInt a, RInt b => a = b
  | RFloat p, RFloat q => Qeq p q
  | _, _ => False
  end.

(** [sorted(range(len(vector)), key=vector.__getitem__, reverse=reverse)] *)
Definition rank_simple (reverse : bool) (vector : list Z) : result (list Z) :=
  keyed ← map_result (λ i, k ← getitem vector i; Ok (k, i)) (range 0 (Z.of_nat (length vector)));
  Ok (map snd (sorted_keyed reverse keyed)).

Record rank_state := {
  sumranks : Z;
  dupcount : Z;
  minrank : Z;
  newarray : list rank
}.

(** [sumranks / float(dupcount) + 1] *)
Definition averank_of (sumranks dupcount : Z) : result Q :=
  if dupcount =? 0 then Raise ZeroDivisionError
  else Ok (inject_Z sumranks / inject_Z dupcount + 1)%Q.

(** [for j in range(i - dupcount + 1, i + 1): newarray[ivec[j]] = r] *)
Definition assign_group (ivec : list Z) (r : rank) (lo hi : Z) (arr : list rank)
  : result (list rank) :=
  for_each (λ arr j, idx ← getitem ivec j; setitem arr idx r) (range lo hi) arr.

(** The body of [for i in range(n)]. *)
Definition rank_body (use_min : bool) (n : Z) (ivec svec : list Z)
    (st : rank_state) (i : Z) : result rank_state :=
  let sumranks := sumranks st + i in
  let dupcount := dupcount st + 1 in
  let minrank := if minrank st =? 0 then i + 1 else minrank st in
  last ← (if i =? n - 1 then Ok true
          else x ← getitem svec i; y ← getitem svec (i + 1); Ok (negb (x =? y)));
  if (last : bool) then
    averank ← averank_of sumranks dupcount;
    arr ← assign_group ivec (if use_min then RInt minrank else RFloat averank)
            (i - dupcount + 1) (i + 1) (newarray st);
    Ok {| sumranks := 0; dupcount := 0; minrank := 0; newarray := arr |}
  else
    Ok {| sumranks := sumranks; dupcount := dupcount; minrank := minrank;
          newarray := newarray st |}.

Definition rankdata (a : list Z) (method : string) (reverse : bool) : result (list rank) :=
  let use_min := String.eqb method "min" in
  let n := Z.of_nat (length a) in
  ivec ← rank_simple reverse a;
  svec ← map_result (getitem a) ivec;
  st ← for_each (rank_body use_min n ivec svec) (range 0 n)
         {| sumranks := 0; dupcount := 0; minrank := 0;
            newarray := replicate (length a) (RInt 0) |};
  Ok (newarray st).

(** ** replace_tokens *)

(** The characters of the class [[\p{Lu}\d_]]. *)
Definition token_char (c : ascii) : bool :=
  char_isupper c || char_isdecimal c || Ascii.eqb c "_".

(** The longest prefix of [s] made of token characters, and what follows. *)
Fixpoint span_token (s : string) : string * string :=
  match s with
  | EmptyString => (EmptyString, EmptyString)
  | String c s' =>
      if token_char c then let '(a, b) := span_token s' in (String c a, b)
      else (EmptyString, s)
  end.

(** A match of [\<[\p{Lu}\d_]+\>] at the start of [s].  The class excludes
    ['>'], so the greedy run is the only candidate. *)
Definition match_token (s : string) : option string :=
  match s with
  | String "<" s' =>
      match span_token s' with
      | (body, String ">" _) =>
          if nonempty body then Some (String "<" (body ++ ">")%string) else None
      | _ => None
      end
  | _ => None
  end.

(** [re.findall(r'(\<[\p{Lu}\d_]+\>)', fmt)]: the matches from left to
    right, none overlapping another.  [skip] counts the characters still
    covered by the last match. *)
Fixpoint findall_from (skip : nat) (s : string) : list string :=
  match s with
  | EmptyString => []
  | String _ s' =>
      match skip with
      | S k => findall_from k s'
      | O =>
          match match_token s with
          | Some tok => tok :: findall_from (String.length tok - 1) s'
          | None => findall_from 0 s'
          end
      end
  end.

Definition findall_tokens (fmt : string) : list string := findall_from 0 fmt.

(** [s.replace(old, new)] for a non-empty [old]: every occurrence from left
    to right, none overlapping another. *)
Fixpoint replace_from (old new : string) (skip : nat) (s : string) : string :=
  match s with
  | EmptyString => EmptyString
  | String c s' =>
      match skip with
      | S k => replace_from old new k s'
      | O =>
          if String.prefix old s
          then (new ++ replace_from old new (String.length old - 1) s')%string
          else String c (replace_from old new 0 s')
      end
  end.

Definition replace (old new s : string) : string := replace_from old new 0 s.

(** [s[:-1]] and [s[1:-1]] *)
Fixpoint drop_last (s : string) : string :=
  match s with
  | EmptyString => EmptyString
  | String c EmptyString => EmptyString
  | String c s' => String c (drop_last s')
  end.

Definition strip_ends (s : string) : string :=
  match s with
  | EmptyString => EmptyString
  | String _ s' => drop_last s'
  end.

(** [token[1:-1].lower()] *)
Definition token_var (token : string) : string := lower (strip_ends token).

(** The loop body.  [kwargs.get(token_var)] is [None] for an absent key;
    [str.replace] raises [TypeError] when the new text is not a [str]. *)
Definition replace_body (kwargs : gmap string value) (new_str token : string)
  : result string :=
  let value := default VNone (kwargs !! token_var token) in
  if falsy value then Raise (RuntimeError (TokenNotFound (token_var token) kwargs))
  else match value with
       | VStr v => Ok (replace token v new_str)
       | _ => Raise TypeError
       end.

Definition replace_tokens (fmt : string) (kwargs : gmap string value) : result string :=
  for_each (replace_body kwargs) (findall_tokens fmt) fmt.

(** ** Config *)

(** [s.split(sep)] for a one-character separator, as its first piece and
    the pieces after it: the result is never empty. *)
Fixpoint split_pieces (sep : ascii) (s : string) : string * list string :=
  match s with
  | EmptyString => (EmptyString, [])
  | String c s' =>
      let '(piece, pieces) := split_pieces sep s' in
      if Ascii.eqb c sep then (EmptyString, piece :: pieces)
      else (String c piece, pieces)
  end.

Definition split (sep : ascii) (s : string) : list string :=
  let '(piece, pieces) := split_pieces sep s in piece :: pieces.

Definition DEFAULT_PROFILE : string := "default".

(** The location of a dictionary in the heap. *)
Abbreviation loc := positive.

(** The [files] argument of the constructor. *)
Inductive files_arg :=
  | FilesStr (s : string)          (* a str *)
  | FilesIter (l : list string)    (* an iterable of file names *)
  | FilesOther.                    (* anything else *)

(** The attributes of a [Config] object.  [profile_data] maps a profile to
    its sections and a section to the location of its parameter
    dictionary. *)
Record Config := {
  config_dir : option string;
  filepaths : list string;
  profile_data : gmap string (gmap string loc)
}.

Definition new_config (dir : option string) : Config :=
  {| config_dir := dir; filepaths := []; profile_data := ∅ |}.

(** The functions of [os.path] the class calls. *)
Class OsPath := {
  path_join : string -> string -> string;
  realpath : string -> string
}.

Section ConfigStore.
(** The type of parameter values, arbitrary. *)
Context {V : Type} `{OsPath}.

(** What [yaml.safe_load] returns for a document of the shape the class
    describes: [None] for an empty file, else profile -> section ->
    parameter -> value. *)
Local Abbreviation document := (gmap string (gmap string (gmap string V))).

(** Where a document stops having the shape the class describes: at a
    profile whose value is no mapping but null, a number or a boolean
    (none of which can be iterated), or, inside a profile, after the
    sections [before], at a section whose value is none. *)
Inductive fault :=
  | ProfileFault (profile : string)
  | SectionFault (profile : string) (before : gmap string (gmap string V))
      (section : string).

Definition fault_profile (f : fault) : string :=
  match f with
  | ProfileFault profile => profile
  | SectionFault profile _ _ => profile
  end.

(** What reading and parsing the file at a path gives.  A misshapen
    document is given by the profiles before the first fault, in the
    order of the file, and the fault; what follows the fault is never
    read. *)
Inductive file_content :=
  | Unreadable                        (* open() raises OSError *)
  | Unparsable                        (* yaml.safe_load raises YAMLError *)
  | Parsed (cfg : option document)
  | Misshapen (before : document) (f : fault).

(** The heap of parameter dictionaries. *)
Local Abbreviation heap := (gmap loc (gmap string V)).

(** The dictionary at a location. *)
Definition deref (h : heap) (l : loc) : gmap string V := default ∅ (h !! l).

(** [profile_data] with every location replaced by the dictionary it
    names: profile -> section -> parameters. *)
Definition contents (h : heap) (pd : gmap string (gmap string loc)) : document :=
  (λ secs : gmap string loc, deref h <$> secs) <$> pd.

(** [bool(cfg)]: [None] and the empty mapping are falsy. *)
Definition truthy (cfg : option document) : bool :=
  match cfg with
  | None => false
  | Some d => negb (bool_decide (d = ∅))
  end.

(** [os.path.join(self.config_dir, file) if self.config_dir else
    os.path.realpath(file)] *)
Definition resolve (self : Config) (file : string) : string :=
  match config_dir self with
  | Some d => if nonempty d then path_join d file else realpath file
  | None => realpath file
  end.

(** [if section not in self.profile_data[profile]:
       self.profile_data[profile][section] = {}] *)
Definition ensure_section (profile section : string)
    (st : heap * gmap string (gmap string loc)) : heap * gmap string (gmap string loc) :=
  let secs := default ∅ (st.2 !! profile) in
  match secs !! section with
  | Some _ => st
  | None =>
      let l := fresh (dom st.1) in
      (<[l := ∅]> st.1, <[profile := <[section := l]> secs]> st.2)
  end.

(** [self.profile_data[profile][section].update(params)] *)
Definition update_section (profile section : string) (params : gmap string V)
    (st : heap * gmap string (gmap string loc)) : heap * gmap string (gmap string loc) :=
  match default ∅ (st.2 !! profile) !! section with
  | Some l => (<[l := params ∪ deref st.1 l]> st.1, st.2)
  | None => st
  end.

(** The body of [for section in cfg[profile]]. *)
Definition merge_section (profile section : string) (params : gmap string V)
    (st : heap * gmap string (gmap string loc)) : heap * gmap string (gmap string loc) :=
  update_section profile section params (ensure_section profile section st).

(** [if profile not in self.profile_data: self.profile_data[profile] = {}] *)
Definition ensure_profile (profile : string)
    (st : heap * gmap string (gmap string loc)) : heap * gmap string (gmap string loc) :=
  match st.2 !! profile with
  | Some _ => st
  | None => (st.1, <[profile := ∅]> st.2)
  end.

(** The body of [for profile in cfg]. *)
Definition merge_profile (profile : string) (sections : gmap string (gmap string V))
    (st : heap * gmap string (gmap string loc)) : heap * gmap string (gmap string loc) :=
  map_fold (merge_section profile) (ensure_profile profile st) sections.

Definition merge_document (cfg : document)
    (st : heap * gmap string (gmap string loc)) : heap * gmap string (gmap string loc) :=
  map_fold merge_profile st cfg.

(** The merge loop on a misshapen document, up to the statement that
    raises: the profiles before the fault are merged and the faulty
    profile is entered; then [for section in cfg[profile]] raises, or the
    sections before the faulty one are merged, the faulty section is
    entered and [update] raises. *)
Definition merge_misshapen (before : document) (f : fault)
    (st : heap * gmap string (gmap string loc)) : heap * gmap string (gmap string loc) :=
  let st1 := ensure_profile (fault_profile f) (merge_document before st) in
  match f with
  | ProfileFault _ => st1
  | SectionFault profile secs section =>
      ensure_section profile section (map_fold (merge_section profile) st1 secs)
  end.

(** [Config.load]: the heap and the object after the call, and what the
    call returns or raises.  On a misshapen document the loop raises
    [TypeError] with what it merged so far left in [profile_data], and the
    path is not recorded. *)
Definition load (fs : string -> file_content) (h : heap) (self : Config) (file : string)
  : heap * Config * result bool :=
  let path := resolve self file in
  if bool_decide (path ∈ filepaths self) then (h, self, Ok false)
  else
    match fs path with
    | Unreadable => (h, self, Raise OSError)
    | Unparsable => (h, self, Raise YAMLError)
    | Parsed cfg =>
        if negb (truthy cfg) then (h, self, Raise (RuntimeError (CouldNotLoad file)))
        else
          let st := merge_document (default ∅ cfg) (h, profile_data self) in
          (st.1,
           {| config_dir := config_dir self;
              filepaths := filepaths self ++ [path];
              profile_data := st.2 |},
           Ok true)
    | Misshapen before f =>
        let st := merge_misshapen before f (h, profile_data self) in
        (st.1,
         {| config_dir := config_dir self;
            filepaths := filepaths self;
            profile_data := st.2 |},
         Raise TypeError)
    end.

(** [for file in load_files: self.load(file)] *)
Fixpoint load_each (fs : string -> file_content) (h : heap) (self : Config)
    (load_files : list string) : heap * Config * result unit :=
  match load_files with
  | [] => (h, self, Ok ())
  | file :: rest =>
      match load fs h self file with
      | (h', self', Ok _) => load_each fs h' self' rest
      | (h', self', Raise e) => (h', self', Raise e)
      end
  end.

(** The file names the constructor loads: the pieces of a string, the
    items of an iterable; anything else is refused. *)
Definition load_files_of (files : files_arg) : result (list string) :=
  match files with
  | FilesStr s => Ok (split "," s)
  | FilesIter l => Ok l
  | FilesOther => Raise (RuntimeError BadFilesArgument)
  end.

(** [Config.__init__]: the heap after the call and the object built, or
    the exception raised. *)
Definition init (fs : string -> file_content) (h : heap) (files : files_arg)
    (dir : option string) : heap * result Config :=
  match load_files_of files with
  | Raise e => (h, Raise e)
  | Ok load_files =>
      match load_each fs h (new_config dir) load_files with
      | (h', self, Ok _) => (h', Ok self)
      | (h', _, Raise e) => (h', Raise e)
      end
  end.

(** [bool(profile)] for the optional [profile] argument. *)
Definition profile_given (profile : option string) : bool :=
  match profile with
  | None => false
  | Some p => nonempty p
  end.

(** [Config.config]: the heap after the call and the location of the
    dictionary returned.  Each [{}] default is a new dictionary, built
    before [get] is called. *)
Definition config (h : heap) (self : Config) (section : string) (profile : option string)
  : heap * result loc :=
  match profile_data self !! DEFAULT_PROFILE with
  | None => (h, Raise (RuntimeError DefaultNeverLoaded))
  | Some default_data =>
      let l0 := fresh (dom h) in
      let h0 := <[l0 := ∅]> h in
      let ret_params := default l0 (default_data !! section) in
      if profile_given profile then
        let p := default EmptyString profile in
        match profile_data self !! p with
        | None => (h0, Raise (RuntimeError (ProfileNeverLoaded p)))
        | Some prof_data =>
            let l1 := fresh (dom h0) in
            let h1 := <[l1 := ∅]> h0 in
            let profile_params := default l1 (prof_data !! section) in
            (<[ret_params := deref h1 profile_params ∪ deref h1 ret_params]> h1,
             Ok ret_params)
        end
      else (h0, Ok ret_params)
  end.

(** *** Reading the specification *)

(** The section of a profile, and a parameter of it, in a document. *)
Definition doc_section (d : document) (p s : string) : option (gmap string V) :=
  d !! p ≫= (.!! s).

Definition doc_param (d : document) (p s k : string) : option V :=
  doc_section d p s ≫= (.!! k).

(** The states a store reaches from its construction by calls of [load]
    that return, with the documents merged so far, oldest first. *)
Inductive loaded : list document -> heap -> Config -> Prop :=
  | loaded_new h dir : loaded [] h (new_config dir)
  | loaded_true docs h self fs file h' self' cfg :
      loaded docs h self ->
      load fs h self file = (h', self', Ok true) ->
      fs (resolve self file) = Parsed (Some cfg) ->
      loaded (docs ++ [cfg]) h' self'
  | loaded_false docs h self fs file h' self' :
      loaded docs h self ->
      load fs h self file = (h', self', Ok false) ->
      loaded docs h' self'.



End ConfigStore.

Arguments file_content V : clear implicits.

Abbreviation document V := (gmap string (gmap string (gmap string V))).
Abbreviation heap V := (gmap loc (gmap string V)).

(** The error kinds of the specification. *)
Inductive error_kind := BadArgument | ConfigError | FormatError | OtherError.

Definition spec_error_kind (e : exn) : error_kind :=
  match e with
  | RuntimeError BadFilesArgument => BadArgument
  | RuntimeError (CouldNotLoad _) => ConfigError
  | RuntimeError DefaultNeverLoaded => ConfigError
  | RuntimeError (ProfileNeverLoaded _) => ConfigError
  | RuntimeError (TokenNotFound _ _) => FormatError
  | OSError => ConfigError
  | YAMLError => ConfigError
  | _ => OtherError
  end.

(** ** The store as the specification sees it *)

Section StoreView.
Context {V : Type}.

(** No location of [pd] dangles, and no two sections share a dictionary. *)
Definition store_wf (h : heap V) (pd : gmap string (gmap string loc)) : Prop :=
  (∀ p secs s l, pd !! p = Some secs → secs !! s = Some l → l ∈ dom h) ∧
  (∀ p secs s p' secs' s' l,
     pd !! p = Some secs → secs !! s = Some l →
     pd !! p' = Some secs' → secs' !! s' = Some l → p = p' ∧ s = s').

(** Merging the sections of one profile of a file into those stored: a
    section of both has the parameters of both, the file's winning. *)
Definition sections_merge (new old : gmap string (gmap string V))
  : gmap string (gmap string V) :=
  union_with (λ params stored, Some (params ∪ stored)) new old.

(** Merging a file into the stored contents, profile by profile. *)
Definition doc_merge (cfg stored : document V) : document V :=
  union_with (λ secs stored_secs, Some (sections_merge secs stored_secs)) cfg stored.

(** The value of a parameter after the files of a list were loaded in
    order: that of the last file of the list that sets it. *)
Definition last_set (docs : list (document V)) (p s k : string) (v : V) : Prop :=
  ∃ before d after,
    docs = before ++ d :: after ∧ doc_param d p s k = Some v ∧
    Forall (λ d', doc_param d' p s k = None) after.

End StoreView.

(** ** Reading the specification of rankdata *)

(** The order a stable sort by key puts decorated items (key, position)
    in: by key in the direction asked for, items of equal keys by
    position. *)
Definition stable_before (reverse : bool) (x y : Z * Z) : Prop :=
  precedes reverse x.1 y.1 = true ∧ (x.1 = y.1 → x.2 < y.2).

(** A tie group of a sorted sequence: [k] equal values from position [p]
    on, with a different value, or none, on either side. *)
Definition tie_group (svec : list Z) (p k : nat) : Prop :=
  (0 < k)%nat ∧
  ∃ x, (∀ t, (p ≤ t < p + k)%nat → svec !! t = Some x) ∧
       (p = 0%nat ∨ svec !! (p - 1)%nat ≠ Some x) ∧
       svec !! (p + k)%nat ≠ Some x.

Definition sum_Z (l : list Z) : Z := foldr Z.add 0 l.

(** The rank of the members of a tie group of size [k] at sorted position
    [p], counted from 0: [p + 1] under 'min', the mean of [p + 1 .. p + k]
    otherwise. *)
Definition spec_rank (use_min : bool) (p k : nat) : rank :=
  if use_min then RInt (Z.of_nat p + 1)
  else RFloat (inject_Z (sum_Z (seqZ (Z.of_nat p + 1) (Z.of_nat k))) / inject_Z (Z.of_nat k)).

(** The invariant of the loop of [rankdata] before the iteration at sorted
    position [i], with [g] the position the current group starts at: the
    counters describe the positions [g .. i - 1], which hold one value,
    and the groups that ended before [g] have their ranks. *)
Definition rank_inv (use_min : bool) (ivec svec : list Z) (i g : nat) (st : rank_state)
  : Prop :=
  (g ≤ i ≤ length svec)%nat ∧
  dupcount st = Z.of_nat (i - g) ∧
  sumranks st = sum_Z (seqZ (Z.of_nat g) (Z.of_nat (i - g))) ∧
  minrank st = (if decide (g < i)%nat then Z.of_nat g + 1 else 0) ∧
  length (newarray st) = length svec ∧
  ((g < i)%nat → (i < length svec)%nat ∧ ∀ t, (g ≤ t ≤ i)%nat → svec !! t = svec !! g) ∧
  (g = 0%nat ∨ svec !! (g - 1)%nat ≠ svec !! g) ∧
  (∀ p k, tie_group svec p k → (p + k ≤ g)%nat →
     ∀ j idx, (p ≤ j < p + k)%nat → ivec !! j = Some idx →
       ∃ r, newarray st !! Z.to_nat idx = Some r ∧ rank_eq r (spec_rank use_min p k)).

(** ** Reading the specification of the parser and the formatter *)

(** A keyword token is split at its first ['='] into a key, stored as it
    is, and a raw value, which is coerced; a token without ['='] has no
    such split. *)
Definition spec_keyword (kw : gmap string value) (tok : string) : result (gmap string value) :=
  match cut "=" tok with
  | (key, Some raw) => v ← typecast raw; Ok (<[key := v]> kw)
  | (_, None) => Raise ValueError
  end.

(** A placeholder: ['<'], one or more uppercase letters, digits or
    underscores, ['>']. *)
Definition is_placeholder (tok : string) : Prop :=
  ∃ body, tok = String "<" (body ++ ">")%string ∧ nonempty body = true ∧
          str_forall token_char body = true.

(** [tok] occurs in [s]. *)
Definition occurs_in (tok s : string) : Prop :=
  ∃ before after, s = (before ++ tok ++ after)%string.

(** The first [k] characters of [s] are there and none is ['<']. *)
Fixpoint no_open (k : nat) (s : string) : Prop :=
  match k, s with
  | O, _ => True
  | S k', String c s' => c ≠ "<"%char ∧ no_open k' s'
  | S _, EmptyString => False
  end.

(** The value looked up for a placeholder, and its text when it is a
    string. *)
Definition token_value (kwargs : gmap string value) (tok : string) : value :=
  default VNone (kwargs !! token_var tok).

Definition token_text (kwargs : gmap string value) (tok : string) : string :=
  match token_value kwargs tok with
  | VStr s => s
  | _ => EmptyString
  end.

(** The template with each placeholder occurring in it replaced by the
    text looked up for it, in one pass over the template. *)
Fixpoint spec_substitute_from (kwargs : gmap string value) (skip : nat) (s : string) : string :=
  match s with
  | EmptyString => EmptyString
  | String c s' =>
      match skip with
      | S k => spec_substitute_from kwargs k s'
      | O =>
          match match_token s with
          | Some tok =>
              (token_text kwargs tok
               ++ spec_substitute_from kwargs (String.length tok - 1) s')%string
          | None => String c (spec_substitute_from kwargs 0 s')
          end
      end
  end.

Definition spec_substitute (fmt : string) (kwargs : gmap string value) : string :=
  spec_substitute_from kwargs 0 fmt.

(** ** Reading the code further *)

(** *** Strings *)

(** [sep.join(names)] for a one-character separator. *)
Fixpoint join (sep : ascii) (names : list string) : string :=
  match names with
  | [] => EmptyString
  | [name] => name
  | name :: rest => (name ++ String sep (join sep rest))%string
  end.

(** [s.isascii()] *)
Definition isascii (s : string) : bool := str_forall (λ c, (code c <? 128)%N) s.

(** Whether a string is within the interpreter's limit on digits. *)
Definition within_limit (s : string) : Prop :=
  Z.of_nat (String.length s) ≤ INT_MAX_STR_DIGITS.

(** The decimal numeral of a natural number, and [str(n)]: beyond the
    limit on digits the builtin raises [ValueError]. *)
Definition numeral (n : nat) : string := NilEmpty.string_of_uint (Nat.to_uint n).

Definition str_of_nat (n : nat) : result string :=
  if INT_MAX_STR_DIGITS <? Z.of_nat (String.length (numeral n)) then Raise ValueError
  else Ok (numeral n).

(** What a call of [replace_tokens] gives, with the keyword arguments that
    a "not found" message prints set aside: the text, the token variable
    that was not found, or the other exception. *)
Definition outcome (r : result string) : result string :=
  match r with
  | Raise (RuntimeError (TokenNotFound var _)) => Raise (RuntimeError (TokenNotFound var ∅))
  | _ => r
  end.

(** Whether a token without ['='] comes after a token with one, in a list
    read with keyword mode on ([done]) or off. *)
Fixpoint keyword_gap (done : bool) (argv : list string) : bool :=
  match argv with
  | [] => false
  | tok :: rest =>
      if contains "=" tok then keyword_gap true rest
      else if done then true else keyword_gap false rest
  end.

(** *** Ranks *)

(** A rank as a number. *)
Definition rank_value (r : rank) : Q :=
  match r with
  | RInt n => inject_Z n
  | RFloat q => q
  end.

(** [y] comes strictly before [x] in the order asked for: it is larger
    when the order is descending, smaller when it is ascending. *)
Definition strictly_before (reverse : bool) (y x : Z) : bool :=
  if reverse then x <? y else y <? x.

(** The number of items of a list that pass a test. *)
Fixpoint count_if (f : Z -> bool) (l : list Z) : Z :=
  match l with
  | [] => 0
  | y :: l' => (if f y then 1 else 0) + count_if f l'
  end.

(** Twice the rank of a tie group of [k] items at position [p]. *)
Definition twice_rank (use_min : bool) (p k : nat) : Z :=
  if use_min then 2 * Z.of_nat p + 2 else 2 * Z.of_nat p + Z.of_nat k + 1.

(** *** The calls of load *)

Section Reached.
Context {V : Type} `{OsPath}.

(** The profiles a call of [load] enters, by what the file holds: all the
    profiles of a document it merges, and the profiles up to the fault,
    the faulty one among them, of a misshapen document. *)
Definition enters (c : file_content V) (p : string) : Prop :=
  match c with
  | Parsed (Some cfg) => is_Some (cfg !! p)
  | Misshapen before f => is_Some (before !! p) ∨ p = fault_profile f
  | _ => False
  end.

(** The states a store reaches from its construction by calls of [load],
    whether they return or raise, with what was in the file of each call
    that read one, oldest first. *)
Inductive reached : list (file_content V) -> heap V -> Config -> Prop :=
  | reached_new h dir : reached [] h (new_config dir)
  | reached_skip cs h self fs file h' self' :
      reached cs h self ->
      load fs h self file = (h', self', Ok false) ->
      reached cs h' self'
  | reached_read cs h self fs file h' self' r :
      reached cs h self ->
      load fs h self file = (h', self', r) ->
      r ≠ Ok false ->
      reached (cs ++ [fs (resolve self file)]) h' self'.

End Reached.

(** ** A sample store *)

Definition sample_paths : OsPath :=
  {| path_join := λ d f, (d ++ "/" ++ f)%string; realpath := λ f, f |}.

(** File A: the default profile, section "scoring". *)
Definition file_a : document Z :=
  {[ "default" := {[ "scoring" := <[ "weight" := 1 ]> {[ "other_key" := 7 ]} ]} ]}.

(** File B: sets the default "scoring.weight" again and adds a profile
    "alt" that overrides it. *)
Definition file_b : document Z :=
  <[ "alt" := {[ "scoring" := {[ "weight" := 3 ]} ]} ]>
    {[ "default" := {[ "scoring" := {[ "weight" := 2 ]} ]} ]}.

(** File C: a section of the default profile that profile "alt" lacks. *)
Definition file_c : document Z :=
  {[ "default" := {[ "display" := {[ "color" := 5 ]} ]} ]}.

Definition sample_fs (path : string) : file_content Z :=
  if String.eqb path "conf/a.yaml" then Parsed (Some file_a)
  else if String.eqb path "conf/b.yaml" then Parsed (Some file_b)
  else if String.eqb path "conf/c.yaml" then Parsed (Some file_c)
  else if String.eqb path "conf/empty.yaml" then Parsed None
  else if String.eqb path "conf/bad.yaml" then Unparsable
  else Unreadable.

(** [Config(['a.yaml', 'b.yaml'], 'conf')] on an empty heap. *)
Definition sample_init : heap Z * result Config :=
  init (H := sample_paths) sample_fs ∅ (FilesIter ["a.yaml"; "b.yaml"]) (Some "conf").

Definition sample_heap : heap Z := sample_init.1.

Definition sample_store : Config :=
  match sample_init.2 with
  | Ok self => self
  | Raise _ => new_config None
  end.

(** The first of the two loads of the sample store. *)
Definition sample_first : heap Z * Config * result bool :=
  load (H := sample_paths) sample_fs ∅ (new_config (Some "conf")) "a.yaml".

(** A third load on the sample store. *)
Definition sample_third : heap Z * Config * result bool :=
  load (H := sample_paths) sample_fs sample_heap sample_store "c.yaml".

(** A misshapen file: the default profile with a new weight, then a
    profile "extra" without a body ([extra:], which is null). *)
Definition file_ill : file_content Z :=
  Misshapen {[ "default" := {[ "scoring" := {[ "weight" := 9 ]} ]} ]} (ProfileFault "extra").

Definition sample_ill_fs (path : string) : file_content Z :=
  if String.eqb path "conf/ill.yaml" then file_ill else sample_fs path.

(** Loading the misshapen file into the sample store. *)
Definition sample_ill : heap Z * Config * result bool :=
  load (H := sample_paths) sample_ill_fs sample_heap sample_store "ill.yaml".

(** A file that holds [default:] and nothing else, loaded into a new
    store. *)
Definition file_null : file_content Z := Misshapen ∅ (ProfileFault "default").

Definition sample_null : heap Z * Config * result bool :=
  load (H := sample_paths) (λ _, file_null) ∅ (new_config None) "null.yaml".

(** A file with profile "alt" only, loaded into a new store. *)
Definition file_alt : document Z := {[ "alt" := {[ "scoring" := {[ "weight" := 4 ]} ]} ]}.

Definition sample_alt : heap Z * Config * result bool :=
  load (H := sample_paths) (λ _, Parsed (Some file_alt)) ∅ (new_config None) "alt.yaml".

(** * Properties *)

(** ** Config.load and Config.config *)

Section ConfigProperties.
Context {V : Type} `{OsPath}.

Implicit Types (h : heap V) (self : Config) (fs : string -> file_content V).

Lemma deref_alloc h (l : loc) : deref (<[fresh (dom h) := ∅]> h) l = deref h l.
Proof.
  unfold deref. destruct (decide (l = fresh (dom h))) as [->|Hne].
  - rewrite lookup_insert_eq.
    assert (h !! fresh (dom h) = None) as ->; [|done].
    apply not_elem_of_dom, is_fresh.
  - by rewrite lookup_insert_ne.
Qed.

Lemma contents_ext h h' (pd : gmap string (gmap string loc)) :
  (∀ p secs s l, pd !! p = Some secs → secs !! s = Some l → deref h' l = deref h l) →
  contents h' pd = contents h pd.
Proof.
  intros Hd. unfold contents. apply map_eq. intros p.
  rewrite !lookup_fmap. destruct (pd !! p) as [secs|] eqn:Hp; [|done]. simpl.
  f_equal. apply map_eq. intros s. rewrite !lookup_fmap.
  destruct (secs !! s) as [l|] eqn:Hs; [|done]. simpl. f_equal. eauto.
Qed.

(** C4. A call of [load] on a file name whose resolved path is among the
    loaded paths returns [False] and changes nothing: the heap, and with
    it the contents of [profile_data], and the object, and with it the
    list of loaded paths, are those before the call. *)
Theorem load_loaded_path_is_skipped fs h self file :
  resolve self file ∈ filepaths self ->
  load fs h self file = (h, self, Ok false).
Proof.
  intros Hin. unfold load. by rewrite bool_decide_eq_true_2.
Qed.

(** What a call of [load] that raises did.  Either it failed before the
    merge: the exception is a configuration error, the heap and the object
    are those before the call, and the file was unreadable, unparsable or
    parsed to a falsy document.  Or it failed inside the merge of a
    misshapen document: the exception is a [TypeError], what was merged
    until then stays in the store, and no path was recorded. *)
Lemma load_raise_inv fs h self file h' self' e :
  load fs h self file = (h', self', Raise e) ->
  (spec_error_kind e = ConfigError ∧ h' = h ∧ self' = self ∧
   (fs (resolve self file) = Unreadable ∨ fs (resolve self file) = Unparsable ∨
    ∃ cfg, fs (resolve self file) = Parsed cfg ∧ truthy cfg = false)) ∨
  (e = TypeError ∧
   ∃ before f, fs (resolve self file) = Misshapen before f ∧
     h' = (merge_misshapen before f (h, profile_data self)).1 ∧
     profile_data self' = (merge_misshapen before f (h, profile_data self)).2 ∧
     filepaths self' = filepaths self ∧ config_dir self' = config_dir self).
Proof.
  unfold load. case_bool_decide; [congruence|].
  destruct (fs _) as [| |cfg|before f] eqn:Hfs.
  - intros [= <- <- <-]. left. auto.
  - intros [= <- <- <-]. left. auto 6.
  - destruct (truthy cfg) eqn:Ht; simpl; [congruence|].
    intros [= <- <- <-]. left. repeat split; eauto.
  - intros [= <- <- <-]. right. split; [done|]. by exists before, f.
Qed.

(** A call of [load] that raises a configuration error ([OSError],
    [YAMLError], the "Could not load" [RuntimeError]) failed before the
    merge: the heap and the object are those before the call, so nothing
    was merged and no path was recorded. *)
Lemma load_refused_leaves_store fs h self file h' self' e :
  load fs h self file = (h', self', Raise e) ->
  spec_error_kind e = ConfigError ->
  h' = h ∧ self' = self.
Proof.
  intros Hload Hkind. destruct (load_raise_inv _ _ _ _ _ _ _ Hload)
    as [(_ & -> & -> & _)|(-> & _)]; [done|discriminate Hkind].
Qed.


(** A call of [load] that returns [True] records the path, so the next
    call on the same file name is skipped. *)
Lemma load_twice fs1 fs2 h self file h' self' :
  load fs1 h self file = (h', self', Ok true) ->
  load fs2 h' self' file = (h', self', Ok false).
Proof.
  intros Hload.
  assert (resolve self' file ∈ filepaths self') as Hin.
  { revert Hload. unfold load. case_bool_decide; [congruence|].
    destruct (fs1 _) as [| |cfg|before f]; try congruence.
    destruct (truthy cfg); simpl; [|congruence].
    intros [= <- <-]. unfold resolve. simpl.
    apply elem_of_app. right. apply list_elem_of_singleton. done. }
  unfold load. by rewrite bool_decide_eq_true_2.
Qed.

(** *** The constructor *)





(** *** Config.config *)

(** C10. With the default profile loaded, [config(section, '')] is
    [config(section)]: the empty profile name counts as no profile, so no
    profile is looked up and nothing is raised.  The call returns the
    default profile's dictionary for the section (an empty one when the
    default profile has no such section) and leaves the contents of
    [profile_data] as they were. *)
Theorem config_empty_profile_is_no_profile h self section default_data :
  profile_data self !! DEFAULT_PROFILE = Some default_data ->
  config h self section (Some EmptyString) = config h self section None ∧
  ∃ h' l, config h self section (Some EmptyString) = (h', Ok l) ∧
          contents h' (profile_data self) = contents h (profile_data self) ∧
          deref h' l =
            default ∅ (doc_section (contents h (profile_data self)) DEFAULT_PROFILE section).
Proof.
  intros Hdef. split; [done|].
  unfold config. rewrite Hdef. simpl.
  eexists _, _. split; [reflexivity|]. split.
  - apply contents_ext. intros. apply deref_alloc.
  - rewrite deref_alloc. unfold doc_section, contents.
    rewrite lookup_fmap, Hdef. simpl. rewrite lookup_fmap.
    destruct (default_data !! section) as [l|] eqn:Hs; simpl; [done|].
    unfold deref.
    assert (h !! fresh (dom h) = None) as ->; [|done].
    apply not_elem_of_dom, is_fresh.
Qed.

End ConfigProperties.

(** C4, on the sample store: loading 'a.yaml' again. *)
Lemma load_loaded_path_is_skipped_witness :
  load (H := sample_paths) sample_fs sample_heap sample_store "a.yaml"
  = (sample_heap, sample_store, Ok false).
Proof.
  apply (load_loaded_path_is_skipped (H := sample_paths) sample_fs sample_heap sample_store "a.yaml").
  vm_compute. apply list_elem_of_here.
Defined.

(** A file that cannot be parsed, on the sample store. *)
Lemma load_refused_witness :
  (load (H := sample_paths) sample_fs sample_heap sample_store "bad.yaml").1.1 = sample_heap ∧
  (load (H := sample_paths) sample_fs sample_heap sample_store "bad.yaml").1.2 = sample_store.
Proof.
  apply (load_refused_leaves_store (H := sample_paths) sample_fs sample_heap sample_store
           "bad.yaml" _ _ YAMLError).
  - vm_compute. reflexivity.
  - reflexivity.
Defined.

(** C5.  A call of [load] can fail after it has merged: nothing checks
    the shape of a truthy document before the merge loop runs.  On the
    sample store (default 'scoring.weight' is 2) a file that sets the
    weight to 9 and then has a profile without a body makes [load] raise
    a [TypeError], which is no configuration error; the weight is 9
    afterwards and the store has a new profile "extra", while the path is
    not recorded.  And on a new store a file that holds only [default:]
    makes [load] raise, after which [config] answers with an empty mapping
    instead of raising "default profile never loaded". *)
Theorem load_failure_inside_merge :
  sample_ill.2 = Raise TypeError ∧
  spec_error_kind TypeError ≠ ConfigError ∧
  filepaths sample_ill.1.2 = filepaths sample_store ∧
  doc_param (contents sample_heap (profile_data sample_store)) "default" "scoring" "weight"
  = Some 2 ∧
  doc_param (contents sample_ill.1.1 (profile_data sample_ill.1.2)) "default" "scoring" "weight"
  = Some 9 ∧
  profile_data sample_store !! "extra" = None ∧
  profile_data sample_ill.1.2 !! "extra" = Some ∅ ∧
  sample_null.2 = Raise TypeError ∧
  config (∅ : heap Z) (new_config None) "scoring" None
  = (∅, Raise (RuntimeError DefaultNeverLoaded)) ∧
  (config sample_null.1.1 sample_null.1.2 "scoring" None).2 = Ok 1%positive ∧
  deref (config sample_null.1.1 sample_null.1.2 "scoring" None).1 1%positive = ∅.
Proof.
  repeat split; try (vm_compute; reflexivity). discriminate.
Qed.


(** C10, on the sample store. *)
Lemma config_empty_profile_witness :
  config sample_heap sample_store "scoring" (Some EmptyString)
  = config sample_heap sample_store "scoring" None ∧
  ∃ h' l, config sample_heap sample_store "scoring" (Some EmptyString) = (h', Ok l) ∧
          contents h' (profile_data sample_store) = contents sample_heap (profile_data sample_store) ∧
          deref h' l =
            default ∅ (doc_section (contents sample_heap (profile_data sample_store))
                         DEFAULT_PROFILE "scoring").
Proof.
  apply (config_empty_profile_is_no_profile sample_heap sample_store "scoring"
           (default ∅ (profile_data sample_store !! DEFAULT_PROFILE))).
  vm_compute. reflexivity.
Defined.


(** C1. On the sample store (default 'scoring.weight' is 2, profile 'alt'
    sets it to 3), [config('scoring', 'alt')] returns the dictionary stored
    for the default profile itself, after writing the override into it:
    the contents of [profile_data] change, and a later [config('scoring')]
    answers with the override. *)
Theorem config_overlay_mutates_default :
  let after := config sample_heap sample_store "scoring" (Some "alt") in
  let later := config after.1 sample_store "scoring" None in
  sample_init.2 = Ok sample_store ∧
  doc_section (contents sample_heap (profile_data sample_store)) DEFAULT_PROFILE "scoring"
  = Some (<["weight" := 2]> {["other_key" := 7]}) ∧
  default ∅ (profile_data sample_store !! DEFAULT_PROFILE) !! "scoring" = Some 1%positive ∧
  after.2 = Ok 1%positive ∧
  deref after.1 1%positive = <["weight" := 3]> {["other_key" := 7]} ∧
  doc_section (contents after.1 (profile_data sample_store)) DEFAULT_PROFILE "scoring"
  = Some (<["weight" := 3]> {["other_key" := 7]}) ∧
  later.2 = Ok 1%positive ∧
  deref later.1 1%positive = <["weight" := 3]> {["other_key" := 7]}.
Proof. cbv zeta. repeat split; vm_compute; reflexivity. Qed.

(** ** What Config.config returns *)

Section ConfigResults.
Context {V : Type}.
Implicit Types (h : heap V) (self : Config).

Lemma deref_insert h (l l' : loc) (m : gmap string V) :
  deref (<[l := m]> h) l' = if decide (l' = l) then m else deref h l'.
Proof.
  unfold deref. case_decide as Hd.
  - subst. by rewrite lookup_insert_eq.
  - by rewrite lookup_insert_ne.
Qed.

Lemma deref_fresh h : deref h (fresh (dom h)) = ∅.
Proof.
  unfold deref. assert (h !! fresh (dom h) = None) as ->; [|done].
  apply not_elem_of_dom, is_fresh.
Qed.

Lemma deref_fresh_above h h' : dom h ⊆ dom h' -> deref h (fresh (dom h')) = ∅.
Proof.
  intros Hsub. unfold deref. assert (h !! fresh (dom h') = None) as ->; [|done].
  apply not_elem_of_dom. intros Hin. apply (is_fresh (dom h')). by apply Hsub.
Qed.

(** [dom h ⊆ dom h'] for a heap [h'] built from [h] by insertions. *)
Ltac dom_above := repeat (etrans; [|apply dom_insert_subseteq]); reflexivity.

(** Two calls of [config] with the same arguments, one after the other,
    return dictionaries with the same entries. *)
Lemma config_twice_equal h self section profile h1 l1 :
  config h self section profile = (h1, Ok l1) ->
  ∃ h2 l2, config h1 self section profile = (h2, Ok l2) ∧ deref h2 l2 = deref h1 l1.
Proof.
  unfold config. destruct (profile_data self !! DEFAULT_PROFILE) as [dd|]; [|done].
  destruct (profile_given profile).
  - destruct (profile_data self !! default EmptyString profile) as [pdta|]; [|done].
    intros [= <- <-]. eexists _, _. split; [reflexivity|].
    destruct (dd !! section) as [l|], (pdta !! section) as [lp|]; simpl;
      repeat first [rewrite deref_alloc | rewrite deref_insert];
      rewrite ?(deref_fresh_above h) by dom_above;
      repeat case_decide;
      rewrite ?(left_id_L ∅ (∪)), ?(right_id_L ∅ (∪)), ?(idemp_L (∪)); try done.
    by rewrite (assoc_L (∪)), (idemp_L (∪)).
  - intros [= <- <-]. eexists _, _. split; [reflexivity|].
    destruct (dd !! section) as [l|]; simpl.
    + by rewrite deref_alloc.
    + rewrite deref_insert, decide_True by done.
      by rewrite deref_insert, decide_True.
Qed.

(** For a section that the requested profile does not have, [config]
    returns the default profile's parameters for the section (none when
    the default profile lacks the section as well) and leaves the contents
    of [profile_data] as they were. *)
Lemma config_section_absent_from_profile h self section p default_data prof_data :
  nonempty p = true ->
  profile_data self !! DEFAULT_PROFILE = Some default_data ->
  profile_data self !! p = Some prof_data ->
  prof_data !! section = None ->
  ∃ h' l, config h self section (Some p) = (h', Ok l) ∧
          contents h' (profile_data self) = contents h (profile_data self) ∧
          deref h' l =
            default ∅ (doc_section (contents h (profile_data self)) DEFAULT_PROFILE section).
Proof.
  intros Hp Hdef Hprof Hsec. unfold config. rewrite Hdef. simpl. rewrite Hp, Hprof, Hsec.
  simpl. eexists _, _. split; [reflexivity|].
  set (h0 := <[fresh (dom h) := ∅]> h).
  set (ret := default (fresh (dom h)) (default_data !! section)).
  assert (∀ l, deref (<[ret := deref (<[fresh (dom h0) := ∅]> h0) (fresh (dom h0))
                                ∪ deref (<[fresh (dom h0) := ∅]> h0) ret]>
                        (<[fresh (dom h0) := ∅]> h0)) l = deref h l) as Hsame.
  { intros l. rewrite deref_insert. rewrite !deref_alloc. rewrite deref_fresh.
    rewrite (left_id_L ∅ (∪)). unfold h0. rewrite !deref_alloc.
    case_decide; by subst. }
  split.
  - apply contents_ext. intros. apply Hsame.
  - rewrite Hsame. unfold doc_section, contents. rewrite lookup_fmap, Hdef. simpl.
    rewrite lookup_fmap. unfold ret.
    destruct (default_data !! section) as [l|]; simpl; [done|]. apply deref_fresh.
Qed.

End ConfigResults.

(** Two calls of [config('scoring', 'alt')] on the sample store. *)
Lemma config_twice_equal_witness :
  ∃ h2 l2,
    config (config sample_heap sample_store "scoring" (Some "alt")).1 sample_store
      "scoring" (Some "alt") = (h2, Ok l2) ∧
    deref h2 l2 = deref (config sample_heap sample_store "scoring" (Some "alt")).1 1%positive.
Proof.
  apply (config_twice_equal sample_heap sample_store "scoring" (Some "alt")
           (config sample_heap sample_store "scoring" (Some "alt")).1 1%positive).
  vm_compute. reflexivity.
Defined.

(** [config('display', 'alt')] once file C is loaded: profile "alt" has no
    section "display". *)
Lemma config_section_absent_witness :
  ∃ h' l,
    config sample_third.1.1 sample_third.1.2 "display" (Some "alt") = (h', Ok l) ∧
    contents h' (profile_data sample_third.1.2)
    = contents sample_third.1.1 (profile_data sample_third.1.2) ∧
    deref h' l =
      default ∅ (doc_section (contents sample_third.1.1 (profile_data sample_third.1.2))
                   DEFAULT_PROFILE "display").
Proof.
  apply (config_section_absent_from_profile sample_third.1.1 sample_third.1.2 "display" "alt"
           (default ∅ (profile_data sample_third.1.2 !! DEFAULT_PROFILE))
           (default ∅ (profile_data sample_third.1.2 !! "alt"))).
  - reflexivity.
  - vm_compute. reflexivity.
  - vm_compute. reflexivity.
  - vm_compute. reflexivity.
Defined.

(** Loading 'a.yaml' twice into a new store. *)
Lemma load_twice_witness :
  load (H := sample_paths) sample_fs sample_first.1.1 sample_first.1.2 "a.yaml"
  = (sample_first.1.1, sample_first.1.2, Ok false).
Proof.
  apply (load_twice (H := sample_paths) sample_fs sample_fs ∅ (new_config (Some "conf"))
           "a.yaml" sample_first.1.1 sample_first.1.2).
  vm_compute. reflexivity.
Defined.

(** ** The contents of the store after loading *)

Section MergeProperties.
Context {V : Type} `{OsPath}.
Implicit Types (h : heap V) (pd : gmap string (gmap string loc)).

Lemma document_eq (d1 d2 : document V) :
  (∀ p, is_Some (d1 !! p) ↔ is_Some (d2 !! p)) ->
  (∀ p s, doc_section d1 p s = doc_section d2 p s) ->
  d1 = d2.
Proof.
  intros Hp Hs. apply map_eq. intros p.
  specialize (Hp p). pose proof (Hs p) as Hsp. unfold doc_section in Hsp.
  destruct (d1 !! p) as [m1|], (d2 !! p) as [m2|]; simpl in *.
  - f_equal. apply map_eq. done.
  - destruct Hp as [Hp _]. destruct Hp; eauto. done.
  - destruct Hp as [_ Hp]. destruct Hp; eauto. done.
  - done.
Qed.

Lemma doc_section_insert (d : document V) p secs p' s :
  doc_section (<[p:=secs]> d) p' s = if decide (p' = p) then secs !! s else doc_section d p' s.
Proof.
  unfold doc_section. case_decide as Hd.
  - subst. by rewrite lookup_insert_eq.
  - by rewrite lookup_insert_ne.
Qed.

Lemma doc_section_absent (d : document V) p s : d !! p = None -> doc_section d p s = None.
Proof. unfold doc_section. by intros ->. Qed.

Lemma contents_profile h pd p :
  is_Some (contents h pd !! p) ↔ is_Some (pd !! p).
Proof. unfold contents. rewrite lookup_fmap. apply fmap_is_Some. Qed.

Lemma contents_section h pd p s :
  doc_section (contents h pd) p s = deref h <$> (pd !! p ≫= (.!! s)).
Proof.
  unfold doc_section, contents. rewrite lookup_fmap.
  destruct (pd !! p) as [secs|]; simpl; [|done]. by rewrite lookup_fmap.
Qed.

Lemma doc_merge_profile (cfg stored : document V) p :
  is_Some (doc_merge cfg stored !! p) ↔ is_Some (cfg !! p) ∨ is_Some (stored !! p).
Proof.
  unfold doc_merge. rewrite lookup_union_with.
  destruct (cfg !! p), (stored !! p); simpl; split; eauto.
  intros [[? ?]|[? ?]]; done.
Qed.

Lemma doc_merge_section (cfg stored : document V) p s :
  doc_section (doc_merge cfg stored) p s =
  union_with (λ params old, Some (params ∪ old)) (doc_section cfg p s) (doc_section stored p s).
Proof.
  unfold doc_section, doc_merge. rewrite lookup_union_with.
  destruct (cfg !! p) as [a|], (stored !! p) as [b|]; simpl; try done.
  - unfold sections_merge. by rewrite lookup_union_with.
  - by destruct (a !! s).
  - by destruct (b !! s).
Qed.


Lemma store_wf_fresh h pd p secs s l :
  store_wf h pd -> pd !! p = Some secs -> secs !! s = Some l -> l ≠ fresh (dom h).
Proof.
  intros [Hdom _] Hp Hs ->. apply (is_fresh (dom h)). eauto.
Qed.

Lemma merge_section_spec profile section (ps : gmap string V) h pd secs :
  store_wf h pd -> pd !! profile = Some secs ->
  ∃ h' pd', merge_section profile section ps (h, pd) = (h', pd') ∧
    store_wf h' pd' ∧
    (∀ p, is_Some (pd' !! p) ↔ is_Some (pd !! p)) ∧
    (∀ p s, doc_section (contents h' pd') p s =
            if decide (p = profile ∧ s = section)
            then Some (ps ∪ default ∅ (doc_section (contents h pd) p s))
            else doc_section (contents h pd) p s).
Proof.
  intros Hwf Hp. pose proof Hwf as [Hdom Hinj].
  unfold merge_section, ensure_section, update_section. simpl. rewrite Hp. simpl.
  destruct (secs !! section) as [l|] eqn:Hs; simpl.
  - rewrite Hp. simpl. rewrite Hs. eexists _, _. split; [reflexivity|].
    split; [|split; [done|]].
    + split.
      * intros p s0 s l0 H1 H2. rewrite dom_insert. apply elem_of_union. right. eauto.
      * done.
    + intros p s. rewrite !contents_section.
      destruct (pd !! p) as [secs'|] eqn:Hp'; simpl.
      2:{ case_decide as Hd; [|done]. destruct Hd as [-> _]. congruence. }
      destruct (secs' !! s) as [l'|] eqn:Hs'; simpl.
      2:{ case_decide as Hd; [|done]. destruct Hd as [-> ->]. congruence. }
      case_decide as Hd.
      * destruct Hd as [-> ->]. simplify_eq. f_equal. unfold deref at 1.
        by rewrite lookup_insert_eq.
      * f_equal. unfold deref. rewrite lookup_insert_ne; [done|].
        intros ->. apply Hd. symmetry in Hp, Hs. eapply Hinj; eauto.
  - rewrite lookup_insert_eq. simpl. rewrite lookup_insert_eq.
    eexists _, _. split; [reflexivity|].
    set (l := fresh (dom h)).
    assert (h !! l = None) as Hl by apply not_elem_of_dom, is_fresh.
    split; [|split].
    + split.
      * intros p s0 s l0 H1 H2. rewrite !dom_insert, !elem_of_union.
        destruct (decide (p = profile)) as [->|Hne].
        -- rewrite lookup_insert_eq in H1. simplify_eq.
           destruct (decide (s = section)) as [->|Hne'].
           ++ rewrite lookup_insert_eq in H2. simplify_eq. left. by apply elem_of_singleton.
           ++ rewrite lookup_insert_ne in H2 by done. right; right. eauto.
        -- rewrite lookup_insert_ne in H1 by done. right; right. eauto.
      * intros p s0 s p' s0' s' l0 H1 H2 H3 H4.
        assert (∀ q sq t lq, <[profile:=<[section:=l]> secs]> pd !! q = Some sq →
                  sq !! t = Some lq →
                  (q = profile ∧ t = section ∧ lq = l) ∨
                  (∃ sq', pd !! q = Some sq' ∧ sq' !! t = Some lq ∧ lq ≠ l)) as Hcases.
        { intros q sq t lq Hq Ht. destruct (decide (q = profile)) as [->|Hne].
          - rewrite lookup_insert_eq in Hq. simplify_eq.
            destruct (decide (t = section)) as [->|Hne'].
            + rewrite lookup_insert_eq in Ht. simplify_eq. by left.
            + rewrite lookup_insert_ne in Ht by done. right. exists secs.
              split; [done|]. split; [done|]. eapply store_wf_fresh; eauto.
          - rewrite lookup_insert_ne in Hq by done. right. exists sq.
            split; [done|]. split; [done|]. eapply store_wf_fresh; eauto. }
        destruct (Hcases _ _ _ _ H1 H2) as [(-> & -> & ->)|(sq & Hq & Ht & Hnl)];
        destruct (Hcases _ _ _ _ H3 H4) as [(-> & -> & ?)|(sq' & Hq' & Ht' & Hnl')];
          try done; try congruence.
        eapply Hinj; eauto.
    + intros p. destruct (decide (p = profile)) as [->|Hne].
      * rewrite lookup_insert_eq, Hp. split; eauto.
      * by rewrite lookup_insert_ne.
    + intros p s. rewrite !contents_section.
      assert (deref (<[l:=∅]> h) l = ∅) as Hl0.
      { unfold deref. by rewrite lookup_insert_eq. }
      rewrite Hl0.
      destruct (decide (p = profile)) as [->|Hne].
      * rewrite lookup_insert_eq, Hp. simpl.
        destruct (decide (s = section)) as [->|Hne'].
        -- rewrite lookup_insert_eq, Hs. simpl. rewrite decide_True by done.
           f_equal. unfold deref. by rewrite lookup_insert_eq.
        -- rewrite lookup_insert_ne by done. rewrite decide_False by (by intros [? ?]).
           destruct (secs !! s) as [l'|] eqn:Hs'; simpl; [|done].
           f_equal. unfold deref. rewrite !lookup_insert_ne; [done| |];
             intros <-; eapply store_wf_fresh; eauto.
      * rewrite lookup_insert_ne by done. rewrite decide_False by (by intros [? ?]).
        destruct (pd !! p) as [secs'|] eqn:Hp'; simpl; [|done].
        destruct (secs' !! s) as [l'|] eqn:Hs'; simpl; [|done].
        f_equal. unfold deref. rewrite !lookup_insert_ne; [done| |];
          intros <-; eapply store_wf_fresh; eauto.
Qed.


Lemma ensure_profile_spec profile h pd :
  store_wf h pd ->
  ∃ pd', ensure_profile profile (h, pd) = (h, pd') ∧ store_wf h pd' ∧
    is_Some (pd' !! profile) ∧
    (∀ p, is_Some (pd' !! p) ↔ p = profile ∨ is_Some (pd !! p)) ∧
    (∀ p s, doc_section (contents h pd') p s = doc_section (contents h pd) p s).
Proof.
  intros [Hdom Hinj]. unfold ensure_profile. simpl.
  destruct (pd !! profile) as [secs|] eqn:Hp.
  - exists pd. split; [done|]. split; [done|]. split; [by rewrite Hp|].
    split; [|done]. intros p. split; [auto|]. intros [->|?]; [|done]. by rewrite Hp.
  - exists (<[profile:=∅]> pd). split; [done|].
    assert (∀ q sq t lq, <[profile:=∅]> pd !! q = Some sq → sq !! t = Some lq →
              pd !! q = Some sq) as Hold.
    { intros q sq t lq Hq Ht. destruct (decide (q = profile)) as [->|Hne].
      - rewrite lookup_insert_eq in Hq. injection Hq as <-. by rewrite lookup_empty in Ht.
      - by rewrite lookup_insert_ne in Hq. }
    split; [split|split; [|split]].
    + intros p secs s l H1 H2. eapply Hdom; [eapply Hold|]; eauto.
    + intros p secs s p' secs' s' l H1 H2 H3 H4.
      eapply Hinj; [eapply Hold| |eapply Hold|]; eauto.
    + by rewrite lookup_insert_eq.
    + intros p. destruct (decide (p = profile)) as [->|Hne].
      * rewrite lookup_insert_eq. split; eauto.
      * rewrite lookup_insert_ne by done. split; [auto|]. by intros [?|?].
    + intros p s. rewrite !contents_section.
      destruct (decide (p = profile)) as [->|Hne].
      * rewrite lookup_insert_eq, Hp. simpl. by rewrite lookup_empty.
      * by rewrite lookup_insert_ne.
Qed.

Lemma merge_profile_spec profile (sections : gmap string (gmap string V)) h pd :
  store_wf h pd ->
  ∃ h' pd', merge_profile profile sections (h, pd) = (h', pd') ∧
    store_wf h' pd' ∧
    (∀ p, is_Some (pd' !! p) ↔ p = profile ∨ is_Some (pd !! p)) ∧
    (∀ p s, doc_section (contents h' pd') p s =
            if decide (p = profile)
            then union_with (λ params old, Some (params ∪ old)) (sections !! s)
                   (doc_section (contents h pd) p s)
            else doc_section (contents h pd) p s).
Proof.
  intros Hwf. unfold merge_profile.
  destruct (ensure_profile_spec profile h pd Hwf) as (pd1 & -> & Hwf1 & Hin1 & Hp1 & Hs1).
  assert (∀ m : gmap string (gmap string V),
    let r := map_fold (merge_section profile) (h, pd1) m in
    store_wf r.1 r.2 ∧
    (∀ p, is_Some (r.2 !! p) ↔ is_Some (pd1 !! p)) ∧
    (∀ p s, doc_section (contents r.1 r.2) p s =
            if decide (p = profile)
            then union_with (λ params old, Some (params ∪ old)) (m !! s)
                   (doc_section (contents h pd1) p s)
            else doc_section (contents h pd1) p s)) as Hfold.
  { apply (map_fold_weak_ind (λ r m,
      store_wf r.1 r.2 ∧
      (∀ p, is_Some (r.2 !! p) ↔ is_Some (pd1 !! p)) ∧
      (∀ p s, doc_section (contents r.1 r.2) p s =
              if decide (p = profile)
              then union_with (λ params old, Some (params ∪ old)) (m !! s)
                     (doc_section (contents h pd1) p s)
              else doc_section (contents h pd1) p s))).
    - split; [done|]. split; [done|]. intros p s. rewrite lookup_empty.
      case_decide; [|done]. by destruct (doc_section _ p s).
    - intros section ps m [hr pdr] Hm (Hwfr & Hpr & Hsr). simpl in *.
      destruct (proj2 (Hpr profile) Hin1) as [secs Hsecs].
      destruct (merge_section_spec profile section ps hr pdr secs Hwfr Hsecs)
        as (h' & pd' & -> & Hwf' & Hp' & Hs').
      simpl. split; [done|]. split.
      + intros p. by rewrite Hp', Hpr.
      + intros p s. rewrite Hs', Hsr.
        destruct (decide (p = profile)) as [->|Hne].
        * destruct (decide (s = section)) as [->|Hne'].
          -- rewrite decide_True by done. rewrite lookup_insert_eq, Hm.
             destruct (doc_section (contents h pd1) profile section); simpl; [done|].
             by rewrite (right_id_L ∅ (∪)).
          -- rewrite decide_False by (by intros [? ?]). by rewrite lookup_insert_ne.
        * by rewrite decide_False by (by intros [? ?]). }
  specialize (Hfold sections). simpl in Hfold. destruct Hfold as (Hwf' & Hp' & Hs').
  destruct (map_fold (merge_section profile) (h, pd1) sections) as [h' pd'].
  exists h', pd'. split; [done|]. split; [done|]. split.
  - intros p. by rewrite Hp', Hp1.
  - intros p s. rewrite Hs'. by rewrite !Hs1.
Qed.

(** Merging a file leaves the store well formed, and its contents are
    those before merged with the file. *)
Lemma merge_document_spec (cfg : document V) h pd :
  store_wf h pd ->
  store_wf (merge_document cfg (h, pd)).1 (merge_document cfg (h, pd)).2 ∧
  contents (merge_document cfg (h, pd)).1 (merge_document cfg (h, pd)).2
  = doc_merge cfg (contents h pd).
Proof.
  intros Hwf. unfold merge_document.
  assert (∀ m : document V,
    let r := map_fold merge_profile (h, pd) m in
    store_wf r.1 r.2 ∧
    (∀ p, is_Some (r.2 !! p) ↔ is_Some (m !! p) ∨ is_Some (pd !! p)) ∧
    (∀ p s, doc_section (contents r.1 r.2) p s =
            union_with (λ params old, Some (params ∪ old)) (doc_section m p s)
              (doc_section (contents h pd) p s))) as Hfold.
  { apply (map_fold_weak_ind (λ r (m : document V),
      store_wf r.1 r.2 ∧
      (∀ p, is_Some (r.2 !! p) ↔ is_Some (m !! p) ∨ is_Some (pd !! p)) ∧
      (∀ p s, doc_section (contents r.1 r.2) p s =
              union_with (λ params old, Some (params ∪ old)) (doc_section m p s)
                (doc_section (contents h pd) p s)))).
    - split; [done|]. split.
      + intros p. rewrite lookup_empty. split; [auto|]. intros [[? ?]|?]; done.
      + intros p s. unfold doc_section at 2. rewrite lookup_empty. simpl.
        by destruct (doc_section _ p s).
    - intros profile secs m [hr pdr] Hm (Hwfr & Hpr & Hsr). simpl in *.
      destruct (merge_profile_spec profile secs hr pdr Hwfr)
        as (h' & pd' & -> & Hwf' & Hp' & Hs').
      simpl. split; [done|]. split.
      + intros p. rewrite Hp', Hpr. destruct (decide (p = profile)) as [->|Hne].
        * rewrite lookup_insert_eq. split; eauto.
        * rewrite lookup_insert_ne by done. split; [|auto]. by intros [?|?].
      + intros p s. rewrite Hs', Hsr, doc_section_insert.
        destruct (decide (p = profile)) as [->|Hne]; [|done].
        rewrite (doc_section_absent m) by done.
        by destruct (doc_section (contents h pd) profile s). }
  specialize (Hfold cfg). simpl in Hfold. destruct Hfold as (Hwf' & Hp' & Hs').
  split; [done|]. apply document_eq.
  - intros p. by rewrite contents_profile, Hp', doc_merge_profile, contents_profile.
  - intros p s. by rewrite Hs', doc_merge_section.
Qed.


Lemma doc_merge_param (cfg stored : document V) p s k :
  doc_param (doc_merge cfg stored) p s k =
  match doc_param cfg p s k with
  | Some v => Some v
  | None => doc_param stored p s k
  end.
Proof.
  unfold doc_param. rewrite doc_merge_section.
  destruct (doc_section cfg p s) as [a|], (doc_section stored p s) as [b|]; simpl; try done.
  - rewrite lookup_union. by destruct (a !! k), (b !! k).
  - by destruct (a !! k).
Qed.

Lemma last_set_snoc (docs : list (document V)) cfg p s k v :
  last_set (docs ++ [cfg]) p s k v ↔
  doc_param cfg p s k = Some v ∨ (doc_param cfg p s k = None ∧ last_set docs p s k v).
Proof.
  unfold last_set. split.
  - intros (before & d & after & Heq & Hd & Hafter).
    destruct after as [|d' after _] using rev_ind.
    + apply app_inj_tail in Heq as [_ <-]. by left.
    + rewrite app_comm_cons, app_assoc in Heq.
      apply app_inj_tail in Heq as [-> <-].
      apply Forall_app in Hafter as [Hafter Hcfg].
      right. split; [by inversion Hcfg|]. by exists before, d, after.
  - intros [Hcfg|(Hcfg & before & d & after & -> & Hd & Hafter)].
    + exists docs, cfg, []. by split.
    + exists before, d, (after ++ [cfg]). split; [by rewrite <- app_assoc|].
      split; [done|]. apply Forall_app. split; [done|]. by constructor.
Qed.

(** The invariant of [load]: the store is well formed and holds the files
    loaded so far merged in order. *)
Lemma loaded_invariant docs h self :
  loaded docs h self ->
  store_wf h (profile_data self) ∧
  contents h (profile_data self) = foldl (λ stored cfg, doc_merge cfg stored) ∅ docs.
Proof.
  induction 1 as [h dir|docs h self fs file h' self' cfg _ [IHwf IH] Hload Hfs
                 |docs h self fs file h' self' _ IH Hload].
  - split; [|done]. split; intros p secs s; simpl; by rewrite lookup_empty.
  - revert Hload. unfold load. case_bool_decide; [congruence|]. rewrite Hfs.
    destruct (truthy (Some cfg)); simpl; [|congruence].
    intros [= <- <-]. simpl.
    destruct (merge_document_spec cfg h (profile_data self) IHwf) as [Hwf' Hc'].
    split; [done|]. by rewrite foldl_app, Hc', IH.
  - revert Hload. unfold load. case_bool_decide; [by intros [= <- <-]|].
    destruct (fs _) as [| |cfg|before f]; try congruence.
    destruct (truthy cfg); simpl; congruence.
Qed.

Lemma merged_section (docs : list (document V)) p s :
  is_Some (doc_section (foldl (λ stored cfg, doc_merge cfg stored) ∅ docs) p s) ↔
  ∃ d, d ∈ docs ∧ is_Some (doc_section d p s).
Proof.
  induction docs as [|cfg docs IH] using rev_ind.
  - simpl. unfold doc_section. rewrite lookup_empty. simpl. split.
    + by intros [? ?].
    + intros (d & Hd & _). by apply elem_of_nil in Hd.
  - rewrite foldl_app. simpl. rewrite doc_merge_section. split.
    + intros Hsome. destruct (doc_section cfg p s) as [a|] eqn:Ha.
      * exists cfg. rewrite Ha. split; [|eauto]. apply elem_of_app. right.
        apply list_elem_of_here.
      * assert (is_Some (doc_section (foldl (λ stored cfg, doc_merge cfg stored) ∅ docs) p s))
          as Hold by (by destruct (doc_section (foldl _ _ docs) p s)).
        apply IH in Hold as (d & Hd & Hds). exists d. split; [|done].
        apply elem_of_app. by left.
    + intros (d & Hd & Hds). apply elem_of_app in Hd as [Hd|Hd].
      * assert (is_Some (doc_section (foldl (λ stored cfg, doc_merge cfg stored) ∅ docs) p s))
          as [b Hb] by (apply IH; eauto).
        rewrite Hb. by destruct (doc_section cfg p s).
      * apply list_elem_of_singleton in Hd as ->. destruct Hds as [a ->].
        by destruct (doc_section _ p s).
Qed.

Lemma merged_param (docs : list (document V)) p s k v :
  doc_param (foldl (λ stored cfg, doc_merge cfg stored) ∅ docs) p s k = Some v ↔
  last_set docs p s k v.
Proof.
  revert v. induction docs as [|cfg docs IH] using rev_ind; intros v.
  - simpl. unfold doc_param, doc_section. rewrite lookup_empty. simpl. split; [done|].
    intros (before & d & after & Heq & _). by destruct before.
  - rewrite foldl_app. simpl. rewrite doc_merge_param, last_set_snoc.
    destruct (doc_param cfg p s k) as [w|].
    + split; [auto|]. by intros [?|[? _]].
    + rewrite IH. split; [auto|]. by intros [?|[_ ?]].
Qed.

Lemma last_set_exists (docs : list (document V)) p s k :
  (∃ v, last_set docs p s k v) ↔ ∃ d, d ∈ docs ∧ is_Some (doc_param d p s k).
Proof.
  split.
  - intros (v & before & d & after & -> & Hd & _). exists d. split; [|eauto].
    apply elem_of_app. right. apply list_elem_of_here.
  - induction docs as [|cfg docs IH] using rev_ind.
    + intros (d & Hd & _). by apply elem_of_nil in Hd.
    + intros (d & Hd & Hdk). destruct (doc_param cfg p s k) as [w|] eqn:Hw.
      * exists w. apply last_set_snoc. by left.
      * apply elem_of_app in Hd as [Hd|Hd].
        -- destruct IH as [v Hv]; [eauto|]. exists v. apply last_set_snoc. by right.
        -- apply list_elem_of_singleton in Hd as ->. rewrite Hw in Hdk. by destruct Hdk.
Qed.

(** C3. In a store reached from its construction by calls of [load] that
    return, for every profile and section that some loaded file has,
    [profile_data] holds a dictionary for that section whose keys are
    exactly the parameter names the loaded files give the section, each
    with the value of the last loaded file that sets it. *)
Theorem loaded_contents docs h self p s :
  loaded docs h self ->
  (∃ d, d ∈ docs ∧ is_Some (doc_section d p s)) ->
  ∃ params,
    doc_section (contents h (profile_data self)) p s = Some params ∧
    (∀ k, is_Some (params !! k) ↔ ∃ d, d ∈ docs ∧ is_Some (doc_param d p s k)) ∧
    (∀ k v, params !! k = Some v ↔ last_set docs p s k v).
Proof.
  intros Hloaded Hsec. destruct (loaded_invariant _ _ _ Hloaded) as [_ Hc].
  apply merged_section in Hsec as [params Hparams]. rewrite <- Hc in Hparams.
  exists params. split; [done|].
  assert (∀ k v, params !! k = Some v ↔ last_set docs p s k v) as Hlast.
  { intros k v. rewrite <- merged_param, <- Hc. unfold doc_param. by rewrite Hparams. }
  split; [|done]. intros k. rewrite <- last_set_exists. split.
  - intros [v Hv]. exists v. by apply Hlast.
  - intros [v Hv]. exists v. by apply Hlast.
Qed.

End MergeProperties.

(** C3, on the sample store: file A then file B. *)
Lemma loaded_contents_witness :
  ∃ params,
    doc_section (contents sample_heap (profile_data sample_store)) "default" "scoring"
    = Some params ∧
    (∀ k, is_Some (params !! k) ↔
          ∃ d, d ∈ [file_a; file_b] ∧ is_Some (doc_param d "default" "scoring" k)) ∧
    (∀ k v, params !! k = Some v ↔ last_set [file_a; file_b] "default" "scoring" k v).
Proof.
  apply (loaded_contents (H := sample_paths) [file_a; file_b] sample_heap sample_store
           "default" "scoring").
  - apply (loaded_true (H := sample_paths) [file_a] sample_first.1.1 sample_first.1.2
             sample_fs "b.yaml" sample_heap sample_store file_b).
    + apply (loaded_true (H := sample_paths) [] ∅ (new_config (Some "conf"))
               sample_fs "a.yaml" sample_first.1.1 sample_first.1.2 file_a).
      * apply loaded_new.
      * vm_compute. reflexivity.
      * vm_compute. reflexivity.
    + vm_compute. reflexivity.
    + vm_compute. reflexivity.
  - exists file_a. split; [apply list_elem_of_here|]. vm_compute. eauto.
Defined.

(** ** parse_argv *)

Lemma contains_cut sep s :
  contains sep s = match (cut sep s).2 with Some _ => true | None => false end.
Proof.
  induction s as [|c s IH]; simpl; [done|].
  destruct (Ascii.eqb c sep); [done|]. rewrite IH. by destruct (cut sep s).
Qed.

(** [cut] splits at the first separator. *)
Lemma cut_first sep s key raw :
  cut sep s = (key, Some raw) ->
  s = (key ++ String sep raw)%string ∧ contains sep key = false.
Proof.
  revert key. induction s as [|c s IH]; intros key; simpl; [done|].
  destruct (Ascii.eqb c sep) eqn:Hc.
  - intros [= <- <-]. apply Ascii.eqb_eq in Hc as ->. done.
  - destruct (cut sep s) as [a b]. intros [= <- ->].
    destruct (IH a eq_refl) as [-> Hno]. simpl. by rewrite Hc.
Qed.

Lemma argv_keyword_spec st arg :
  argv_keyword st arg =
  kw ← spec_keyword (kwargs st) arg;
  Ok {| args := args st; kwargs := kw; args_done := true |}.
Proof.
  unfold argv_keyword, spec_keyword, split1.
  destruct (cut "=" arg) as [key [raw|]]; [|done].
  by destruct (typecast raw).
Qed.

Lemma argv_body_positional st tok :
  args_done st = false -> contains "=" tok = false ->
  argv_body st tok =
  v ← typecast tok;
  Ok {| args := args st ++ [v]; kwargs := kwargs st; args_done := false |}.
Proof. unfold argv_body. by intros -> ->. Qed.

Lemma argv_body_keyword st tok :
  args_done st = true ∨ contains "=" tok = true ->
  argv_body st tok =
  kw ← spec_keyword (kwargs st) tok;
  Ok {| args := args st; kwargs := kw; args_done := true |}.
Proof.
  unfold argv_body. rewrite argv_keyword_spec.
  intros [-> | ->]; [done|]. by destruct (args_done st).
Qed.

Lemma for_each_keyword post : ∀ st,
  args_done st = true ->
  for_each argv_body post st =
  kw ← for_each spec_keyword post (kwargs st);
  Ok {| args := args st; kwargs := kw; args_done := true |}.
Proof.
  induction post as [|tok post IH]; intros st Hdone; cbn [for_each].
  - destruct st; simpl in *; by subst.
  - rewrite argv_body_keyword by auto.
    destruct (spec_keyword (kwargs st) tok) as [k'|e]; [|done].
    cbn. by rewrite IH.
Qed.

Lemma for_each_positional pre post : ∀ st,
  args_done st = false ->
  Forall (λ tok, contains "=" tok = false) pre ->
  for_each argv_body (pre ++ post) st =
  vs ← map_result typecast pre;
  for_each argv_body post {| args := args st ++ vs; kwargs := kwargs st; args_done := false |}.
Proof.
  induction pre as [|tok pre IH]; intros st Hdone Hpre; cbn [for_each app map_result].
  - cbn. rewrite app_nil_r. destruct st; simpl in *; by subst.
  - inversion Hpre as [|? ? Htok Hrest]; subst.
    rewrite argv_body_positional by done.
    destruct (typecast tok) as [v|e]; [|done]. cbn.
    rewrite IH by done. cbn.
    destruct (map_result typecast pre) as [vs|e]; [|done]. cbn.
    by rewrite <- app_assoc.
Qed.

(** C7. For a token list made of tokens without ['='] followed by a list
    that is empty or starts with a token containing ['='], [parse_argv]
    coerces the former, in order, into the positional list, and handles
    every token of the latter as a keyword token, in order: split at the
    first ['='], key kept as it is, value coerced, a later key overwriting
    an earlier equal one.  A token without ['='] in the keyword part is
    not taken as positional: it has no split and the call raises. *)
Theorem parse_argv_positional_then_keyword pre post :
  Forall (λ tok, contains "=" tok = false) pre ->
  (∀ tok, head post = Some tok → contains "=" tok = true) ->
  parse_argv (pre ++ post) =
  args ← map_result typecast pre;
  kw ← for_each spec_keyword post ∅;
  Ok (args, kw).
Proof.
  intros Hpre Hpost. unfold parse_argv.
  rewrite for_each_positional by done. cbn.
  destruct (map_result typecast pre) as [vs|e]; [|done]. cbn.
  destruct post as [|tok post]; [done|].
  cbn [for_each]. rewrite argv_body_keyword by (right; by apply Hpost). cbn.
  destruct (spec_keyword ∅ tok) as [k|e]; [|done]. cbn.
  rewrite for_each_keyword by done. cbn.
  by destruct (for_each spec_keyword post k).
Qed.

(** A token without ['='] is no keyword token. *)
Lemma spec_keyword_without_equals kw tok :
  contains "=" tok = false -> spec_keyword kw tok = Raise ValueError.
Proof.
  rewrite contains_cut. unfold spec_keyword.
  by destruct (cut "=" tok) as [key [raw|]].
Qed.

(** C7, on the example of the specification. *)
Lemma parse_argv_witness :
  parse_argv ["a"; "b"; "x=1"; "y=true"; "z="]
  = Ok ([VStr "a"; VStr "b"],
        <["z" := VNone]> (<["y" := VBool true]> (<["x" := VInt 1]> ∅))).
Proof.
  etrans.
  - apply (parse_argv_positional_then_keyword ["a"; "b"] ["x=1"; "y=true"; "z="]).
    + repeat constructor.
    + intros tok [= <-]. reflexivity.
  - vm_compute. reflexivity.
Defined.

(** [typecast] yields no float: a string that is numeric without being
    decimal holds a character [float] does not read. *)
Lemma typecast_not_float s q : typecast s ≠ Ok (VFloat q).
Proof.
  unfold typecast, float_of_numeric, int_of_str.
  destruct (isdecimal s); [by destruct (INT_MAX_STR_DIGITS <? _)|].
  destruct (isnumeric s); [done|].
  repeat case_bool_decide; try done.
  by destruct (0 <? _).
Qed.

(** C2. The coercion reads neither a decimal point nor a sign: "5.5" and
    "-5" are neither decimal nor numeric strings and come back unchanged,
    so [parse_argv(['n=5.5'])] maps "n" to the string "5.5"; and no string
    at all is coerced to a float. *)
Theorem typecast_fraction_is_string :
  parse_argv ["n=5.5"] = Ok ([], {["n" := VStr "5.5"]}) ∧
  typecast "5.5" = Ok (VStr "5.5") ∧
  typecast "-5" = Ok (VStr "-5") ∧
  (∀ s q, typecast s ≠ Ok (VFloat q)).
Proof.
  split; [vm_compute; reflexivity|].
  split; [vm_compute; reflexivity|].
  split; [vm_compute; reflexivity|].
  apply typecast_not_float.
Qed.

(** ** replace_tokens *)

(** *** The placeholders of a template *)

Lemma str_append_assoc (a b c : string) : ((a ++ b) ++ c = a ++ (b ++ c))%string.
Proof.
  induction a as [|x a IH]; [done|].
  change (String x ((a ++ b) ++ c) = String x (a ++ (b ++ c)))%string. by rewrite IH.
Qed.

Lemma str_length_append (a b : string) :
  String.length (a ++ b) = (String.length a + String.length b)%nat.
Proof.
  induction a as [|x a IH]; [done|].
  change (S (String.length (a ++ b)) = S (String.length a + String.length b)). by rewrite IH.
Qed.

Lemma span_token_body body rest :
  str_forall token_char body = true ->
  span_token (body ++ String ">" rest) = (body, String ">" rest).
Proof.
  induction body as [|c body IH]; simpl; [done|].
  intros [Hc Hbody]%andb_true_iff. rewrite Hc. by rewrite IH.
Qed.

Lemma span_token_split s body rest :
  span_token s = (body, rest) ->
  s = (body ++ rest)%string ∧ str_forall token_char body = true.
Proof.
  revert body rest. induction s as [|c s IH]; intros body rest; simpl.
  - by intros [= <- <-].
  - destruct (token_char c) eqn:Hc.
    + destruct (span_token s) as [a b]. intros [= <- <-].
      destruct (IH a b eq_refl) as [-> Ha]. simpl. by rewrite Hc.
    + by intros [= <- <-].
Qed.

Lemma match_token_sound s tok :
  match_token s = Some tok -> is_placeholder tok ∧ ∃ rest, s = (tok ++ rest)%string.
Proof.
  unfold match_token. destruct s as [|c s]; [done|].
  destruct (Ascii.eqb_spec c "<") as [->|Hne].
  2:{ destruct c as [[] [] [] [] [] [] [] []]; try done. }
  destruct (span_token s) as [body rest] eqn:Hspan.
  destruct (span_token_split _ _ _ Hspan) as [-> Hbody].
  destruct rest as [|d rest]; [done|].
  destruct (Ascii.eqb_spec d ">") as [->|Hne].
  2:{ destruct d as [[] [] [] [] [] [] [] []]; try done. }
  destruct (nonempty body) eqn:Hn; [|done]. intros [= <-]. split.
  - by exists body.
  - exists rest.
    change (String "<" (body ++ String ">" rest) = String "<" ((body ++ ">") ++ rest))%string.
    by rewrite str_append_assoc.
Qed.

Lemma match_token_complete tok rest :
  is_placeholder tok -> match_token (tok ++ rest) = Some tok.
Proof.
  intros (body & -> & Hn & Hbody).
  change (match_token (String "<" ((body ++ ">") ++ rest)) = Some (String "<" (body ++ ">")))%string.
  rewrite str_append_assoc. unfold match_token.
  change (">" ++ rest)%string with (String ">" rest).
  rewrite span_token_body by done. by rewrite Hn.
Qed.

Lemma occurs_in_cons tok c s :
  nonempty tok = true ->
  occurs_in tok (String c s) ↔ (∃ rest, String c s = (tok ++ rest)%string) ∨ occurs_in tok s.
Proof.
  intros Hne. split.
  - intros (before & after & Heq). destruct before as [|b before].
    + left. by exists after.
    + right. injection Heq as _ ->. by exists before, after.
  - intros [[rest Heq]|(before & after & ->)].
    + by exists EmptyString, rest.
    + by exists (String c before), after.
Qed.

Lemma occurs_in_empty tok : nonempty tok = true -> ¬ occurs_in tok EmptyString.
Proof.
  intros Hne (before & after & Heq). destruct before; [|done]. by destruct tok.
Qed.

Lemma placeholder_nonempty tok : is_placeholder tok -> nonempty tok = true.
Proof. by intros (body & -> & _). Qed.

Lemma token_char_not_open c : token_char c = true -> c ≠ "<"%char.
Proof. by intros Hc ->. Qed.

Lemma no_open_body body rest :
  str_forall token_char body = true ->
  no_open (String.length body + 1) (body ++ String ">" rest).
Proof.
  induction body as [|c body IH]; intros Hbody.
  - simpl. done.
  - apply andb_true_iff in Hbody as [Hc Hbody].
    change (c ≠ "<"%char ∧ no_open (String.length body + 1) (body ++ String ">" rest)).
    split; [by apply token_char_not_open|by apply IH].
Qed.

(** [findall_from] finds the placeholders that occur in the text, past
    the characters it skips when these hold no ['<']. *)
Lemma findall_from_spec s : ∀ skip tok,
  no_open skip s ->
  tok ∈ findall_from skip s ↔ is_placeholder tok ∧ occurs_in tok s.
Proof.
  induction s as [|c s IH]; intros skip tok Hskip.
  - cbn. split; [by intros ?%elem_of_nil|].
    intros [Hp Hocc]. exfalso. eapply occurs_in_empty; [|done]. by apply placeholder_nonempty.
  - destruct skip as [|k].
    + cbn [findall_from]. destruct (match_token (String c s)) as [tok0|] eqn:Hmatch.
      * destruct (match_token_sound _ _ Hmatch) as [Hp0 [rest Hrest]].
        pose proof Hp0 as (body & -> & Hn & Hbody).
        assert (s = (body ++ String ">" rest)%string) as Hs.
        { change (String c s = String "<" ((body ++ ">") ++ rest))%string in Hrest.
          rewrite str_append_assoc in Hrest. by injection Hrest as _ ->. }
        assert (String.length (String "<" (body ++ ">")) - 1 = String.length body + 1)%nat
          as -> by (cbn; rewrite str_length_append; cbn; lia).
        rewrite elem_of_cons, IH by (rewrite Hs; by apply no_open_body).
        split.
        -- intros [->|[Hp Hocc]].
           ++ split; [done|]. by exists EmptyString, rest.
           ++ split; [done|]. apply occurs_in_cons; [by apply placeholder_nonempty|].
              by right.
        -- intros [Hp Hocc].
           apply occurs_in_cons in Hocc as [[rest' Heq]|?];
             [|by right|by apply placeholder_nonempty].
           left. pose proof (match_token_complete tok rest' Hp) as Hm.
           rewrite <- Heq, Hmatch in Hm. by injection Hm.
      * rewrite IH by done. split; intros [Hp Hocc]; (split; [done|]).
        -- apply occurs_in_cons; [by apply placeholder_nonempty|]. by right.
        -- apply occurs_in_cons in Hocc as [[rest' Heq]|?];
             [|done|by apply placeholder_nonempty].
           pose proof (match_token_complete tok rest' Hp) as Hm.
           rewrite <- Heq, Hmatch in Hm. done.
    + destruct Hskip as [Hc Hk]. cbn [findall_from]. rewrite IH by done.
      split; intros [Hp Hocc]; (split; [done|]).
      * apply occurs_in_cons; [by apply placeholder_nonempty|]. by right.
      * apply occurs_in_cons in Hocc as [[rest Heq]|?]; [|done|by apply placeholder_nonempty].
        destruct Hp as (body & -> & _). by injection Heq as -> _.
Qed.

(** The tokens [replace_tokens] looks up are the placeholders that occur
    in the template. *)
Lemma findall_tokens_spec fmt tok :
  tok ∈ findall_tokens fmt ↔ is_placeholder tok ∧ occurs_in tok fmt.
Proof. by apply findall_from_spec. Qed.

(** *** The substitution *)

Lemma replace_body_found kwargs cur tok s :
  kwargs !! token_var tok = Some (VStr s) -> nonempty s = true ->
  replace_body kwargs cur tok = Ok (replace tok (token_text kwargs tok) cur).
Proof.
  intros Hk Hs. unfold replace_body, token_text, token_value. rewrite Hk. simpl.
  by rewrite Hs.
Qed.

Lemma replace_body_missing kwargs cur tok :
  falsy (token_value kwargs tok) = true ->
  replace_body kwargs cur tok = Raise (RuntimeError (TokenNotFound (token_var tok) kwargs)).
Proof. unfold replace_body, token_value. by intros ->. Qed.

(** With a non-empty string for every token, the loop replaces the tokens
    one after the other in the current text. *)
Lemma for_each_replace kwargs toks : ∀ cur,
  (∀ tok, tok ∈ toks → ∃ s, kwargs !! token_var tok = Some (VStr s) ∧ nonempty s = true) ->
  for_each (replace_body kwargs) toks cur
  = Ok (foldl (λ text tok, replace tok (token_text kwargs tok) text) cur toks).
Proof.
  induction toks as [|tok toks IH]; intros cur Hall; cbn [for_each foldl]; [done|].
  destruct (Hall tok) as (s & Hk & Hs); [apply list_elem_of_here|].
  rewrite (replace_body_found _ _ _ s) by done. cbn.
  apply IH. intros t Ht. apply Hall. by apply list_elem_of_further.
Qed.

(** What the loop raises is raised for one of the tokens. *)
Lemma for_each_replace_raise kwargs toks : ∀ cur e,
  for_each (replace_body kwargs) toks cur = Raise e ->
  ∃ tok, tok ∈ toks ∧
    (falsy (token_value kwargs tok) = true ∧ e = RuntimeError (TokenNotFound (token_var tok) kwargs) ∨
     falsy (token_value kwargs tok) = false ∧ (∀ s, token_value kwargs tok ≠ VStr s) ∧
     e = TypeError).
Proof.
  induction toks as [|tok toks IH]; intros cur e; cbn [for_each]; [done|].
  destruct (replace_body kwargs cur tok) as [cur'|e'] eqn:Hbody; cbn.
  - intros Hrest. destruct (IH _ _ Hrest) as (t & Ht & Hcase).
    exists t. split; [by apply list_elem_of_further|done].
  - intros [= ->]. exists tok. split; [apply list_elem_of_here|].
    revert Hbody. unfold replace_body. fold (token_value kwargs tok).
    destruct (falsy (token_value kwargs tok)) eqn:Hf.
    + intros [= <-]. by left.
    + destruct (token_value kwargs tok); try done; intros [= <-]; right; done.
Qed.

Lemma str_value_cases kwargs tok :
  (∀ v, kwargs !! token_var tok = Some v → ∃ s, v = VStr s) ->
  falsy (token_value kwargs tok) = true ∨
  ∃ s, kwargs !! token_var tok = Some (VStr s) ∧ nonempty s = true.
Proof.
  intros Hstr. unfold token_value.
  destruct (kwargs !! token_var tok) as [v|] eqn:Hk; [|by left].
  destruct (Hstr v eq_refl) as [s ->]. simpl.
  destruct (nonempty s) eqn:Hs; [right; by exists s|by left].
Qed.

(** [replace_tokens] in terms of the tokens [re.findall] returns. *)
Lemma replace_tokens_found fmt kwargs :
  (∀ tok v, tok ∈ findall_tokens fmt → kwargs !! token_var tok = Some v → ∃ s, v = VStr s) ->
  ((∃ e, replace_tokens fmt kwargs = Raise e) ↔
   (∃ tok, tok ∈ findall_tokens fmt ∧ falsy (token_value kwargs tok) = true)) ∧
  (∀ e, replace_tokens fmt kwargs = Raise e → spec_error_kind e = FormatError) ∧
  ((∀ tok, tok ∈ findall_tokens fmt → falsy (token_value kwargs tok) = false) →
   replace_tokens fmt kwargs
   = Ok (foldl (λ text tok, replace tok (token_text kwargs tok) text) fmt (findall_tokens fmt))).
Proof.
  intros Hstr. unfold replace_tokens.
  assert (∀ e, for_each (replace_body kwargs) (findall_tokens fmt) fmt = Raise e →
               ∃ tok, tok ∈ findall_tokens fmt ∧ falsy (token_value kwargs tok) = true ∧
                      e = RuntimeError (TokenNotFound (token_var tok) kwargs)) as Hraise.
  { intros e He. destruct (for_each_replace_raise _ _ _ _ He) as (tok & Htok & Hcase).
    exists tok. split; [done|]. destruct Hcase as [?|(Hf & Hns & _)]; [done|].
    destruct (str_value_cases kwargs tok) as [Hf'|(s & Hk & _)]; [eauto|congruence|].
    exfalso. apply (Hns s). unfold token_value. by rewrite Hk. }
  assert ((∀ tok, tok ∈ findall_tokens fmt → falsy (token_value kwargs tok) = false) →
          for_each (replace_body kwargs) (findall_tokens fmt) fmt
          = Ok (foldl (λ text tok, replace tok (token_text kwargs tok) text) fmt
                  (findall_tokens fmt))) as Hok.
  { intros Hall. apply for_each_replace. intros tok Htok.
    destruct (str_value_cases kwargs tok) as [Hf|?]; [eauto| |done].
    rewrite (Hall tok Htok) in Hf. done. }
  split; [split|split].
  - intros [e He]. destruct (Hraise e He) as (tok & ? & ? & _). eauto.
  - intros (tok & Htok & Hf).
    destruct (for_each (replace_body kwargs) (findall_tokens fmt) fmt) as [text|e] eqn:Hrun;
      [|eauto].
    exfalso. clear Hraise Hok. revert Hrun. generalize fmt at 2 as cur.
    induction (findall_tokens fmt) as [|t toks IH]; intros cur; [by apply elem_of_nil in Htok|].
    cbn [for_each].
    apply elem_of_cons in Htok as [<-|Htok].
    + by rewrite replace_body_missing.
    + destruct (replace_body kwargs cur t); cbn; [|done].
      apply IH; [|done]. intros tok' v Hin. apply Hstr. by apply list_elem_of_further.
  - intros e He. destruct (Hraise e He) as (tok & _ & _ & ->). done.
  - done.
Qed.

(** What the loop computes.  The tokens [replace_tokens] looks up are the
    placeholders that occur in the template.  When every value looked up
    for one of them is a string, [replace_tokens] raises exactly when
    some placeholder's key (delimiters stripped, lowercased) is absent or
    maps to the empty string, and what it raises is a format error;
    otherwise its result is the left fold of [str.replace] over the
    placeholders in their order in the template, each step working on the
    text the steps before it left. *)
Lemma replace_tokens_spec fmt kwargs :
  (∀ tok v, is_placeholder tok → occurs_in tok fmt →
            kwargs !! token_var tok = Some v → ∃ s, v = VStr s) ->
  (∀ tok, tok ∈ findall_tokens fmt ↔ is_placeholder tok ∧ occurs_in tok fmt) ∧
  ((∃ e, replace_tokens fmt kwargs = Raise e) ↔
   (∃ tok, is_placeholder tok ∧ occurs_in tok fmt ∧ falsy (token_value kwargs tok) = true)) ∧
  (∀ e, replace_tokens fmt kwargs = Raise e → spec_error_kind e = FormatError) ∧
  ((∀ tok, is_placeholder tok → occurs_in tok fmt → falsy (token_value kwargs tok) = false) →
   replace_tokens fmt kwargs
   = Ok (foldl (λ text tok, replace tok (token_text kwargs tok) text) fmt (findall_tokens fmt))).
Proof.
  intros Hstr.
  destruct (replace_tokens_found fmt kwargs) as (Hiff & Hkind & Hok).
  { intros tok v [Hp Hocc]%findall_tokens_spec. by apply Hstr. }
  split; [apply findall_tokens_spec|]. split; [|split; [done|]].
  - rewrite Hiff. split.
    + intros (tok & [Hp Hocc]%findall_tokens_spec & Hf). by exists tok.
    + intros (tok & Hp & Hocc & Hf). exists tok. split; [|done].
      by apply findall_tokens_spec.
  - intros Hall. apply Hok. intros tok [Hp Hocc]%findall_tokens_spec. by apply Hall.
Qed.

(** C8.  The result is not the template with each of its placeholders
    replaced by the value looked up for it.  Each [str.replace] works on
    the text the earlier ones left, so a placeholder spelled by a value
    substituted earlier is replaced as well: with "<B>" for [a] and "x" for
    [b], the template "<A><B>" gives "xx", where replacing the placeholders
    of the template gives "<B>x".  Whether this happens depends on the
    order of the placeholders: with the same values, "<B><A>" gives "x<B>",
    the value of [a] staying as it is. *)
Theorem replace_tokens_resubstitutes :
  let kwargs : gmap string value := <["a" := VStr "<B>"]> {["b" := VStr "x"]} in
  replace_tokens "<A><B>" kwargs = Ok "xx" ∧
  spec_substitute "<A><B>" kwargs = "<B>x" ∧
  replace_tokens "<B><A>" kwargs = Ok "x<B>" ∧
  spec_substitute "<B><A>" kwargs = "x<B>".
Proof. repeat split; vm_compute; reflexivity. Qed.

(** A truthy value that is not a string is not rendered: [str.replace]
    raises a [TypeError], which is no format error, although no
    placeholder lacks a value. *)
Lemma replace_tokens_non_string :
  (∀ tok, tok ∈ findall_tokens "<N>" → falsy (token_value {["n" := VInt 5]} tok) = false) ∧
  replace_tokens "<N>" {["n" := VInt 5]} = Raise TypeError ∧
  spec_error_kind TypeError ≠ FormatError.
Proof.
  split; [|split].
  - intros tok Htok. vm_compute in Htok. apply list_elem_of_singleton in Htok as ->.
    vm_compute. reflexivity.
  - vm_compute. reflexivity.
  - discriminate.
Qed.

(** The example of the specification. *)
Lemma replace_tokens_witness :
  replace_tokens "Winner: <TEAM_NAME>" {["team_name" := VStr "Lions"]} = Ok "Winner: Lions".
Proof.
  assert (∀ tok, is_placeholder tok → occurs_in tok "Winner: <TEAM_NAME>" →
                 tok = "<TEAM_NAME>") as Honly.
  { intros tok Hp Hocc.
    assert (tok ∈ findall_tokens "Winner: <TEAM_NAME>") as Htok
      by (by apply findall_tokens_spec).
    vm_compute in Htok. by apply list_elem_of_singleton in Htok. }
  assert (∀ tok v, is_placeholder tok → occurs_in tok "Winner: <TEAM_NAME>" →
                   ({["team_name" := VStr "Lions"]} : gmap string value) !! token_var tok = Some v →
                   ∃ s, v = VStr s) as Hstr.
  { intros tok v Hp Hocc. rewrite (Honly tok Hp Hocc).
    vm_compute. intros [= <-]. by eexists. }
  etrans.
  - apply (proj2 (proj2 (proj2 (replace_tokens_spec _ _ Hstr)))).
    intros tok Hp Hocc. rewrite (Honly tok Hp Hocc). vm_compute. reflexivity.
  - vm_compute. reflexivity.
Defined.

(** ** rankdata *)

(** *** Python lists *)

Lemma py_index_nat n (k : nat) : (k < n)%nat -> py_index n (Z.of_nat k) = Some k.
Proof.
  intros Hk. unfold py_index.
  assert ((0 <=? Z.of_nat k) && (Z.of_nat k <? Z.of_nat n) = true) as ->.
  { apply andb_true_intro. split; [apply Z.leb_le|apply Z.ltb_lt]; lia. }
  by rewrite Nat2Z.id.
Qed.

Lemma getitem_nat {A} (l : list A) (k : nat) x :
  l !! k = Some x -> getitem l (Z.of_nat k) = Ok x.
Proof.
  intros Hk. unfold getitem. rewrite py_index_nat by (by eapply lookup_lt_Some).
  simpl. by rewrite Hk.
Qed.

Lemma setitem_nat {A} (l : list A) (k : nat) x :
  (k < length l)%nat -> setitem l (Z.of_nat k) x = Ok (<[k := x]> l).
Proof. intros Hk. unfold setitem. by rewrite py_index_nat. Qed.

Lemma setitem_in_range {A} (l : list A) i x :
  0 ≤ i < Z.of_nat (length l) -> setitem l i x = Ok (<[Z.to_nat i := x]> l).
Proof.
  intros Hi. rewrite <- (Z2Nat.id i) at 1 by lia. apply setitem_nat. lia.
Qed.

#[local] Arguments getitem : simpl never.
#[local] Arguments setitem : simpl never.

Lemma map_result_fmap {A B} (f : A → result B) (g : A → B) xs :
  Forall (λ x, f x = Ok (g x)) xs -> map_result f xs = Ok (g <$> xs).
Proof.
  induction 1 as [|x xs Hx _ IH]; [done|]. cbn [map_result]. rewrite Hx. cbn.
  by rewrite IH.
Qed.

(** *** The stable sort *)

Lemma precedes_false reverse a b :
  precedes reverse a b = false -> precedes reverse b a = true ∧ a ≠ b.
Proof.
  unfold precedes. destruct reverse; intros Hf%Z.leb_gt; split; try lia; apply Z.leb_le; lia.
Qed.

Lemma precedes_trans reverse a b c :
  precedes reverse a b = true -> precedes reverse b c = true -> precedes reverse a c = true.
Proof.
  unfold precedes. destruct reverse; intros H1%Z.leb_le H2%Z.leb_le; apply Z.leb_le; lia.
Qed.

Lemma insert_keyed_perm {A} reverse (x : Z * A) l : insert_keyed reverse x l ≡ₚ x :: l.
Proof.
  induction l as [|y l IH]; simpl; [done|].
  destruct (precedes reverse x.1 y.1); [done|]. rewrite IH. apply Permutation_swap.
Qed.

Lemma sorted_keyed_perm {A} reverse (l : list (Z * A)) : sorted_keyed reverse l ≡ₚ l.
Proof.
  induction l as [|x l IH]; simpl; [done|].
  rewrite insert_keyed_perm. by rewrite IH.
Qed.

Lemma insert_keyed_sorted reverse x l :
  StronglySorted (stable_before reverse) l ->
  Forall (λ z, x.2 < z.2) l ->
  StronglySorted (stable_before reverse) (insert_keyed reverse x l).
Proof.
  induction 1 as [|y l Hl IH Hy]; intros Hx; simpl.
  - by repeat constructor.
  - inversion Hx as [|? ? Hxy Hxl]; subst.
    destruct (precedes reverse x.1 y.1) eqn:Hp.
    + constructor; [by constructor|]. constructor; [by split|].
      apply Forall_forall. intros z Hz.
      rewrite Forall_forall in Hy. rewrite Forall_forall in Hxl.
      destruct (Hy z Hz) as [Hyz _]. split; [by eapply precedes_trans|].
      intros _. by apply Hxl.
    + constructor; [by apply IH|].
      rewrite insert_keyed_perm. constructor; [|done].
      destruct (precedes_false _ _ _ Hp) as [Hyx Hne]. split; [done|]. intros Heq. by destruct Hne.
Qed.

Lemma sorted_keyed_sorted reverse l :
  StronglySorted (λ x y : Z * Z, x.2 < y.2) l ->
  StronglySorted (stable_before reverse) (sorted_keyed reverse l).
Proof.
  induction 1 as [|x l _ IH Hx]; simpl; [constructor|].
  apply insert_keyed_sorted; [done|]. by rewrite sorted_keyed_perm.
Qed.

Lemma StronglySorted_lookup {A} (R : relation A) l (i j : nat) x y :
  StronglySorted R l -> (i < j)%nat -> l !! i = Some x -> l !! j = Some y -> R x y.
Proof.
  intros Hl. revert i j. induction Hl as [|z l _ IH Hz]; intros i j Hij Hi Hj; [done|].
  destruct j as [|j]; [lia|]. destruct i as [|i]; simpl in *.
  - simplify_eq. rewrite Forall_forall in Hz. apply Hz. by eapply list_elem_of_lookup_2.
  - apply (IH i j); [lia|done..].
Qed.

Lemma StronglySorted_fmap_on {A B} (R : relation A) (R' : relation B) (P : A → Prop)
    (f : A → B) l :
  (∀ x y, P x → P y → R x y → R' (f x) (f y)) ->
  Forall P l -> StronglySorted R l -> StronglySorted R' (f <$> l).
Proof.
  intros HR HP Hl. induction Hl as [|x l _ IH Hx]; [constructor|].
  inversion HP as [|? ? HPx HPl]; subst. rewrite fmap_cons. constructor; [by apply IH|].
  apply Forall_fmap, Forall_forall. intros y Hy.
  rewrite Forall_forall in Hx. rewrite Forall_forall in HPl. apply HR; auto.
Qed.

Lemma seqZ_sorted m n : StronglySorted Z.lt (seqZ m n).
Proof.
  destruct (decide (0 ≤ n)) as [Hn|Hn]; [|rewrite seqZ_nil by lia; constructor].
  rewrite <- (Z2Nat.id n) by done. clear Hn. generalize (Z.to_nat n) as k. intros k. revert m.
  induction k as [|k IH]; intros m.
  - rewrite seqZ_nil by lia. constructor.
  - rewrite seqZ_cons by lia. constructor.
    + replace (Z.pred (Z.of_nat (S k))) with (Z.of_nat k) by lia. apply IH.
    + apply Forall_seqZ. lia.
Qed.

(** The value at an index that is in range. *)
Lemma getitem_in_range (a : list Z) i :
  0 ≤ i < Z.of_nat (length a) -> getitem a i = Ok (a !!! Z.to_nat i).
Proof.
  intros Hi. rewrite <- (Z2Nat.id i) at 1 by lia. apply getitem_nat.
  apply list_lookup_lookup_total_lt. lia.
Qed.

(** [rank_simple] returns the indices of [a], sorted by value in the
    direction asked for, indices of equal values in increasing order. *)
Lemma rank_simple_spec reverse (a : list Z) :
  ∃ ivec,
    rank_simple reverse a = Ok ivec ∧
    ivec ≡ₚ seqZ 0 (Z.of_nat (length a)) ∧
    StronglySorted (λ i j, stable_before reverse (a !!! Z.to_nat i, i) (a !!! Z.to_nat j, j)) ivec.
Proof.
  set (key := λ i : Z, (a !!! Z.to_nat i, i)).
  assert (map_result (λ i, k ← getitem a i; Ok (k, i)) (range 0 (Z.of_nat (length a)))
          = Ok (key <$> seqZ 0 (Z.of_nat (length a)))) as Hkeyed.
  { unfold range. rewrite Z.sub_0_r. apply map_result_fmap, Forall_seqZ.
    intros i Hi. rewrite getitem_in_range by lia. done. }
  exists ((sorted_keyed reverse (key <$> seqZ 0 (Z.of_nat (length a)))).*2).
  split; [|split].
  - unfold rank_simple. rewrite Hkeyed. done.
  - rewrite sorted_keyed_perm, <- list_fmap_compose.
    rewrite <- (list_fmap_id (seqZ 0 (Z.of_nat (length a)))) at 2.
    erewrite list_fmap_ext; [done|]. done.
  - apply (StronglySorted_fmap_on (stable_before reverse) _ (λ x, x = key x.2)).
    + intros x y -> ->. done.
    + rewrite sorted_keyed_perm. apply Forall_fmap, Forall_forall. done.
    + apply sorted_keyed_sorted.
      apply (StronglySorted_fmap_on Z.lt _ (λ _, True) key (seqZ 0 (Z.of_nat (length a))));
        [done|by apply Forall_forall|apply seqZ_sorted].
Qed.

(** *** Writing a rank into the result array *)

Lemma assign_group_spec ivec r (len : nat) : ∀ (g : nat) (arr : list rank),
  (g + len ≤ length ivec)%nat ->
  (∀ idx, idx ∈ ivec → 0 ≤ idx < Z.of_nat (length arr)) ->
  ∃ arr',
    assign_group ivec r (Z.of_nat g) (Z.of_nat (g + len)) arr = Ok arr' ∧
    length arr' = length arr ∧
    ∀ k : nat,
      arr' !! k =
      if decide (k ∈ Z.to_nat <$> take len (drop g ivec)) then Some r else arr !! k.
Proof.
  unfold assign_group, range.
  induction len as [|len IH]; intros g arr Hlen Hrange.
  - exists arr. rewrite seqZ_nil by lia. split; [done|]. split; [done|].
    intros k. rewrite take_0. rewrite decide_False; [done|]. apply not_elem_of_nil.
  - rewrite seqZ_cons by lia. cbn [for_each].
    destruct (lookup_lt_is_Some_2 ivec g) as [idx Hidx]; [lia|].
    rewrite (getitem_nat _ _ _ Hidx). cbn.
    assert (0 ≤ idx < Z.of_nat (length arr)) as Hin.
    { apply Hrange. by eapply list_elem_of_lookup_2. }
    rewrite setitem_in_range by lia. cbn.
    destruct (IH (S g) (<[Z.to_nat idx := r]> arr)) as (arr' & Hrun & Hlen' & Hlook).
    { lia. }
    { intros i Hi. rewrite length_insert. by apply Hrange. }
    exists arr'. split.
    { replace (Z.succ (Z.of_nat g)) with (Z.of_nat (S g)) by lia.
      replace (Z.pred (Z.of_nat (g + S len) - Z.of_nat g))
        with (Z.of_nat (S g + len) - Z.of_nat (S g)) by lia.
      exact Hrun. }
    split; [by rewrite Hlen', length_insert|].
    intros k. rewrite Hlook.
    rewrite (drop_S _ _ _ Hidx). rewrite firstn_cons, fmap_cons.
    destruct (decide (k = Z.to_nat idx)) as [->|Hne].
    + rewrite (decide_True (P := _ ∈ _ :: _)) by apply list_elem_of_here.
      case_decide; [done|]. apply list_lookup_insert_eq. lia.
    + rewrite list_lookup_insert_ne by done.
      case_decide as Hk.
      * rewrite decide_True; [done|]. by apply list_elem_of_further.
      * rewrite decide_False; [done|]. intros [?|?]%elem_of_cons; done.
Qed.

Lemma sum_Z_app l1 l2 : sum_Z (l1 ++ l2) = sum_Z l1 + sum_Z l2.
Proof. unfold sum_Z. induction l1 as [|x l1 IH]; simpl; lia. Qed.

Lemma sum_Z_seqZ_S m (k : nat) :
  sum_Z (seqZ m (Z.of_nat (S k))) = sum_Z (seqZ m (Z.of_nat k)) + (m + Z.of_nat k).
Proof. rewrite seqZ_S, sum_Z_app. unfold sum_Z. simpl. lia. Qed.

Lemma sum_Z_seqZ_shift m (k : nat) :
  sum_Z (seqZ (m + 1) (Z.of_nat k)) = sum_Z (seqZ m (Z.of_nat k)) + Z.of_nat k.
Proof.
  induction k as [|k IH]; [done|]. rewrite !sum_Z_seqZ_S, IH. lia.
Qed.

(** The mean of [p + 1 .. p + k] is what the loop computes from the sum of
    the positions [p .. p + k - 1]. *)
Lemma averank_of_spec (p k : nat) :
  (0 < k)%nat ->
  ∃ q, averank_of (sum_Z (seqZ (Z.of_nat p) (Z.of_nat k))) (Z.of_nat k) = Ok q ∧
       rank_eq (RFloat q) (spec_rank false p k).
Proof.
  intros Hk. unfold averank_of. destruct (Z.eqb_spec (Z.of_nat k) 0) as [|Hne]; [lia|].
  eexists. split; [reflexivity|]. simpl. rewrite sum_Z_seqZ_shift.
  rewrite inject_Z_plus. field. intros Hq.
  apply Hne. unfold Qeq in Hq. simpl in Hq. lia.
Qed.

(** *** The loop *)

Section RankLoop.
Variables (use_min : bool) (ivec svec : list Z) (n : nat).
Hypothesis Hivec : length ivec = n.
Hypothesis Hsvec : length svec = n.
Hypothesis Hnodup : NoDup ivec.
Hypothesis Hrange : ∀ idx, idx ∈ ivec → 0 ≤ idx < Z.of_nat n.

(** The test that ends a group at position [i]: the next position holds
    another value, or there is none. *)
Lemma group_end_test (i : nat) :
  (i < n)%nat ->
  ∃ last : bool,
    (if Z.of_nat i =? Z.of_nat n - 1 then Ok true
     else x ← getitem svec (Z.of_nat i); y ← getitem svec (Z.of_nat i + 1);
          Ok (negb (x =? y))) = Ok last ∧
    (last = true ↔ svec !! S i ≠ svec !! i).
Proof.
  intros Hi. destruct (lookup_lt_is_Some_2 svec i) as [x Hx]; [lia|].
  destruct (Z.eqb_spec (Z.of_nat i) (Z.of_nat n - 1)) as [Heq|Hne].
  - exists true. split; [done|]. split; [|done]. intros _.
    rewrite (lookup_ge_None_2 svec (S i)) by lia. by rewrite Hx.
  - destruct (lookup_lt_is_Some_2 svec (S i)) as [y Hy]; [lia|].
    rewrite (getitem_nat _ _ _ Hx). cbn.
    replace (Z.of_nat i + 1) with (Z.of_nat (S i)) by lia.
    rewrite (getitem_nat _ _ _ Hy). cbn.
    eexists. split; [reflexivity|]. rewrite Hx, Hy.
    destruct (Z.eqb_spec x y) as [->|Hxy]; simpl; split; try done.
    intros _ [= ?]. congruence.
Qed.

Lemma rank_body_step (i g : nat) st :
  rank_inv use_min ivec svec i g st -> (i < n)%nat ->
  ∃ st' g',
    rank_body use_min (Z.of_nat n) ivec svec st (Z.of_nat i) = Ok st' ∧
    rank_inv use_min ivec svec (S i) g' st'.
Proof.
  intros (Hgi & Hdup & Hsum & Hmin & Hlen & Hrun & Hleft & Hdone) Hi.
  destruct (group_end_test i Hi) as (last & Htest & Hlast).
  unfold rank_body. rewrite Htest. cbn [mbind result_bind].
  assert ((if minrank st =? 0 then Z.of_nat i + 1 else minrank st) = Z.of_nat g + 1) as ->.
  { rewrite Hmin. case_decide.
    - destruct (Z.eqb_spec (Z.of_nat g + 1) 0); [lia|done].
    - simpl. lia. }
  assert (dupcount st + 1 = Z.of_nat (S i - g)) as -> by lia.
  assert (sumranks st + Z.of_nat i = sum_Z (seqZ (Z.of_nat g) (Z.of_nat (S i - g)))) as ->.
  { replace (S i - g)%nat with (S (i - g)) by lia. rewrite sum_Z_seqZ_S, Hsum. lia. }
  assert (∀ t, (g ≤ t ≤ i)%nat → svec !! t = svec !! g) as Hrun'.
  { intros t Ht. destruct (decide (g < i)%nat) as [Hlt|Hge].
    - by apply Hrun.
    - by replace t with g by lia. }
  destruct (lookup_lt_is_Some_2 svec g) as [x Hx]; [lia|].
  destruct last.
  - (* the group [g .. i] ends here *)
    assert (svec !! S i ≠ Some x) as Hright.
    { rewrite <- Hx, <- (Hrun' i) by lia. by apply Hlast. }
    destruct (averank_of_spec g (S i - g)) as (q & -> & Hq); [lia|]. cbn [mbind result_bind].
    replace (Z.of_nat i - Z.of_nat (S i - g) + 1) with (Z.of_nat g) by lia.
    replace (Z.of_nat i + 1) with (Z.of_nat (g + (S i - g))) by lia.
    destruct (assign_group_spec ivec (if use_min then RInt (Z.of_nat g + 1) else RFloat q)
                (S i - g) g (newarray st)) as (arr & -> & Harr_len & Harr).
    { lia. }
    { intros idx Hidx. rewrite Hlen, Hsvec. by apply Hrange. }
    cbn [mbind result_bind]. eexists _, (S i). split; [reflexivity|].
    unfold rank_inv. cbn [sumranks dupcount minrank newarray].
    split; [lia|]. split; [lia|].
    split; [by replace (S i - S i)%nat with 0%nat by lia|].
    split; [by rewrite decide_False by lia|]. split; [by rewrite Harr_len|].
    split; [lia|]. split.
    { right. replace (S i - 1)%nat with i by lia. rewrite (Hrun' i) by lia. rewrite Hx.
      intros Heq. by apply Hright. }
    intros p k Hgroup Hpk j idx Hj Hidx. rewrite Harr.
    pose proof Hgroup as (Hk & y & Hy & Hpleft & Hpright).
    destruct (decide (p + k ≤ g)%nat) as [Hold|Hnew].
    + (* a group that ended before: its entries are not written *)
      rewrite decide_False; [by eapply Hdone|].
      intros (idx' & Heq & Hin)%list_elem_of_fmap.
      apply list_elem_of_lookup in Hin as [t Ht].
      pose proof (lookup_lt_Some _ _ _ Ht) as Htlen. rewrite length_take in Htlen.
      rewrite lookup_take_lt in Ht by lia. rewrite lookup_drop in Ht.
      assert (idx = idx') as <-.
      { apply (f_equal Z.of_nat) in Heq.
        assert (0 ≤ idx < Z.of_nat n) by (apply Hrange; by eapply list_elem_of_lookup_2).
        assert (0 ≤ idx' < Z.of_nat n) by (apply Hrange; by eapply list_elem_of_lookup_2).
        lia. }
      assert (j = (g + t)%nat) by (by eapply NoDup_lookup). lia.
    + (* the group that ends here *)
      assert (y = x) as ->.
      { assert (svec !! (p + k - 1)%nat = Some y) as Hy1 by (apply Hy; lia).
        rewrite Hrun' in Hy1 by lia. congruence. }
      assert (p + k = S i)%nat as Hend.
      { destruct (decide (p + k ≤ i)%nat) as [Hle|]; [|lia].
        exfalso. apply Hpright. rewrite Hrun' by lia. done. }
      assert (p = g) as ->.
      { destruct (decide (p < g)%nat) as [Hlt|Hnlt].
        - exfalso. destruct Hleft as [->|Hleft]; [lia|]. apply Hleft.
          rewrite Hx. apply Hy. lia.
        - destruct (decide (g < p)%nat) as [Hgt|]; [|lia].
          exfalso. destruct Hpleft as [->|Hpleft]; [lia|]. apply Hpleft.
          rewrite Hrun' by lia. done. }
      assert (k = S i - g)%nat as -> by lia.
      rewrite decide_True.
      * eexists. split; [reflexivity|]. destruct use_min; [done|exact Hq].
      * apply list_elem_of_fmap. exists idx. split; [done|].
        apply list_elem_of_lookup. exists (j - g)%nat.
        rewrite lookup_take_lt by lia. rewrite lookup_drop.
        by replace (g + (j - g))%nat with j by lia.
  - (* the group goes on *)
    assert (svec !! S i = Some x) as Hnext.
    { destruct (decide (svec !! S i = svec !! i)) as [Heq|Hne].
      - rewrite Heq, (Hrun' i) by lia. done.
      - apply Hlast in Hne. done. }
    assert (S i < n)%nat as Hi'.
    { apply lookup_lt_Some in Hnext. lia. }
    eexists _, g. split; [reflexivity|].
    unfold rank_inv. cbn [sumranks dupcount minrank newarray].
    split; [lia|]. split; [done|]. split; [done|].
    split; [by rewrite decide_True by lia|]. split; [done|].
    split.
    { intros _. split; [lia|]. intros t Ht. destruct (decide (t = S i)) as [->|Hne].
      - by rewrite Hnext.
      - apply Hrun'. lia. }
    split; [done|]. done.
Qed.

Lemma rank_loop (todo : nat) : ∀ (i g : nat) st,
  (i + todo = n)%nat -> rank_inv use_min ivec svec i g st ->
  ∃ st',
    for_each (rank_body use_min (Z.of_nat n) ivec svec) (seqZ (Z.of_nat i) (Z.of_nat todo)) st
    = Ok st' ∧
    rank_inv use_min ivec svec n n st'.
Proof.
  induction todo as [|todo IH]; intros i g st Hn Hinv.
  - rewrite seqZ_nil by lia. exists st. split; [done|].
    replace i with n in Hinv by lia.
    destruct (decide (g = n)) as [->|Hne]; [done|].
    destruct Hinv as (Hgi & _ & _ & _ & _ & Hrun & _). destruct Hrun; lia.
  - rewrite seqZ_cons by lia. cbn [for_each].
    destruct (rank_body_step i g st Hinv) as (st1 & g1 & -> & Hinv1); [lia|].
    cbn [mbind result_bind].
    replace (Z.succ (Z.of_nat i)) with (Z.of_nat (S i)) by lia.
    replace (Z.pred (Z.of_nat (S todo))) with (Z.of_nat todo) by lia.
    apply (IH (S i) g1); [lia|done].
Qed.

End RankLoop.

(** *** Tie groups *)

Lemma run_left (svec : list Z) x : ∀ j,
  svec !! j = Some x ->
  ∃ p, (p ≤ j)%nat ∧ (∀ t, (p ≤ t ≤ j)%nat → svec !! t = Some x) ∧
       (p = 0%nat ∨ svec !! (p - 1)%nat ≠ Some x).
Proof.
  induction j as [|j IH]; intros Hj.
  - exists 0%nat. split; [lia|]. split; [|by left]. intros t Ht. by replace t with 0%nat by lia.
  - destruct (decide (svec !! j = Some x)) as [Heq|Hne].
    + destruct (IH Heq) as (p & Hp & Hrun & Hleft). exists p. split; [lia|]. split; [|done].
      intros t Ht. destruct (decide (t = S j)) as [->|]; [done|]. apply Hrun. lia.
    + exists (S j). split; [lia|]. split.
      * intros t Ht. by replace t with (S j) by lia.
      * right. by replace (S j - 1)%nat with j by lia.
Qed.

Lemma run_right (svec : list Z) x (d : nat) : ∀ j,
  (j + d = length svec)%nat -> svec !! j = Some x ->
  ∃ e, (j ≤ e)%nat ∧ (∀ t, (j ≤ t ≤ e)%nat → svec !! t = Some x) ∧ svec !! S e ≠ Some x.
Proof.
  induction d as [|d IH]; intros j Hd Hj.
  - apply lookup_lt_Some in Hj. lia.
  - destruct (decide (svec !! S j = Some x)) as [Heq|Hne].
    + destruct (IH (S j)) as (e & He & Hrun & Hright); [lia|done|].
      exists e. split; [lia|]. split; [|done].
      intros t Ht. destruct (decide (t = j)) as [->|]; [done|]. apply Hrun. lia.
    + exists j. split; [lia|]. split; [|done]. intros t Ht. by replace t with j by lia.
Qed.

(** Every position of the sorted values lies in a tie group. *)
Lemma tie_group_exists (svec : list Z) (j : nat) :
  (j < length svec)%nat -> ∃ p k, tie_group svec p k ∧ (p ≤ j < p + k)%nat.
Proof.
  intros Hj. destruct (lookup_lt_is_Some_2 svec j Hj) as [x Hx].
  destruct (run_left svec x j Hx) as (p & Hp & Hl & Hleft).
  destruct (run_right svec x (length svec - j) j) as (e & He & Hr & Hright); [lia|done|].
  exists p, (S e - p)%nat. split; [|lia].
  split; [lia|]. exists x. split; [|split; [done|]].
  - intros t Ht. destruct (decide (t ≤ j)%nat); [apply Hl|apply Hr]; lia.
  - by replace (p + (S e - p))%nat with (S e) by lia.
Qed.

Lemma tie_group_within (svec : list Z) p k : tie_group svec p k -> (p + k ≤ length svec)%nat.
Proof.
  intros (Hk & x & Hrun & _). 
  assert (svec !! (p + k - 1)%nat = Some x) as Hlast by (apply Hrun; lia).
  apply lookup_lt_Some in Hlast. lia.
Qed.

(** *** rankdata *)

Lemma rank_inv_init use_min ivec svec :
  rank_inv use_min ivec svec 0 0
    {| sumranks := 0; dupcount := 0; minrank := 0;
       newarray := replicate (length svec) (RInt 0) |}.
Proof.
  unfold rank_inv. cbn [sumranks dupcount minrank newarray].
  split; [lia|]. split; [done|]. split; [done|]. split; [done|].
  split; [by rewrite length_replicate|]. split; [lia|]. split; [by left|].
  intros p k [Hk _]. lia.
Qed.

(** C6.  For every sequence of numbers, [rankdata] sorts the indices by
    value in the direction asked for, indices of equal values staying in
    increasing order (a stable sort); the result has the length of the
    input; every sorted position lies in a tie group; and every member of
    the tie group of [k] equal values that starts at sorted position [p]
    (from 0) has, at its own index in the input, the rank [p + 1] under
    'min' and the mean of [p + 1 .. p + k] otherwise.  The two examples of
    the specification evaluate as it says, the empty input gives the empty
    result, and a single element has rank 1. *)
Theorem rankdata_spec :
  (∀ (a : list Z) (method : string) (reverse : bool),
     ∃ ivec svec ranks,
       rank_simple reverse a = Ok ivec ∧
       ivec ≡ₚ seqZ 0 (Z.of_nat (length a)) ∧
       (∀ (i j : nat) ix jx,
          (i < j)%nat → ivec !! i = Some ix → ivec !! j = Some jx →
          stable_before reverse (a !!! Z.to_nat ix, ix) (a !!! Z.to_nat jx, jx)) ∧
       map_result (getitem a) ivec = Ok svec ∧
       rankdata a method reverse = Ok ranks ∧
       length ranks = length a ∧
       (∀ j, (j < length a)%nat → ∃ p k, tie_group svec p k ∧ (p ≤ j < p + k)%nat) ∧
       (∀ p k, tie_group svec p k →
          ∀ j idx, (p ≤ j < p + k)%nat → ivec !! j = Some idx →
            ∃ r, ranks !! Z.to_nat idx = Some r ∧
                 rank_eq r (spec_rank (String.eqb method "min") p k))) ∧
  rankdata [10; 20; 20; 5] "average" true
  = Ok [RFloat 3; RFloat (3 # 2); RFloat (3 # 2); RFloat 4] ∧
  rankdata [10; 20; 20; 5] "min" true = Ok [RInt 3; RInt 1; RInt 1; RInt 4] ∧
  (∀ method reverse, rankdata [] method reverse = Ok []) ∧
  (∀ x method reverse,
     rankdata [x] method reverse
     = Ok [if String.eqb method "min" then RInt 1 else RFloat 1]).
Proof.
  split; [|split; [|split; [|split]]].
  - intros a method reverse.
    destruct (rank_simple_spec reverse a) as (ivec & Hsimple & Hperm & Hsorted).
    assert (length ivec = length a) as Hivec.
    { rewrite Hperm, length_seqZ. lia. }
    assert (∀ idx, idx ∈ ivec → 0 ≤ idx < Z.of_nat (length a)) as Hrange.
    { intros idx Hidx. rewrite Hperm in Hidx. apply elem_of_seqZ in Hidx. lia. }
    assert (NoDup ivec) as Hnodup.
    { rewrite Hperm. apply NoDup_seqZ. }
    set (svec := (λ i, a !!! Z.to_nat i) <$> ivec).
    assert (map_result (getitem a) ivec = Ok svec) as Hsvec.
    { apply map_result_fmap, Forall_forall. intros idx Hidx.
      apply getitem_in_range. by apply Hrange. }
    assert (length svec = length a) as Hsvec_len by (unfold svec; by rewrite length_fmap).
    destruct (rank_loop (String.eqb method "min") ivec svec (length a)
                Hivec Hsvec_len Hnodup Hrange (length a) 0%nat 0%nat
                {| sumranks := 0; dupcount := 0; minrank := 0;
                   newarray := replicate (length a) (RInt 0) |})
      as (st & Hloop & Hinv).
    { lia. }
    { rewrite <- Hsvec_len. apply rank_inv_init. }
    assert (for_each (rank_body (String.eqb method "min") (Z.of_nat (length a)) ivec svec)
              (range 0 (Z.of_nat (length a)))
              {| sumranks := 0; dupcount := 0; minrank := 0;
                 newarray := replicate (length a) (RInt 0) |} = Ok st) as Hloop'.
    { unfold range. rewrite Z.sub_0_r. exact Hloop. }
    exists ivec, svec, (newarray st).
    split; [done|]. split; [done|].
    split.
    { intros i j ix jx Hij Hi Hj.
      by apply (StronglySorted_lookup _ ivec i j ix jx Hsorted). }
    split; [done|].
    destruct Hinv as (_ & _ & _ & _ & Hlen & _ & _ & Hdone).
    split.
    { unfold rankdata. rewrite Hsimple. cbn [mbind result_bind]. rewrite Hsvec.
      cbn [mbind result_bind]. rewrite Hloop'. done. }
    split; [by rewrite Hlen|].
    split.
    { intros j Hj. apply tie_group_exists. by rewrite Hsvec_len. }
    intros p k Hgroup. apply Hdone; [done|].
    rewrite <- Hsvec_len. by apply tie_group_within.
  - vm_compute. reflexivity.
  - vm_compute. reflexivity.
  - intros method reverse. reflexivity.
  - intros x method reverse. unfold rankdata.
    destruct (String.eqb method "min"); vm_compute; reflexivity.
Qed.

(** * Further properties *)

(** ** When Config.config raises *)

Section ConfigRaises.
Context {V : Type}.
Implicit Types (h : heap V) (self : Config).

(** [config] raises exactly when the default profile was never loaded, or
    a profile is asked for that was never loaded; what it raises is a
    configuration error, and the contents of the store are then as they
    were. *)
Lemma config_raises h self section profile :
  ((∃ h' e, config h self section profile = (h', Raise e)) ↔
   profile_data self !! DEFAULT_PROFILE = None ∨
   (profile_given profile = true ∧
    profile_data self !! default EmptyString profile = None)) ∧
  (∀ h' e, config h self section profile = (h', Raise e) →
     spec_error_kind e = ConfigError ∧
     contents h' (profile_data self) = contents h (profile_data self)).
Proof.
  unfold config. destruct (profile_data self !! DEFAULT_PROFILE) as [dd|]; simpl.
  2:{ split; [split; eauto|]. by intros h' e [= <- <-]. }
  destruct (profile_given profile); simpl.
  2:{ split; [|done]. split; [by intros (? & ? & ?)|]. by intros [?|[? _]]. }
  destruct (profile_data self !! default EmptyString profile) as [pdta|]; simpl.
  - split; [|done]. split; [by intros (? & ? & ?)|]. by intros [?|[_ ?]].
  - split; [split; eauto|]. intros h' e [= <- <-]. split; [done|].
    apply contents_ext. intros. apply deref_alloc.
Qed.

End ConfigRaises.

(** A profile that no file of the sample store has. *)
Lemma config_raises_witness :
  ∃ h' e, config sample_heap sample_store "scoring" (Some "other") = (h', Raise e).
Proof.
  apply (proj1 (config_raises sample_heap sample_store "scoring" (Some "other"))).
  right. split; vm_compute; reflexivity.
Defined.

(** ** More on Config.config *)

Section ConfigOverlay.
Context {V : Type}.
Implicit Types (h : heap V) (self : Config).

Ltac dom_above' := repeat (etrans; [|apply dom_insert_subseteq]); reflexivity.

(** With the default profile and the requested profile loaded, [config]
    returns the parameters of the section in the requested profile laid
    over those in the default profile: a parameter of both has the
    profile's value. *)
Lemma config_overlay h self section p default_data prof_data :
  nonempty p = true ->
  profile_data self !! DEFAULT_PROFILE = Some default_data ->
  profile_data self !! p = Some prof_data ->
  ∃ h' l,
    config h self section (Some p) = (h', Ok l) ∧
    deref h' l =
      default ∅ (doc_section (contents h (profile_data self)) p section)
      ∪ default ∅ (doc_section (contents h (profile_data self)) DEFAULT_PROFILE section) ∧
    ∀ k, deref h' l !! k =
         match doc_param (contents h (profile_data self)) p section k with
         | Some v => Some v
         | None => doc_param (contents h (profile_data self)) DEFAULT_PROFILE section k
         end.
Proof.
  intros Hp Hdef Hprof.
  assert (∃ h' l,
    config h self section (Some p) = (h', Ok l) ∧
    deref h' l =
      default ∅ (doc_section (contents h (profile_data self)) p section)
      ∪ default ∅ (doc_section (contents h (profile_data self)) DEFAULT_PROFILE section))
    as (h' & l & Hrun & Hres).
  { unfold config. rewrite Hdef. simpl. rewrite Hp, Hprof.
    eexists _, _. split; [reflexivity|].
    rewrite !contents_section, Hdef, Hprof. simpl.
    destruct (default_data !! section) as [ld|], (prof_data !! section) as [lp|]; simpl;
      repeat first [rewrite deref_alloc | rewrite deref_insert];
      rewrite ?(deref_fresh_above h) by dom_above'; rewrite ?deref_fresh;
      repeat case_decide; try done. }
  exists h', l. split; [done|]. split; [done|].
  intros k. rewrite Hres, lookup_union. unfold doc_param.
  destruct (doc_section _ p section) as [a|], (doc_section _ DEFAULT_PROFILE section) as [b|];
    simpl; rewrite ?lookup_empty; simpl.
  - by destruct (a !! k), (b !! k).
  - by destruct (a !! k).
  - by destruct (b !! k).
  - done.
Qed.

(** On a well-formed store [config] changes no section but the default
    profile's section of the requested name, whether it returns or
    raises, and it leaves the store well formed. *)
Lemma config_frame h self section profile :
  store_wf h (profile_data self) ->
  store_wf (config h self section profile).1 (profile_data self) ∧
  ∀ p s, (p, s) ≠ (DEFAULT_PROFILE, section) →
    doc_section (contents (config h self section profile).1 (profile_data self)) p s
    = doc_section (contents h (profile_data self)) p s.
Proof.
  intros [Hdom Hinj].
  assert (∀ (h' : heap V) (ret : loc) (m : gmap string V),
    (∀ l, deref h' l = deref h l) → dom h ⊆ dom h' →
    (ret ∉ dom h ∨ (∃ dd, profile_data self !! DEFAULT_PROFILE = Some dd ∧
                          dd !! section = Some ret)) →
    store_wf (<[ret := m]> h') (profile_data self) ∧
    ∀ p s, (p, s) ≠ (DEFAULT_PROFILE, section) →
      doc_section (contents (<[ret := m]> h') (profile_data self)) p s
      = doc_section (contents h (profile_data self)) p s) as Hwrite.
  { intros h' ret m Hsame Hsub Hret. split.
    - split; [|done]. intros p secs s l Hp Hs. rewrite dom_insert.
      apply elem_of_union. right. apply Hsub. eauto.
    - intros p s Hne. rewrite !contents_section.
      destruct (profile_data self !! p) as [secs|] eqn:Hp; simpl; [|done].
      destruct (secs !! s) as [l|] eqn:Hs; simpl; [|done].
      f_equal. rewrite deref_insert. case_decide as Hl; [|apply Hsame].
      subst. exfalso. destruct Hret as [Hfresh|(dd & Hdd & Hsec)].
      + apply Hfresh. eauto.
      + apply Hne. destruct (Hinj _ _ _ _ _ _ _ Hp Hs Hdd Hsec) as [-> ->]. done. }
  assert (∀ h' : heap V, (∀ l, deref h' l = deref h l) → dom h ⊆ dom h' →
    store_wf h' (profile_data self) ∧
    ∀ p s, doc_section (contents h' (profile_data self)) p s
           = doc_section (contents h (profile_data self)) p s) as Hkeep.
  { intros h' Hsame Hsub. split.
    - split; [|done]. intros p secs s l Hp Hs. apply Hsub. eauto.
    - intros p s. rewrite !contents_section.
      destruct (profile_data self !! p ≫= (.!! s)); simpl; [|done]. f_equal. apply Hsame. }
  unfold config. destruct (profile_data self !! DEFAULT_PROFILE) as [dd|] eqn:Hdd; simpl.
  2:{ split; [done|]. done. }
  set (h0 := <[fresh (dom h) := ∅]> h).
  assert (∀ l, deref h0 l = deref h l) as Hh0 by (intros l; apply deref_alloc).
  assert (dom h ⊆ dom h0) as Hd0 by apply dom_insert_subseteq.
  destruct (profile_given profile).
  2:{ destruct (Hkeep h0 Hh0 Hd0) as [Hwf Hs]. split; [done|]. intros p s _. apply Hs. }
  destruct (profile_data self !! default EmptyString profile) as [pdta|]; simpl.
  2:{ destruct (Hkeep h0 Hh0 Hd0) as [Hwf Hs]. split; [done|]. intros p s _. apply Hs. }
  apply Hwrite.
  - intros l. rewrite deref_alloc. apply Hh0.
  - etrans; [exact Hd0|]. apply dom_insert_subseteq.
  - destruct (dd !! section) as [ld|] eqn:Hsec; simpl.
    + right. by exists dd.
    + left. apply is_fresh.
Qed.

End ConfigOverlay.

(** ** More on Config.load *)

Section LoadProperties.
Context {V : Type} `{OsPath}.
Implicit Types (h : heap V) (self : Config) (fs : string -> file_content V).

(** What a call of [load] that returns [True] did. *)
Lemma load_true_inv fs h self file h' self' :
  load fs h self file = (h', self', Ok true) ->
  (resolve self file ∉ filepaths self) ∧
  ∃ cfg, fs (resolve self file) = Parsed (Some cfg) ∧ cfg ≠ ∅ ∧
         h' = (merge_document cfg (h, profile_data self)).1 ∧
         profile_data self' = (merge_document cfg (h, profile_data self)).2 ∧
         filepaths self' = filepaths self ++ [resolve self file] ∧
         config_dir self' = config_dir self.
Proof.
  unfold load. case_bool_decide as Hin; [congruence|].
  destruct (fs _) as [| |[cfg|]|before f] eqn:Hfs; simpl; try congruence.
  case_bool_decide as Hempty; simpl; [congruence|].
  intros [= <- <-]. split; [done|]. exists cfg. simpl. repeat split; done.
Qed.

(** A call of [load] that returns [False] changed nothing. *)
Lemma load_false_inv fs h self file h' self' :
  load fs h self file = (h', self', Ok false) -> h' = h ∧ self' = self.
Proof.
  unfold load. case_bool_decide; [by intros [= <- <-]|].
  destruct (fs _) as [| |cfg|before f]; try congruence.
  destruct (truthy cfg); simpl; congruence.
Qed.

(** A call of [load] that returns [True] merges the file into a well-formed
    store: afterwards every parameter the file sets has the file's value,
    every other parameter has the value it had, none is lost, and the path
    is recorded last. *)
Lemma load_merges fs h self file h' self' :
  store_wf h (profile_data self) ->
  load fs h self file = (h', self', Ok true) ->
  ∃ cfg,
    fs (resolve self file) = Parsed (Some cfg) ∧
    store_wf h' (profile_data self') ∧
    filepaths self' = filepaths self ++ [resolve self file] ∧
    ∀ p s k,
      doc_param (contents h' (profile_data self')) p s k =
      match doc_param cfg p s k with
      | Some v => Some v
      | None => doc_param (contents h (profile_data self)) p s k
      end.
Proof.
  intros Hwf Hload.
  destruct (load_true_inv _ _ _ _ _ _ Hload) as (_ & cfg & Hfs & _ & -> & Hpd & Hpaths & _).
  exists cfg. rewrite Hpd.
  destruct (merge_document_spec cfg h (profile_data self) Hwf) as [Hwf' Hc].
  split; [done|]. split; [done|]. split; [done|].
  intros p s k. by rewrite Hc, doc_merge_param.
Qed.

(** In a store reached by calls of [load], no path is recorded twice, and
    there is one recorded path for each document merged. *)
Lemma loaded_filepaths docs h self :
  loaded docs h self ->
  NoDup (filepaths self) ∧ length (filepaths self) = length docs.
Proof.
  induction 1 as [h dir|docs h self fs file h' self' cfg _ [IHnd IHlen] Hload Hfs
                 |docs h self fs file h' self' _ IH Hload].
  - split; [constructor|done].
  - destruct (load_true_inv _ _ _ _ _ _ Hload) as (Hnew & _ & _ & _ & _ & _ & -> & _).
    split.
    + apply NoDup_app. split; [done|]. split; [|apply NoDup_singleton].
      intros x Hx ->%list_elem_of_singleton. done.
    + rewrite !length_app. simpl. lia.
  - by destruct (load_false_inv _ _ _ _ _ _ Hload) as [-> ->].
Qed.

(** *** Loading in another order, loading again *)

Lemma doc_merge_comm (a b stored : document V) :
  (∀ p s k, doc_param a p s k = None ∨ doc_param b p s k = None) ->
  doc_merge a (doc_merge b stored) = doc_merge b (doc_merge a stored).
Proof.
  intros Hdisj. apply document_eq.
  - intros p. rewrite !doc_merge_profile. tauto.
  - intros p s. rewrite !doc_merge_section.
    specialize (Hdisj p s). unfold doc_param in Hdisj.
    destruct (doc_section a p s) as [x|], (doc_section b p s) as [y|],
      (doc_section stored p s) as [z|]; simpl in *; try done.
    + f_equal. apply map_eq. intros k. rewrite !lookup_union.
      destruct (Hdisj k) as [-> | ->]; by destruct (x !! k), (y !! k), (z !! k).
    + f_equal. apply map_eq. intros k. rewrite !lookup_union.
      destruct (Hdisj k) as [-> | ->]; by destruct (x !! k), (y !! k).
Qed.

Lemma doc_merge_idemp (a stored : document V) :
  doc_merge a (doc_merge a stored) = doc_merge a stored.
Proof.
  apply document_eq.
  - intros p. rewrite !doc_merge_profile. tauto.
  - intros p s. rewrite !doc_merge_section.
    destruct (doc_section a p s) as [x|], (doc_section stored p s) as [z|]; simpl; try done.
    + f_equal. by rewrite (assoc_L (∪)), (idemp_L (∪)).
    + f_equal. by rewrite (idemp_L (∪)).
Qed.

Lemma load_contents fs h self file h' self' :
  store_wf h (profile_data self) ->
  load fs h self file = (h', self', Ok true) ->
  ∃ cfg, fs (resolve self file) = Parsed (Some cfg) ∧
         store_wf h' (profile_data self') ∧
         contents h' (profile_data self') = doc_merge cfg (contents h (profile_data self)) ∧
         config_dir self' = config_dir self.
Proof.
  intros Hwf Hload.
  destruct (load_true_inv _ _ _ _ _ _ Hload) as (_ & cfg & Hfs & _ & -> & Hpd & _ & Hdir).
  exists cfg. rewrite Hpd.
  destruct (merge_document_spec cfg h (profile_data self) Hwf) as [Hwf' Hc]. done.
Qed.

(** Two files that set no parameter in common can be loaded in either
    order: the contents of the store are the same. *)
Lemma load_order_irrelevant fs h self f1 f2 a b h1 s1 h2 s2 h1' s1' h2' s2' :
  store_wf h (profile_data self) ->
  fs (resolve self f1) = Parsed (Some a) ->
  fs (resolve self f2) = Parsed (Some b) ->
  (∀ p s k, doc_param a p s k = None ∨ doc_param b p s k = None) ->
  load fs h self f1 = (h1, s1, Ok true) ->
  load fs h1 s1 f2 = (h2, s2, Ok true) ->
  load fs h self f2 = (h1', s1', Ok true) ->
  load fs h1' s1' f1 = (h2', s2', Ok true) ->
  contents h2 (profile_data s2) = contents h2' (profile_data s2').
Proof.
  intros Hwf Ha Hb Hdisj L1 L2 L1' L2'.
  assert (∀ self' file, config_dir self' = config_dir self →
                        resolve self' file = resolve self file) as Hres.
  { intros self' file Hdir. unfold resolve. by rewrite Hdir. }
  destruct (load_contents _ _ _ _ _ _ Hwf L1) as (a1 & Ha1 & Hwf1 & Hc1 & Hd1).
  destruct (load_contents _ _ _ _ _ _ Hwf1 L2) as (b2 & Hb2 & _ & Hc2 & _).
  destruct (load_contents _ _ _ _ _ _ Hwf L1') as (b1 & Hb1 & Hwf1' & Hc1' & Hd1').
  destruct (load_contents _ _ _ _ _ _ Hwf1' L2') as (a2 & Ha2 & _ & Hc2' & _).
  rewrite (Hres s1 f2 Hd1) in Hb2. rewrite (Hres s1' f1 Hd1') in Ha2.
  assert (a1 = a) as -> by congruence. assert (a2 = a) as -> by congruence.
  assert (b1 = b) as -> by congruence. assert (b2 = b) as -> by congruence.
  rewrite Hc2, Hc1, Hc2', Hc1'. symmetry. by apply doc_merge_comm.
Qed.

(** Loading a second file with the document of a file just loaded changes
    nothing in the contents of the store. *)
Lemma load_same_document fs h self f1 f2 cfg h1 s1 h2 s2 :
  store_wf h (profile_data self) ->
  fs (resolve self f1) = Parsed (Some cfg) ->
  fs (resolve self f2) = Parsed (Some cfg) ->
  load fs h self f1 = (h1, s1, Ok true) ->
  load fs h1 s1 f2 = (h2, s2, Ok true) ->
  contents h2 (profile_data s2) = contents h1 (profile_data s1).
Proof.
  intros Hwf Hf1 Hf2 L1 L2.
  destruct (load_contents _ _ _ _ _ _ Hwf L1) as (a1 & Ha1 & Hwf1 & Hc1 & Hd1).
  destruct (load_contents _ _ _ _ _ _ Hwf1 L2) as (a2 & Ha2 & _ & Hc2 & _).
  assert (resolve s1 f2 = resolve self f2) as Hres by (unfold resolve; by rewrite Hd1).
  rewrite Hres in Ha2.
  assert (a1 = cfg) as -> by congruence. assert (a2 = cfg) as -> by congruence.
  rewrite Hc2, Hc1. apply doc_merge_idemp.
Qed.

End LoadProperties.

(** ** The profiles in the store *)

Section ProfilesReached.
Context {V : Type} `{OsPath}.
Implicit Types (h : heap V) (pd : gmap string (gmap string loc)).

Lemma ensure_section_profiles profile section (st : heap V * gmap string (gmap string loc)) p :
  is_Some ((ensure_section profile section st).2 !! p) ↔
  is_Some (st.2 !! p) ∨ (p = profile ∧ default ∅ (st.2 !! profile) !! section = None).
Proof.
  unfold ensure_section. destruct (default ∅ (st.2 !! profile) !! section) eqn:Hs; simpl.
  - split; [auto|]. by intros [?|[_ ?]].
  - destruct (decide (p = profile)) as [->|Hne].
    + rewrite lookup_insert_eq. split; [auto|eauto].
    + rewrite lookup_insert_ne by done. split; [auto|]. by intros [?|[? _]].
Qed.

Lemma merge_section_profiles profile section (ps : gmap string V)
    (st : heap V * gmap string (gmap string loc)) p :
  is_Some ((merge_section profile section ps st).2 !! p) →
  is_Some (st.2 !! p) ∨ p = profile.
Proof.
  unfold merge_section, update_section.
  destruct (default ∅ ((ensure_section profile section st).2 !! profile) !! section); simpl;
    rewrite ensure_section_profiles; intros [?|[? _]]; auto.
Qed.

Lemma merge_section_keeps profile section (ps : gmap string V)
    (st : heap V * gmap string (gmap string loc)) p :
  is_Some (st.2 !! p) → is_Some ((merge_section profile section ps st).2 !! p).
Proof.
  intros Hp. unfold merge_section, update_section.
  destruct (default ∅ ((ensure_section profile section st).2 !! profile) !! section); simpl;
    rewrite ensure_section_profiles; auto.
Qed.

Lemma merge_sections_profiles profile (secs : gmap string (gmap string V))
    (st : heap V * gmap string (gmap string loc)) p :
  is_Some (st.2 !! profile) →
  (is_Some ((map_fold (merge_section profile) st secs).2 !! p) ↔ is_Some (st.2 !! p)).
Proof.
  intros Hprofile.
  apply (map_fold_weak_ind
           (λ r (m : gmap string (gmap string V)), is_Some (r.2 !! p) ↔ is_Some (st.2 !! p))).
  - done.
  - intros s ps m r _ IH. split.
    + intros [Hold| ->]%merge_section_profiles; [by apply IH|done].
    + intros Hp. apply merge_section_keeps. by apply IH.
Qed.

Lemma ensure_profile_profiles profile (st : heap V * gmap string (gmap string loc)) p :
  is_Some ((ensure_profile profile st).2 !! p) ↔ is_Some (st.2 !! p) ∨ p = profile.
Proof.
  unfold ensure_profile. destruct (st.2 !! profile) as [secs|] eqn:Hp; simpl.
  - split; [auto|]. intros [?| ->]; [done|]. by rewrite Hp.
  - destruct (decide (p = profile)) as [->|Hne].
    + rewrite lookup_insert_eq. split; [auto|eauto].
    + rewrite lookup_insert_ne by done. split; [auto|]. by intros [?|?].
Qed.

Lemma merge_profile_profiles profile (secs : gmap string (gmap string V))
    (st : heap V * gmap string (gmap string loc)) p :
  is_Some ((merge_profile profile secs st).2 !! p) ↔ is_Some (st.2 !! p) ∨ p = profile.
Proof.
  unfold merge_profile. rewrite merge_sections_profiles.
  - apply ensure_profile_profiles.
  - apply ensure_profile_profiles. by right.
Qed.

Lemma merge_document_profiles (cfg : document V)
    (st : heap V * gmap string (gmap string loc)) p :
  is_Some ((merge_document cfg st).2 !! p) ↔ is_Some (st.2 !! p) ∨ is_Some (cfg !! p).
Proof.
  unfold merge_document.
  apply (map_fold_weak_ind
           (λ r (m : document V), is_Some (r.2 !! p) ↔ is_Some (st.2 !! p) ∨ is_Some (m !! p))).
  - rewrite lookup_empty. split; [auto|]. by intros [?|[? ?]].
  - intros q secs m r Hq IH. rewrite merge_profile_profiles, IH.
    destruct (decide (p = q)) as [->|Hne].
    + rewrite lookup_insert_eq. split; [eauto|]. intros _. by right.
    + rewrite lookup_insert_ne by done. split; [|auto]. intros [?|?]; [done|by subst].
Qed.

Lemma merge_misshapen_profiles (before : document V) (f : fault)
    (st : heap V * gmap string (gmap string loc)) p :
  is_Some ((merge_misshapen before f st).2 !! p) ↔
  is_Some (st.2 !! p) ∨ enters (Misshapen before f) p.
Proof.
  assert (is_Some ((ensure_profile (fault_profile f) (merge_document before st)).2 !! p) ↔
          is_Some (st.2 !! p) ∨ enters (Misshapen before f) p) as Hentered.
  { rewrite ensure_profile_profiles, merge_document_profiles. simpl. tauto. }
  unfold merge_misshapen. destruct f as [profile|profile secs section]; [done|].
  rewrite ensure_section_profiles, merge_sections_profiles.
  - rewrite Hentered. simpl. split; [|auto]. intros [?|[-> _]]; auto.
  - apply ensure_profile_profiles. by right.
Qed.

Lemma load_profiles (fs : string -> file_content V) h self file h' self' r p :
  load fs h self file = (h', self', r) -> r ≠ Ok false ->
  is_Some (profile_data self' !! p) ↔
  is_Some (profile_data self !! p) ∨ enters (fs (resolve self file)) p.
Proof.
  unfold load. case_bool_decide; [by intros [= <- <- <-]|].
  destruct (fs _) as [| |[cfg|]|before f] eqn:Hfs; simpl.
  - intros [= <- <- <-] _. split; [auto|]. by intros [?|?].
  - intros [= <- <- <-] _. split; [auto|]. by intros [?|?].
  - case_bool_decide as Hempty; simpl.
    + intros [= <- <- <-] _. subst cfg. rewrite lookup_empty.
      split; [auto|]. by intros [?|[? ?]].
    + intros [= <- <- <-] _. simpl. apply merge_document_profiles.
  - intros [= <- <- <-] _. split; [auto|]. by intros [?|?].
  - intros [= <- <- <-] _. simpl. apply merge_misshapen_profiles.
Qed.

Lemma reached_profiles cs h self p :
  reached cs h self ->
  is_Some (profile_data self !! p) ↔ ∃ c, c ∈ cs ∧ enters c p.
Proof.
  induction 1 as [h dir|cs h self fs file h' self' _ IH Hload
                 |cs h self fs file h' self' r _ IH Hload Hr].
  - simpl. rewrite lookup_empty. split; [by intros [? ?]|].
    intros (c & Hc & _). by apply elem_of_nil in Hc.
  - assert (self' = self) as ->; [|done].
    revert Hload. unfold load. case_bool_decide; [congruence|].
    destruct (fs _) as [| |cfg|before f]; try congruence.
    destruct (truthy cfg); simpl; congruence.
  - rewrite (load_profiles _ _ _ _ _ _ _ p Hload Hr), IH. split.
    + intros [(c & Hc & Hp)|Hp].
      * exists c. split; [|done]. apply elem_of_app. by left.
      * eexists. split; [|exact Hp]. apply elem_of_app. right. apply list_elem_of_here.
    + intros (c & Hc & Hp). apply elem_of_app in Hc as [Hc|Hc].
      * left. by exists c.
      * apply list_elem_of_singleton in Hc as ->. by right.
Qed.

(** In a store reached by calls of [load], whether they returned or
    raised, [config] raises "default profile never loaded" exactly when no
    call entered a profile 'default': none merged a document that has
    one, and none failed in a misshapen document at or after one. *)
Lemma reached_default cs h self section profile :
  reached cs h self ->
  (∃ h', config h self section profile = (h', Raise (RuntimeError DefaultNeverLoaded))) ↔
  (∀ c, c ∈ cs → ¬ enters c DEFAULT_PROFILE).
Proof.
  intros Hreached. pose proof (reached_profiles _ _ _ DEFAULT_PROFILE Hreached) as Hdef.
  unfold config. destruct (profile_data self !! DEFAULT_PROFILE) as [dd|] eqn:Hdd.
  - split.
    + intros [h' Hrun]. exfalso. revert Hrun.
      destruct (profile_given profile); [|done].
      by destruct (profile_data self !! default EmptyString profile).
    + intros Hnone. destruct (proj1 Hdef) as (c & Hc & Hp); [eauto|].
      by destruct (Hnone c Hc).
  - split; [|eauto]. intros _ c Hc Hp.
    destruct (proj2 Hdef) as [x Hx]; [by exists c|done].
Qed.

End ProfilesReached.

(** ** The store the constructor builds *)

Section InitLoaded.
Context {V : Type} `{OsPath}.
Implicit Types (h : heap V) (self : Config) (fs : string -> file_content V).





End InitLoaded.


(** ** The file names of the constructor *)

Lemma split_pieces_plain sep name :
  contains sep name = false -> split_pieces sep name = (name, []).
Proof.
  induction name as [|c name IH]; [done|]. cbn [contains split_pieces].
  destruct (Ascii.eqb c sep); [done|]. intros Hname. by rewrite IH.
Qed.

Lemma split_pieces_sep sep name rest :
  contains sep name = false ->
  split_pieces sep (name ++ String sep rest)
  = (name, (split_pieces sep rest).1 :: (split_pieces sep rest).2).
Proof.
  induction name as [|c name IH]; intros Hname.
  - change (split_pieces sep (String sep rest)
            = (EmptyString, (split_pieces sep rest).1 :: (split_pieces sep rest).2)).
    cbn [split_pieces]. rewrite Ascii.eqb_refl. by destruct (split_pieces sep rest).
  - change (split_pieces sep (String c (name ++ String sep rest))
            = (String c name, (split_pieces sep rest).1 :: (split_pieces sep rest).2)).
    cbn [contains] in Hname. cbn [split_pieces].
    destruct (Ascii.eqb c sep); [done|]. by rewrite IH.
Qed.

(** Splitting the joined names gives the names back. *)
Lemma split_join sep names :
  names ≠ [] ->
  Forall (λ name, contains sep name = false) names ->
  split sep (join sep names) = names.
Proof.
  intros Hne Hnames. unfold split.
  induction Hnames as [|name rest Hname Hrest IH]; [done|].
  destruct rest as [|name' rest].
  - cbn [join]. by rewrite split_pieces_plain.
  - change (join sep (name :: name' :: rest))
      with (name ++ String sep (join sep (name' :: rest)))%string.
    rewrite split_pieces_sep by done.
    specialize (IH ltac:(done)).
    destruct (split_pieces sep (join sep (name' :: rest))) as [p ps].
    cbn [fst snd]. by rewrite IH.
Qed.

Section InitNames.
Context {V : Type} `{OsPath}.

(** The constructor treats a comma-separated string as the list of its
    names: for one or more names without commas, [Config(','.join(names))]
    and [Config(names)] do the same. *)
Lemma init_joined_names (fs : string -> file_content V) (h : heap V) names dir :
  names ≠ [] ->
  Forall (λ name, contains "," name = false) names ->
  init fs h (FilesStr (join "," names)) dir = init fs h (FilesIter names) dir.
Proof.
  intros Hne Hnames. unfold init, load_files_of. by rewrite split_join.
Qed.

End InitNames.

(** ** On the sample store *)

Lemma sample_first_loaded :
  loaded (H := sample_paths) [file_a] sample_first.1.1 sample_first.1.2.
Proof.
  apply (loaded_true (H := sample_paths) [] ∅ (new_config (Some "conf"))
           sample_fs "a.yaml" sample_first.1.1 sample_first.1.2 file_a).
  - apply loaded_new.
  - vm_compute. reflexivity.
  - vm_compute. reflexivity.
Qed.

Lemma sample_loaded : loaded (H := sample_paths) [file_a; file_b] sample_heap sample_store.
Proof.
  apply (loaded_true (H := sample_paths) [file_a] sample_first.1.1 sample_first.1.2
           sample_fs "b.yaml" sample_heap sample_store file_b).
  - apply sample_first_loaded.
  - vm_compute. reflexivity.
  - vm_compute. reflexivity.
Qed.

Lemma sample_wf : store_wf sample_heap (profile_data sample_store).
Proof. apply (loaded_invariant (H := sample_paths) _ _ _ sample_loaded). Qed.

Lemma new_wf dir : store_wf (∅ : heap Z) (profile_data (new_config dir)).
Proof. apply (loaded_invariant (H := sample_paths) [] _ _ (loaded_new ∅ dir)). Qed.

(** Files A and C set no parameter in common. *)
Lemma sample_disjoint p s k : doc_param file_a p s k = None ∨ doc_param file_c p s k = None.
Proof.
  unfold doc_param, doc_section, file_a, file_c.
  destruct (decide (p = "default")) as [->|Hp].
  - rewrite !lookup_singleton_eq. simpl.
    destruct (decide (s = "scoring")) as [->|Hs].
    + right. by rewrite lookup_singleton_ne.
    + left. by rewrite lookup_singleton_ne.
  - left. by rewrite lookup_singleton_ne.
Qed.

(** [config('scoring', 'alt')] on the sample store: the weight of profile
    "alt" and the other key of the default profile. *)
Lemma config_overlay_witness :
  ∃ h' l,
    config sample_heap sample_store "scoring" (Some "alt") = (h', Ok l) ∧
    deref h' l !! "weight" = Some 3 ∧ deref h' l !! "other_key" = Some 7.
Proof.
  destruct (config_overlay sample_heap sample_store "scoring" "alt"
              (default ∅ (profile_data sample_store !! DEFAULT_PROFILE))
              (default ∅ (profile_data sample_store !! "alt")))
    as (h' & l & Hrun & _ & Hk).
  - reflexivity.
  - vm_compute. reflexivity.
  - vm_compute. reflexivity.
  - exists h', l. split; [exact Hrun|]. rewrite !Hk. split; vm_compute; reflexivity.
Defined.

(** [config('scoring', 'alt')] on the sample store changes no other
    section. *)
Lemma config_frame_witness :
  store_wf (config sample_heap sample_store "scoring" (Some "alt")).1
    (profile_data sample_store) ∧
  ∀ p s, (p, s) ≠ (DEFAULT_PROFILE, "scoring") →
    doc_section (contents (config sample_heap sample_store "scoring" (Some "alt")).1
                   (profile_data sample_store)) p s
    = doc_section (contents sample_heap (profile_data sample_store)) p s.
Proof.
  apply (config_frame sample_heap sample_store "scoring" (Some "alt")). apply sample_wf.
Defined.

(** Loading file C into the sample store. *)
Lemma load_merges_witness :
  ∃ cfg,
    sample_fs (resolve (H := sample_paths) sample_store "c.yaml") = Parsed (Some cfg) ∧
    store_wf sample_third.1.1 (profile_data sample_third.1.2) ∧
    filepaths sample_third.1.2
    = filepaths sample_store ++ [resolve (H := sample_paths) sample_store "c.yaml"] ∧
    ∀ p s k,
      doc_param (contents sample_third.1.1 (profile_data sample_third.1.2)) p s k =
      match doc_param cfg p s k with
      | Some v => Some v
      | None => doc_param (contents sample_heap (profile_data sample_store)) p s k
      end.
Proof.
  apply (load_merges (H := sample_paths) sample_fs sample_heap sample_store "c.yaml"
           sample_third.1.1 sample_third.1.2).
  - apply sample_wf.
  - vm_compute. reflexivity.
Defined.

(** The two paths of the sample store. *)
Lemma loaded_filepaths_witness :
  NoDup (filepaths sample_store) ∧
  length (filepaths sample_store) = length [file_a; file_b].
Proof.
  apply (loaded_filepaths (H := sample_paths) [file_a; file_b] sample_heap sample_store).
  apply sample_loaded.
Defined.

(** The call of [load] on the file with profile "alt" only. *)
Lemma sample_alt_reached :
  reached (H := sample_paths) [Parsed (Some file_alt)] sample_alt.1.1 sample_alt.1.2.
Proof.
  apply (reached_read (H := sample_paths) [] ∅ (new_config None) (λ _, Parsed (Some file_alt))
           "alt.yaml" sample_alt.1.1 sample_alt.1.2 (Ok true)).
  - apply reached_new.
  - vm_compute. reflexivity.
  - discriminate.
Qed.

(** After a file with profile "alt" only, [config] raises. *)
Lemma reached_default_witness :
  ∃ h', config sample_alt.1.1 sample_alt.1.2 "scoring" None
        = (h', Raise (RuntimeError DefaultNeverLoaded)).
Proof.
  apply (reached_default (H := sample_paths) [Parsed (Some file_alt)]
           sample_alt.1.1 sample_alt.1.2 "scoring" None sample_alt_reached).
  intros c ->%list_elem_of_singleton [x Hx]. vm_compute in Hx. discriminate Hx.
Defined.

(** Files A and C, loaded into a new store in either order. *)
Lemma load_order_irrelevant_witness :
  let new := new_config (Some "conf") in
  let a_first := load (H := sample_paths) sample_fs ∅ new "a.yaml" in
  let a_then_c := load (H := sample_paths) sample_fs a_first.1.1 a_first.1.2 "c.yaml" in
  let c_first := load (H := sample_paths) sample_fs ∅ new "c.yaml" in
  let c_then_a := load (H := sample_paths) sample_fs c_first.1.1 c_first.1.2 "a.yaml" in
  contents a_then_c.1.1 (profile_data a_then_c.1.2)
  = contents c_then_a.1.1 (profile_data c_then_a.1.2).
Proof.
  intros new a_first a_then_c c_first c_then_a.
  apply (load_order_irrelevant (H := sample_paths) sample_fs ∅ new "a.yaml" "c.yaml"
           file_a file_c a_first.1.1 a_first.1.2 a_then_c.1.1 a_then_c.1.2
           c_first.1.1 c_first.1.2 c_then_a.1.1 c_then_a.1.2).
  - apply new_wf.
  - vm_compute. reflexivity.
  - vm_compute. reflexivity.
  - apply sample_disjoint.
  - vm_compute. reflexivity.
  - vm_compute. reflexivity.
  - vm_compute. reflexivity.
  - vm_compute. reflexivity.
Defined.

(** Two names for one document: every path holds file A. *)
Lemma load_same_document_witness :
  let fs := λ _ : string, Parsed (Some file_a) in
  let new := new_config (Some "conf") in
  let once := load (H := sample_paths) fs ∅ new "a.yaml" in
  let twice := load (H := sample_paths) fs once.1.1 once.1.2 "copy.yaml" in
  contents twice.1.1 (profile_data twice.1.2) = contents once.1.1 (profile_data once.1.2).
Proof.
  intros fs new once twice.
  apply (load_same_document (H := sample_paths) fs ∅ new "a.yaml" "copy.yaml" file_a
           once.1.1 once.1.2 twice.1.1 twice.1.2).
  - apply new_wf.
  - reflexivity.
  - reflexivity.
  - vm_compute. reflexivity.
  - vm_compute. reflexivity.
Defined.

(** The sample store, built from one string. *)
Lemma init_joined_names_witness :
  init (H := sample_paths) sample_fs (∅ : heap Z) (FilesStr "a.yaml,b.yaml") (Some "conf")
  = init (H := sample_paths) sample_fs ∅ (FilesIter ["a.yaml"; "b.yaml"]) (Some "conf").
Proof.
  apply (init_joined_names (H := sample_paths) sample_fs ∅ ["a.yaml"; "b.yaml"] (Some "conf")).
  - discriminate.
  - repeat constructor.
Defined.


(** ** More on typecast *)

Lemma char_numeric_lower c : char_isnumeric c = true -> char_lower c = c.
Proof. destruct c as [[] [] [] [] [] [] [] []]; vm_compute; congruence. Qed.

Lemma char_numeric_ascii c :
  (code c <? 128)%N = true -> char_isnumeric c = true -> char_isdecimal c = true.
Proof. destruct c as [[] [] [] [] [] [] [] []]; vm_compute; congruence. Qed.

Lemma char_decimal_numeric c : char_isdecimal c = true -> char_isnumeric c = true.
Proof. unfold char_isnumeric. by intros ->. Qed.

Lemma isdecimal_isnumeric s : isdecimal s = true -> isnumeric s = true.
Proof.
  unfold isdecimal, isnumeric. intros [Hn Hall]%andb_true_iff. rewrite Hn. simpl.
  clear Hn. induction s as [|c s IH]; [done|]. simpl in *.
  apply andb_true_iff in Hall as [Hc Hs]. by rewrite (char_decimal_numeric c Hc), IH.
Qed.

Lemma isnumeric_lower s : isnumeric s = true -> lower s = s.
Proof.
  unfold isnumeric. intros [_ Hall]%andb_true_iff.
  induction s as [|c s IH]; [done|]. simpl in *.
  apply andb_true_iff in Hall as [Hc Hs]. by rewrite (char_numeric_lower c Hc), IH.
Qed.

Lemma isnumeric_ascii s : isascii s = true -> isnumeric s = true -> isdecimal s = true.
Proof.
  unfold isascii, isnumeric, isdecimal. intros Hascii [Hn Hall]%andb_true_iff.
  rewrite Hn. simpl. clear Hn. induction s as [|c s IH]; [done|]. simpl in *.
  apply andb_true_iff in Hascii as [Hc Hs]. apply andb_true_iff in Hall as [Hc' Hs'].
  by rewrite (char_numeric_ascii c Hc Hc'), IH.
Qed.

(** A string whose lowercase form is a word (letters only) is neither
    decimal nor numeric. *)
Lemma word_not_numeric s :
  isnumeric (lower s) = false -> isdecimal s = false ∧ isnumeric s = false.
Proof.
  intros Hw. assert (isnumeric s = false) as Hn.
  { destruct (isnumeric s) eqn:Hs; [|done]. rewrite (isnumeric_lower s Hs) in Hw. congruence. }
  split; [|done]. destruct (isdecimal s) eqn:Hd; [|done].
  apply isdecimal_isnumeric in Hd. congruence.
Qed.

(** The words for true, false and none are recognised in any mix of upper
    and lower case. *)
Lemma typecast_words s :
  (lower s ∈ ["true"; "t"; "yes"; "y"] → typecast s = Ok (VBool true)) ∧
  (lower s ∈ ["false"; "f"; "no"; "n"] → typecast s = Ok (VBool false)) ∧
  (lower s ∈ ["null"; "none"; "nil"] → typecast s = Ok VNone).
Proof.
  assert (∀ w, lower s = w → isnumeric w = false →
               typecast s =
               if bool_decide (w ∈ ["false"; "f"; "no"; "n"]) then Ok (VBool false)
               else if bool_decide (w ∈ ["true"; "t"; "yes"; "y"]) then Ok (VBool true)
               else if bool_decide (w ∈ ["null"; "none"; "nil"]) then Ok VNone
               else if (0 <? Z.of_nat (String.length s)) then Ok (VStr s) else Ok VNone) as Hw.
  { intros w Hlow Hnum. rewrite <- Hlow in Hnum.
    destruct (word_not_numeric s Hnum) as [Hd Hn].
    unfold typecast. by rewrite Hd, Hn, Hlow. }
  repeat split; intros Hin;
    repeat (apply elem_of_cons in Hin as [Hin|Hin]; [by rewrite (Hw _ Hin)|]);
    by apply elem_of_nil in Hin.
Qed.

(** The words, in capitals. *)
Lemma typecast_words_witness :
  typecast "TRUE" = Ok (VBool true) ∧ typecast "No" = Ok (VBool false) ∧
  typecast "NULL" = Ok VNone.
Proof.
  split; [|split].
  - apply (proj1 (typecast_words "TRUE")). vm_compute. apply list_elem_of_here.
  - apply (proj1 (proj2 (typecast_words "No"))). vm_compute.
    do 2 apply list_elem_of_further. apply list_elem_of_here.
  - apply (proj2 (proj2 (typecast_words "NULL"))). vm_compute. apply list_elem_of_here.
Defined.

Lemma typecast_ascii_ok s :
  isascii s = true -> within_limit s -> ∃ v, typecast s = Ok v.
Proof.
  intros Hascii Hlen. unfold typecast, float_of_numeric, int_of_str.
  destruct (isdecimal s) eqn:Hd.
  { destruct (Z.ltb_spec INT_MAX_STR_DIGITS (Z.of_nat (String.length s))) as [Hlong|_].
    - unfold within_limit in Hlen. lia.
    - cbn. eauto. }
  destruct (isnumeric s) eqn:Hn.
  { apply (isnumeric_ascii s Hascii) in Hn. congruence. }
  repeat case_bool_decide; eauto. destruct (0 <? _); eauto.
Qed.

(** [typecast] raises exactly on the strings that are numeric without
    being decimal (superscripts, fractions), on which [float] raises, and
    on the decimal strings of more digits than the interpreter converts,
    on which [int] raises; what it raises is a [ValueError].  An ASCII
    string within the limit on digits is always coerced. *)
Lemma typecast_raises s :
  (∀ e, typecast s = Raise e ↔
        e = ValueError ∧
        (isnumeric s = true ∧ isdecimal s = false ∨
         isdecimal s = true ∧ INT_MAX_STR_DIGITS < Z.of_nat (String.length s))) ∧
  (isascii s = true → within_limit s → ∃ v, typecast s = Ok v).
Proof.
  split; [|apply typecast_ascii_ok].
  intros e. unfold typecast, float_of_numeric, int_of_str.
  destruct (isdecimal s) eqn:Hd.
  { destruct (Z.ltb_spec INT_MAX_STR_DIGITS (Z.of_nat (String.length s))) as [Hlong|Hshort]; cbn.
    - split; [intros [= <-]; auto|]. by intros [-> _].
    - split; [done|]. intros (_ & [[_ ?]|[_ ?]]); [done|lia]. }
  destruct (isnumeric s) eqn:Hn.
  { cbn. split; [intros [= <-]; auto|]. by intros [-> _]. }
  assert (¬ (e = ValueError ∧
             (false = true ∧ false = false ∨
              false = true ∧ INT_MAX_STR_DIGITS < Z.of_nat (String.length s)))) as Hno.
  { by intros (_ & [[? _]|[? _]]). }
  repeat case_bool_decide; try (split; [done|]; by intros ?%Hno).
  destruct (0 <? _); split; try done; by intros ?%Hno.
Qed.

(** The one-half sign raises, and so do 4301 digits; a word is coerced. *)
Lemma typecast_raises_witness :
  typecast (String (ascii_of_nat 189) EmptyString) = Raise ValueError ∧
  typecast (string_of_list_ascii (replicate 4301 "1"%char)) = Raise ValueError ∧
  ∃ v, typecast "abc" = Ok v.
Proof.
  split; [|split].
  - apply (proj1 (typecast_raises (String (ascii_of_nat 189) EmptyString))).
    split; [reflexivity|]. left. vm_compute. split; reflexivity.
  - apply (proj1 (typecast_raises (string_of_list_ascii (replicate 4301 "1"%char)))).
    split; [reflexivity|]. right. vm_compute. split; reflexivity.
  - apply (proj2 (typecast_raises "abc")).
    + vm_compute. reflexivity.
    + vm_compute. discriminate.
Defined.

(** *** Decimal numerals *)

Lemma uint_decimal d :
  str_forall char_isdecimal (NilEmpty.string_of_uint d) = true.
Proof. induction d; simpl; try done. Qed.

Lemma int_digits_uint d : ∀ acc,
  int_digits (Z.of_nat acc) (NilEmpty.string_of_uint d) = Z.of_nat (Nat.of_uint_acc d acc).
Proof.
  induction d as [|d IH|d IH|d IH|d IH|d IH|d IH|d IH|d IH|d IH|d IH]; intros acc;
    [done|..]; cbn [NilEmpty.string_of_uint int_digits Nat.of_uint_acc];
    rewrite <- IH; f_equal; rewrite ?Nat2Z.inj_succ, Nat.tail_mul_spec, Nat2Z.inj_mul;
    vm_compute digit_value; lia.
Qed.

Lemma numeral_nonempty n : nonempty (numeral n) = true.
Proof.
  unfold numeral. destruct (Nat.to_uint n) eqn:Hn; try done.
  pose proof (Unsigned.of_to n) as Hof. rewrite Hn in Hof. cbn in Hof. subst n.
  vm_compute in Hn. discriminate Hn.
Qed.

(** Round trip: whenever [str(n)] returns, for a natural number [n], the
    string it returns is coerced back to [n]. *)
Lemma typecast_numeral (n : nat) s :
  str_of_nat n = Ok s -> typecast s = Ok (VInt (Z.of_nat n)).
Proof.
  unfold str_of_nat.
  destruct (INT_MAX_STR_DIGITS <? Z.of_nat (String.length (numeral n))) eqn:Hlen; [done|].
  intros [= <-]. unfold typecast, isdecimal. rewrite numeral_nonempty. unfold numeral at 1.
  rewrite uint_decimal. cbn [andb]. unfold int_of_str. rewrite Hlen. cbn. do 2 f_equal.
  unfold numeral. change 0 with (Z.of_nat 0).
  rewrite int_digits_uint. fold (Nat.of_uint (Nat.to_uint n)). by rewrite Unsigned.of_to.
Qed.

(** The numeral of forty-two. *)
Lemma typecast_numeral_witness : typecast "42" = Ok (VInt (Z.of_nat 42)).
Proof. apply (typecast_numeral 42 "42"). vm_compute. reflexivity. Defined.

(** ** More on parse_argv *)

Lemma cut_ascii sep s a b : cut sep s = (a, Some b) -> isascii s = true -> isascii b = true.
Proof.
  revert a. induction s as [|c s IH]; intros a; cbn [cut]; [done|].
  unfold isascii. cbn [str_forall]. intros Hcut [Hc Hs]%andb_true_iff.
  destruct (Ascii.eqb c sep).
  - by injection Hcut as _ <-.
  - destruct (cut sep s) as [a' b'] eqn:Hs'. injection Hcut as _ ->. by apply (IH a').
Qed.

Lemma cut_length sep s a b :
  cut sep s = (a, Some b) -> (String.length b ≤ String.length s)%nat.
Proof.
  revert a. induction s as [|c s IH]; intros a; cbn [cut String.length]; [done|].
  destruct (Ascii.eqb c sep).
  - intros [= _ <-]. lia.
  - destruct (cut sep s) as [a' b'] eqn:Hs'. intros [= _ ->]. specialize (IH a' eq_refl). lia.
Qed.

Lemma spec_keyword_ascii kw tok :
  isascii tok = true -> within_limit tok ->
  if contains "=" tok then ∃ kw', spec_keyword kw tok = Ok kw'
  else spec_keyword kw tok = Raise ValueError.
Proof.
  intros Hascii Hlen. rewrite contains_cut. unfold spec_keyword.
  destruct (cut "=" tok) as [key [raw|]] eqn:Hcut; [|done]. simpl.
  destruct (typecast_ascii_ok raw) as [v ->]; [by eapply cut_ascii| |eauto].
  pose proof (cut_length _ _ _ _ Hcut). unfold within_limit in *. lia.
Qed.

Lemma for_each_argv_raises argv : ∀ st,
  Forall (λ tok, isascii tok = true ∧ within_limit tok) argv ->
  ((∃ e, for_each argv_body argv st = Raise e) ↔ keyword_gap (args_done st) argv = true) ∧
  (∀ e, for_each argv_body argv st = Raise e → e = ValueError).
Proof.
  induction argv as [|tok rest IH]; intros st Hascii; cbn [for_each keyword_gap].
  - split; [|done]. split; [by intros [? ?]|done].
  - apply Forall_cons in Hascii as [[Htok Hlen] Hrest].
    pose proof (spec_keyword_ascii (kwargs st) tok Htok Hlen) as Hkw.
    destruct (contains "=" tok) eqn:Heq.
    + rewrite argv_body_keyword by auto. destruct Hkw as [kw' ->]. cbn.
      apply (IH {| args := args st; kwargs := kw'; args_done := true |} Hrest).
    + destruct (args_done st) eqn:Hdone.
      * rewrite argv_body_keyword by auto. rewrite Hkw. cbn.
        split; [split; eauto|]. by intros e [= <-].
      * rewrite argv_body_positional by done.
        destruct (typecast_ascii_ok tok Htok Hlen) as [v ->]. cbn.
        apply (IH {| args := args st ++ [v]; kwargs := kwargs st; args_done := false |} Hrest).
Qed.

Lemma keyword_gap_done argv :
  keyword_gap true argv = true ↔
  ∃ l2 t2 l3, argv = l2 ++ t2 :: l3 ∧ contains "=" t2 = false.
Proof.
  induction argv as [|tok rest IH]; cbn [keyword_gap].
  - split; [done|]. intros (l2 & t2 & l3 & Heq & _). by destruct l2.
  - destruct (contains "=" tok) eqn:Heq.
    + rewrite IH. split.
      * intros (l2 & t2 & l3 & -> & Ht2). by exists (tok :: l2), t2, l3.
      * intros (l2 & t2 & l3 & Hl & Ht2). destruct l2 as [|t l2]; simplify_eq/=.
        -- congruence.
        -- by exists l2, t2, l3.
    + split; [|done]. intros _. by exists [], tok, rest.
Qed.

Lemma keyword_gap_start argv :
  keyword_gap false argv = true ↔
  ∃ l1 t1 l2 t2 l3, argv = l1 ++ t1 :: l2 ++ t2 :: l3 ∧
                    contains "=" t1 = true ∧ contains "=" t2 = false.
Proof.
  induction argv as [|tok rest IH]; cbn [keyword_gap].
  - split; [done|]. intros (l1 & t1 & l2 & t2 & l3 & Heq & _). by destruct l1.
  - destruct (contains "=" tok) eqn:Heq.
    + rewrite keyword_gap_done. split.
      * intros (l2 & t2 & l3 & -> & Ht2). by exists [], tok, l2, t2, l3.
      * intros (l1 & t1 & l2 & t2 & l3 & Hl & Ht1 & Ht2).
        destruct l1 as [|t l1]; simplify_eq/=.
        -- by exists l2, t2, l3.
        -- exists (l1 ++ t1 :: l2), t2, l3. by rewrite <- app_assoc.
    + rewrite IH. split.
      * intros (l1 & t1 & l2 & t2 & l3 & -> & Ht1 & Ht2).
        by exists (tok :: l1), t1, l2, t2, l3.
      * intros (l1 & t1 & l2 & t2 & l3 & Hl & Ht1 & Ht2).
        destruct l1 as [|t l1]; simplify_eq/=.
        -- congruence.
        -- by exists l1, t1, l2, t2, l3.
Qed.

(** On ASCII tokens within the interpreter's limit on digits (at most
    4300 characters each) [parse_argv] raises exactly when a token without
    ['='] comes after a token with one, and what it raises is a
    [ValueError]. *)
Lemma parse_argv_ascii_raises argv :
  Forall (λ tok, isascii tok = true ∧ within_limit tok) argv ->
  ((∃ e, parse_argv argv = Raise e) ↔
   ∃ l1 t1 l2 t2 l3, argv = l1 ++ t1 :: l2 ++ t2 :: l3 ∧
                     contains "=" t1 = true ∧ contains "=" t2 = false) ∧
  (∀ e, parse_argv argv = Raise e → e = ValueError).
Proof.
  intros Hascii. unfold parse_argv.
  destruct (for_each_argv_raises argv {| args := []; kwargs := ∅; args_done := false |} Hascii)
    as [Hiff Hval].
  rewrite <- keyword_gap_start. cbn [args_done] in Hiff. rewrite <- Hiff.
  destruct (for_each argv_body argv _) as [st|e]; cbn.
  - split; [|done]. split; by intros [? ?].
  - split; [split; eauto|]. intros e' [= <-]. by apply Hval.
Qed.

(** ** More on replace_tokens *)

(** A template in which no placeholder occurs is returned as it is,
    whatever the values. *)
Lemma replace_tokens_plain fmt kwargs :
  (∀ tok, is_placeholder tok → ¬ occurs_in tok fmt) ->
  replace_tokens fmt kwargs = Ok fmt.
Proof.
  intros Hnone. unfold replace_tokens.
  destruct (findall_tokens fmt) as [|tok toks] eqn:Htoks; [done|].
  exfalso. assert (tok ∈ findall_tokens fmt) as Hin by (rewrite Htoks; apply list_elem_of_here).
  apply findall_tokens_spec in Hin as [Hp Hocc]. by apply (Hnone tok).
Qed.

Lemma replace_body_ext kwargs1 kwargs2 cur tok :
  kwargs1 !! token_var tok = kwargs2 !! token_var tok ->
  (∃ cur', replace_body kwargs1 cur tok = Ok cur' ∧ replace_body kwargs2 cur tok = Ok cur') ∨
  (∃ e1 e2, replace_body kwargs1 cur tok = Raise e1 ∧ replace_body kwargs2 cur tok = Raise e2 ∧
            outcome (Raise e1) = outcome (Raise e2)).
Proof.
  intros Htok. unfold replace_body. rewrite Htok.
  destruct (falsy (default VNone (kwargs2 !! token_var tok))); [right; by eexists _, _|].
  destruct (default VNone (kwargs2 !! token_var tok)); eauto 10.
Qed.

Lemma for_each_replace_ext kwargs1 kwargs2 toks : ∀ cur,
  (∀ tok, tok ∈ toks → kwargs1 !! token_var tok = kwargs2 !! token_var tok) ->
  outcome (for_each (replace_body kwargs1) toks cur)
  = outcome (for_each (replace_body kwargs2) toks cur).
Proof.
  induction toks as [|tok toks IH]; intros cur Hagree; cbn [for_each]; [done|].
  destruct (replace_body_ext kwargs1 kwargs2 cur tok)
    as [(cur' & -> & ->)|(e1 & e2 & -> & -> & He)]; [apply Hagree, list_elem_of_here| |done].
  cbn. apply IH. intros t Ht. apply Hagree. by apply list_elem_of_further.
Qed.

(** What a call gives depends on the values of the placeholders' keys
    only: two sets of keyword arguments that agree on them give the same
    text, or fail for the same token variable, or fail alike with a
    [TypeError].  Only the message of the "not found" error, which prints
    all the keyword arguments, tells them apart. *)
Lemma replace_tokens_agree fmt kwargs1 kwargs2 :
  (∀ tok, is_placeholder tok → occurs_in tok fmt →
          kwargs1 !! token_var tok = kwargs2 !! token_var tok) ->
  outcome (replace_tokens fmt kwargs1) = outcome (replace_tokens fmt kwargs2).
Proof.
  intros Hagree. unfold replace_tokens. apply for_each_replace_ext.
  intros tok [Hp Hocc]%findall_tokens_spec. by apply Hagree.
Qed.

(** ** The keyword mapping of parse_argv *)

Lemma spec_keyword_ok kw tok kw' :
  spec_keyword kw tok = Ok kw' ->
  ∃ key raw v, cut "=" tok = (key, Some raw) ∧ typecast raw = Ok v ∧ kw' = <[key := v]> kw.
Proof.
  unfold spec_keyword. destruct (cut "=" tok) as [key [raw|]]; [|done].
  destruct (typecast raw) as [v|] eqn:Hv; [|done]. cbn. intros [= <-]. by exists key, raw, v.
Qed.

Lemma for_each_keyword_lookup post : ∀ kw0 kw k v,
  for_each spec_keyword post kw0 = Ok kw ->
  kw !! k = Some v ↔
  (∃ pre tok post' raw,
     post = pre ++ tok :: post' ∧ cut "=" tok = (k, Some raw) ∧ typecast raw = Ok v ∧
     Forall (λ t, (cut "=" t).1 ≠ k) post') ∨
  (kw0 !! k = Some v ∧ Forall (λ t, (cut "=" t).1 ≠ k) post).
Proof.
  induction post as [|tok post IH]; intros kw0 kw k v; cbn [for_each].
  - intros [= <-]. split.
    + intros Hk. right. by split.
    + intros [(pre & t & post' & raw & Heq & _)|[Hk _]]; [by destruct pre|done].
  - destruct (spec_keyword kw0 tok) as [kw1|] eqn:Hstep; [|done]. cbn.
    destruct (spec_keyword_ok _ _ _ Hstep) as (key & raw & v1 & Hcut & Hv1 & ->).
    intros Hrest. rewrite (IH _ _ k v Hrest). split.
    + intros [(pre & t & post' & raw' & -> & Ht & Hv & Hlater)|[Hk Hlater]].
      * left. by exists (tok :: pre), t, post', raw'.
      * destruct (decide (key = k)) as [->|Hne].
        -- rewrite lookup_insert_eq in Hk. injection Hk as ->.
           left. by exists [], tok, post, raw.
        -- rewrite lookup_insert_ne in Hk by done. right. split; [done|].
           constructor; [by rewrite Hcut|done].
    + intros [(pre & t & post' & raw' & Heq & Ht & Hv & Hlater)|[Hk Hlater]].
      * destruct pre as [|t0 pre]; simplify_eq/=.
        -- rewrite Hcut in Ht. injection Ht as -> ->.
           right. split; [|done]. rewrite lookup_insert_eq. congruence.
        -- left. by exists pre, t, post', raw'.
      * apply Forall_cons in Hlater as [Hne Hlater]. rewrite Hcut in Hne. simpl in Hne.
        right. split; [|done]. by rewrite lookup_insert_ne.
Qed.

Lemma positional_prefix argv :
  ∃ pre post, argv = pre ++ post ∧ Forall (λ tok, contains "=" tok = false) pre ∧
              (∀ tok, head post = Some tok → contains "=" tok = true).
Proof.
  induction argv as [|tok argv (pre & post & -> & Hpre & Hpost)].
  - exists [], []. by repeat split.
  - destruct (contains "=" tok) eqn:Heq.
    + exists [], (tok :: pre ++ post). repeat split; [constructor|]. by intros t [= <-].
    + exists (tok :: pre), post. repeat split; [by constructor|done].
Qed.

Lemma split_after_prefix (pre post p q : list string) tok :
  pre ++ post = p ++ tok :: q ->
  Forall (λ t, contains "=" t = false) pre -> contains "=" tok = true ->
  ∃ p', p = pre ++ p' ∧ post = p' ++ tok :: q.
Proof.
  revert p. induction pre as [|t pre IH]; intros p Heq Hpre Htok.
  - by exists p.
  - apply Forall_cons in Hpre as [Ht Hpre]. destruct p as [|t' p]; simplify_eq/=.
    + congruence.
    + destruct (IH p) as (p' & -> & ->); [done..|]. by exists p'.
Qed.

(** In the keyword mapping [parse_argv] returns, a key has the coerced
    value of the last token that gives it one: a later [key=value] token
    overwrites an earlier one with the same key. *)
Lemma parse_argv_last_key argv positional kw k v :
  parse_argv argv = Ok (positional, kw) ->
  kw !! k = Some v ↔
  ∃ pre tok post raw,
    argv = pre ++ tok :: post ∧ cut "=" tok = (k, Some raw) ∧ typecast raw = Ok v ∧
    Forall (λ t, (cut "=" t).1 ≠ k) post.
Proof.
  destruct (positional_prefix argv) as (pre0 & post0 & -> & Hpre & Hpost).
  unfold parse_argv. rewrite for_each_positional by done. cbn.
  destruct (map_result typecast pre0) as [vs|]; [|done]. cbn.
  assert (for_each argv_body post0 {| args := vs; kwargs := ∅; args_done := false |}
          = kw' ← for_each spec_keyword post0 ∅;
            Ok {| args := vs; kwargs := kw'; args_done := negb (bool_decide (post0 = [])) |})
    as ->.
  { destruct post0 as [|tok post0]; [done|]. cbn [for_each].
    rewrite argv_body_keyword by (right; by apply Hpost). cbn.
    destruct (spec_keyword ∅ tok) as [k1|]; [|done]. cbn.
    rewrite for_each_keyword by done. cbn. by destruct (for_each spec_keyword post0 k1). }
  destruct (for_each spec_keyword post0 ∅) as [kw'|] eqn:Hkw; [|done]. cbn.
  intros [= <- <-]. rewrite (for_each_keyword_lookup _ _ _ k v Hkw). split.
  - intros [(pre & tok & post & raw & -> & Hcut & Hv & Hlater)|[Hk _]]; [|done].
    exists (pre0 ++ pre), tok, post, raw. by rewrite <- app_assoc.
  - intros (pre & tok & post & raw & Heq & Hcut & Hv & Hlater). left.
    destruct (split_after_prefix _ _ _ _ _ Heq Hpre) as (p' & -> & ->).
    { rewrite contains_cut. by rewrite Hcut. }
    by exists p', tok, post, raw.
Qed.

(** A positional token after a keyword token. *)
Lemma parse_argv_ascii_raises_witness :
  (∃ e, parse_argv ["a=1"; "b"] = Raise e) ∧
  ∀ e, parse_argv ["a=1"; "b"] = Raise e → e = ValueError.
Proof.
  assert (Forall (λ tok, isascii tok = true ∧ within_limit tok) ["a=1"; "b"]) as Hascii
    by (repeat constructor; vm_compute; discriminate).
  split.
  - apply (proj1 (parse_argv_ascii_raises ["a=1"; "b"] Hascii)).
    exists [], "a=1", [], "b", []. repeat split.
  - apply (proj2 (parse_argv_ascii_raises ["a=1"; "b"] Hascii)).
Defined.

(** A key given twice. *)
Lemma parse_argv_last_key_witness :
  (<["k" := VInt 2]> ∅ : gmap string value) !! "k" = Some (VInt 2) ↔
  ∃ pre tok post raw,
    ["x"; "k=1"; "k=2"] = pre ++ tok :: post ∧ cut "=" tok = ("k", Some raw) ∧
    typecast raw = Ok (VInt 2) ∧ Forall (λ t, (cut "=" t).1 ≠ "k") post.
Proof.
  apply (parse_argv_last_key ["x"; "k=1"; "k=2"] [VStr "x"] (<["k" := VInt 2]> ∅) "k" (VInt 2)).
  vm_compute. reflexivity.
Defined.

(** A template without placeholders. *)
Lemma replace_tokens_plain_witness :
  replace_tokens "a < b" {["A" := VStr "x"]} = Ok "a < b".
Proof.
  apply (replace_tokens_plain "a < b" {["A" := VStr "x"]}).
  intros tok Hp Hocc.
  assert (tok ∈ findall_tokens "a < b") as Hin by (by apply findall_tokens_spec).
  vm_compute in Hin. by apply elem_of_nil in Hin.
Defined.

(** A keyword argument that names no placeholder, when the placeholder has
    a value and when it has none. *)
Lemma replace_tokens_agree_witness :
  outcome (replace_tokens "<A>!" {["a" := VStr "x"]})
  = outcome (replace_tokens "<A>!" (<["b" := VStr "y"]> {["a" := VStr "x"]})) ∧
  outcome (replace_tokens "<A>!" ∅) = outcome (replace_tokens "<A>!" {["b" := VStr "y"]}).
Proof.
  assert (∀ tok, is_placeholder tok → occurs_in tok "<A>!" → tok = "<A>") as Honly.
  { intros tok Hp Hocc.
    assert (tok ∈ findall_tokens "<A>!") as Hin by (by apply findall_tokens_spec).
    vm_compute in Hin. by apply list_elem_of_singleton in Hin. }
  split.
  - apply (replace_tokens_agree "<A>!" {["a" := VStr "x"]}
             (<["b" := VStr "y"]> {["a" := VStr "x"]})).
    intros tok Hp Hocc. rewrite (Honly tok Hp Hocc). vm_compute. reflexivity.
  - apply (replace_tokens_agree "<A>!" ∅ {["b" := VStr "y"]}).
    intros tok Hp Hocc. rewrite (Honly tok Hp Hocc). vm_compute. reflexivity.
Defined.

(** ** More on rankdata *)

(** *** Counting *)

Lemma count_if_app f l1 l2 : count_if f (l1 ++ l2) = count_if f l1 + count_if f l2.
Proof. induction l1 as [|y l1 IH]; simpl; [done|]. rewrite IH. lia. Qed.

Lemma count_if_perm f l1 l2 : l1 ≡ₚ l2 -> count_if f l1 = count_if f l2.
Proof. induction 1; simpl; lia. Qed.

Lemma count_if_all f l : Forall (λ y, f y = true) l -> count_if f l = Z.of_nat (length l).
Proof. induction 1 as [|y l Hy _ IH]; simpl; [done|]. rewrite Hy, IH. lia. Qed.

Lemma count_if_none f l : Forall (λ y, f y = false) l -> count_if f l = 0.
Proof. induction 1 as [|y l Hy _ IH]; simpl; [done|]. by rewrite Hy, IH. Qed.

(** A test that holds exactly at the positions [lo .. hi - 1] of a list
    holds for [hi - lo] items. *)
Lemma count_if_interval f (l : list Z) (lo hi : nat) :
  (lo ≤ hi ≤ length l)%nat ->
  (∀ t y, l !! t = Some y → f y = bool_decide (lo ≤ t < hi)%nat) ->
  count_if f l = Z.of_nat (hi - lo).
Proof.
  intros Hlen Hf.
  rewrite <- (take_drop lo l). rewrite <- (take_drop (hi - lo) (drop lo l)).
  rewrite !count_if_app.
  rewrite (count_if_none f (take lo l)), (count_if_all f (take (hi - lo) (drop lo l))),
    (count_if_none f (drop (hi - lo) (drop lo l))).
  - rewrite length_take, length_drop. lia.
  - apply Forall_forall. intros y [t Ht]%list_elem_of_lookup.
    rewrite !lookup_drop in Ht. rewrite (Hf _ _ Ht). apply bool_decide_eq_false. lia.
  - apply Forall_forall. intros y [t Ht]%list_elem_of_lookup.
    pose proof (lookup_lt_Some _ _ _ Ht) as Hlt. rewrite length_take in Hlt.
    rewrite lookup_take_lt in Ht by lia. rewrite lookup_drop in Ht.
    rewrite (Hf _ _ Ht). apply bool_decide_eq_true. lia.
  - apply Forall_forall. intros y [t Ht]%list_elem_of_lookup.
    pose proof (lookup_lt_Some _ _ _ Ht) as Hlt. rewrite length_take in Hlt.
    rewrite lookup_take_lt in Ht by lia.
    rewrite (Hf _ _ Ht). apply bool_decide_eq_false. lia.
Qed.

Lemma count_if_bounds f l : 0 ≤ count_if f l ≤ Z.of_nat (length l).
Proof. induction l as [|y l IH]; simpl; [lia|]. destruct (f y); lia. Qed.

(** Items that pass one of two exclusive tests, each of which implies a
    third, are among those that pass the third. *)
Lemma count_if_sum f g hh l :
  (∀ y, f y = true → hh y = true) -> (∀ y, g y = true → hh y = true) ->
  (∀ y, f y = true → g y = false) ->
  count_if f l + count_if g l ≤ count_if hh l.
Proof.
  intros Hf Hg Hfg. induction l as [|y l IH]; simpl; [lia|].
  specialize (Hf y). specialize (Hg y). specialize (Hfg y).
  destruct (f y), (g y), (hh y); try lia; try (by discriminate Hf); try (by discriminate Hg);
    by discriminate Hfg.
Qed.

(** *** The order of the sort *)

Lemma precedes_antisym reverse x y :
  precedes reverse x y = true -> precedes reverse y x = true -> x = y.
Proof. unfold precedes. destruct reverse; intros H1%Z.leb_le H2%Z.leb_le; lia. Qed.

Lemma strictly_before_precedes reverse y x :
  strictly_before reverse y x = true ↔ precedes reverse y x = true ∧ y ≠ x.
Proof.
  unfold strictly_before, precedes. destruct reverse;
    rewrite Z.ltb_lt, Z.leb_le; lia.
Qed.

(** *** Ranks by position *)

(** What [rankdata] computes, in terms of the sorted indices. *)
Lemma rankdata_structure (a : list Z) (method : string) (reverse : bool) :
  ∃ ivec ranks,
    rankdata a method reverse = Ok ranks ∧
    length ranks = length a ∧
    ivec ≡ₚ seqZ 0 (Z.of_nat (length a)) ∧
    StronglySorted
      (λ i j, stable_before reverse (a !!! Z.to_nat i, i) (a !!! Z.to_nat j, j)) ivec ∧
    ∀ p k, tie_group ((λ i, a !!! Z.to_nat i) <$> ivec) p k →
      ∀ j idx, (p ≤ j < p + k)%nat → ivec !! j = Some idx →
        ∃ r, ranks !! Z.to_nat idx = Some r ∧
             rank_eq r (spec_rank (String.eqb method "min") p k).
Proof.
  destruct (rank_simple_spec reverse a) as (ivec & Hsimple & Hperm & Hsorted).
  assert (length ivec = length a) as Hivec.
  { rewrite Hperm, length_seqZ. lia. }
  assert (∀ idx, idx ∈ ivec → 0 ≤ idx < Z.of_nat (length a)) as Hrange.
  { intros idx Hidx. rewrite Hperm in Hidx. apply elem_of_seqZ in Hidx. lia. }
  assert (NoDup ivec) as Hnodup.
  { rewrite Hperm. apply NoDup_seqZ. }
  set (svec := (λ i, a !!! Z.to_nat i) <$> ivec).
  assert (map_result (getitem a) ivec = Ok svec) as Hsvec.
  { apply map_result_fmap, Forall_forall. intros idx Hidx.
    apply getitem_in_range. by apply Hrange. }
  assert (length svec = length a) as Hsvec_len by (unfold svec; by rewrite length_fmap).
  destruct (rank_loop (String.eqb method "min") ivec svec (length a)
              Hivec Hsvec_len Hnodup Hrange (length a) 0%nat 0%nat
              {| sumranks := 0; dupcount := 0; minrank := 0;
                 newarray := replicate (length a) (RInt 0) |})
    as (st & Hloop & Hinv).
  { lia. }
  { rewrite <- Hsvec_len. apply rank_inv_init. }
  assert (for_each (rank_body (String.eqb method "min") (Z.of_nat (length a)) ivec svec)
            (range 0 (Z.of_nat (length a)))
            {| sumranks := 0; dupcount := 0; minrank := 0;
               newarray := replicate (length a) (RInt 0) |} = Ok st) as Hloop'.
  { unfold range. rewrite Z.sub_0_r. exact Hloop. }
  destruct Hinv as (_ & _ & _ & _ & Hlen & _ & _ & Hdone).
  exists ivec, (newarray st). split.
  { unfold rankdata. rewrite Hsimple. cbn [mbind result_bind]. rewrite Hsvec.
    cbn [mbind result_bind]. by rewrite Hloop'. }
  split; [by rewrite Hlen|]. split; [done|]. split; [done|].
  intros p k Hgroup. apply Hdone; [done|].
  rewrite <- Hsvec_len. by apply tie_group_within.
Qed.

(** The sorted values are the values of the input in another order. *)
Lemma sorted_values_perm (a : list Z) ivec :
  ivec ≡ₚ seqZ 0 (Z.of_nat (length a)) -> (λ i, a !!! Z.to_nat i) <$> ivec ≡ₚ a.
Proof.
  intros ->. assert ((λ i, a !!! Z.to_nat i) <$> seqZ 0 (Z.of_nat (length a)) = a) as ->; [|done].
  apply list_eq. intros t. rewrite list_lookup_fmap.
  destruct (decide (t < length a)%nat) as [Hlt|Hge].
  - rewrite lookup_seqZ_lt by lia. cbn [fmap option_fmap option_map].
    rewrite Z.add_0_l, Nat2Z.id. symmetry. by apply list_lookup_lookup_total_lt.
  - rewrite lookup_seqZ_ge by lia. simpl. symmetry. apply lookup_ge_None. lia.
Qed.

(** The rank of an item comes from the number of items strictly before it
    in the order and the number of items equal to it. *)
Lemma rank_of_index (a : list Z) method reverse ranks (i : nat) x r :
  rankdata a method reverse = Ok ranks ->
  a !! i = Some x -> ranks !! i = Some r ->
  ∃ p k : nat,
    (0 < k)%nat ∧ (p + k ≤ length a)%nat ∧
    Z.of_nat p = count_if (λ y, strictly_before reverse y x) a ∧
    Z.of_nat k = count_if (Z.eqb x) a ∧
    rank_eq r (spec_rank (String.eqb method "min") p k).
Proof.
  intros Hrun Hx Hr.
  destruct (rankdata_structure a method reverse)
    as (ivec & ranks' & Hrun' & Hlen & Hperm & Hsorted & Hranks).
  assert (ranks' = ranks) as -> by congruence.
  set (svec := (λ i, a !!! Z.to_nat i) <$> ivec) in *.
  assert (length svec = length a) as Hsvec_len.
  { unfold svec. rewrite length_fmap, Hperm, length_seqZ. lia. }
  (* the position of [i] in the sorted order *)
  assert (Z.of_nat i ∈ ivec) as [j Hj]%list_elem_of_lookup.
  { rewrite Hperm. apply elem_of_seqZ. apply lookup_lt_Some in Hx. lia. }
  assert (svec !! j = Some x) as Hsj.
  { unfold svec. rewrite list_lookup_fmap, Hj. simpl. rewrite Nat2Z.id.
    f_equal. by apply list_lookup_total_correct. }
  (* the values are sorted *)
  assert (∀ t t' y y', (t ≤ t')%nat → svec !! t = Some y → svec !! t' = Some y' →
                       precedes reverse y y' = true) as Hmono.
  { intros t t' y y' Hle Hy Hy'.
    destruct (decide (t = t')) as [->|Hne].
    { assert (y = y') as -> by congruence. unfold precedes.
      destruct reverse; apply Z.leb_le; lia. }
    assert (t < t')%nat as Htt by lia. clear Hle Hne. unfold svec in Hy, Hy'.
    rewrite list_lookup_fmap in Hy, Hy'.
    destruct (ivec !! t) as [it|] eqn:Hit; [|done].
    destruct (ivec !! t') as [it'|] eqn:Hit'; [|done].
    simpl in Hy, Hy'. injection Hy as <-. injection Hy' as <-.
    by destruct (StronglySorted_lookup _ ivec t t' it it' Hsorted Htt Hit Hit'). }
  destruct (tie_group_exists svec j) as (p & k & Hgroup & Hjpk).
  { apply lookup_lt_Some in Hsj. lia. }
  pose proof (tie_group_within _ _ _ Hgroup) as Hwithin. rewrite Hsvec_len in Hwithin.
  pose proof Hgroup as (Hk & z & Hrun_z & Hleft & Hright).
  assert (z = x) as -> by (specialize (Hrun_z j Hjpk); congruence).
  (* a position holds [x] exactly when it is in the group *)
  assert (∀ t y, svec !! t = Some y → (y = x ↔ (p ≤ t < p + k)%nat)) as Hin.
  { intros t y Hy. split.
    - intros ->. destruct (decide (t < p)%nat) as [Hlt|Hge].
      + exfalso. destruct Hleft as [->|Hleft]; [lia|]. apply Hleft.
        destruct (lookup_lt_is_Some_2 svec (p - 1)) as [w Hw].
        { apply lookup_lt_Some in Hsj. lia. }
        rewrite Hw. f_equal. apply (precedes_antisym reverse).
        * apply (Hmono (p - 1)%nat j w x); [lia|done..].
        * apply (Hmono t (p - 1)%nat x w); [lia|done..].
      + destruct (decide (t < p + k)%nat) as [Hlt|Hge']; [lia|].
        exfalso. apply Hright.
        destruct (lookup_lt_is_Some_2 svec (p + k)) as [w Hw].
        { apply lookup_lt_Some in Hy. lia. }
        rewrite Hw. f_equal. apply (precedes_antisym reverse).
        * apply (Hmono (p + k)%nat t w x); [lia|done..].
        * apply (Hmono j (p + k)%nat x w); [lia|done..].
    - intros Ht. specialize (Hrun_z t Ht). congruence. }
  exists p, k. split; [done|]. split; [done|].
  assert (svec ≡ₚ a) as Hsa by (by apply sorted_values_perm).
  split; [|split].
  - rewrite <- (count_if_perm _ _ _ Hsa).
    replace p with (p - 0)%nat at 1 by lia. symmetry. apply count_if_interval.
    + lia.
    + intros t y Hy. destruct (strictly_before reverse y x) eqn:Hsb.
      * symmetry. apply bool_decide_eq_true.
        apply strictly_before_precedes in Hsb as [Hpre Hne].
        split; [lia|]. destruct (decide (t < p)%nat) as [|Hge]; [done|]. exfalso.
        destruct (decide (t < p + k)%nat) as [Hlt|Hge'].
        -- apply Hne. apply (Hin t y Hy). lia.
        -- apply Hne. apply (precedes_antisym reverse); [done|].
           apply (Hmono j t x y); [lia|done..].
      * symmetry. apply bool_decide_eq_false. intros [_ Hlt].
        assert (strictly_before reverse y x = true); [|congruence].
        apply strictly_before_precedes. split.
        -- apply (Hmono t j y x); [lia|done..].
        -- intros ->. apply (Hin t x) in Hy. assert (p ≤ t < p + k)%nat by (by apply Hy). lia.
  - rewrite <- (count_if_perm _ _ _ Hsa).
    replace k with (p + k - p)%nat at 1 by lia. symmetry. apply count_if_interval.
    + lia.
    + intros t y Hy. destruct (Z.eqb_spec x y) as [<-|Hne]; symmetry.
      * apply bool_decide_eq_true. by apply (Hin t x Hy).
      * apply bool_decide_eq_false. intros Ht. apply Hne. symmetry. by apply (Hin t y Hy).
  - destruct (Hranks p k Hgroup j (Z.of_nat i) Hjpk Hj) as (r' & Hr' & Heq).
    rewrite Nat2Z.id in Hr'. congruence.
Qed.

(** *** Ranks as numbers *)

Lemma sum_Z_seqZ_closed m (k : nat) :
  2 * sum_Z (seqZ m (Z.of_nat k)) = Z.of_nat k * (2 * m + Z.of_nat k - 1).
Proof. induction k as [|k IH]; [done|]. rewrite sum_Z_seqZ_S. lia. Qed.

Lemma rank_value_spec (use_min : bool) (p k : nat) r :
  (0 < k)%nat -> rank_eq r (spec_rank use_min p k) ->
  (rank_value r == twice_rank use_min p k # 2)%Q.
Proof.
  intros Hk. unfold spec_rank, twice_rank. destruct use_min.
  - destruct r as [n|q]; simpl; [|done]. intros ->. unfold Qeq. simpl. lia.
  - destruct r as [n|q]; simpl; [done|]. intros ->.
    rewrite Qmake_Qdiv.
    pose proof (sum_Z_seqZ_closed (Z.of_nat p + 1) k) as Hsum.
    assert (¬ (inject_Z (Z.of_nat k) == 0)%Q) as Hk0.
    { unfold Qeq. simpl. lia. }
    field_simplify_eq; [|done].
    rewrite <- !inject_Z_mult. change 2%Q with (inject_Z 2). rewrite <- !inject_Z_mult.
    apply inject_Z_injective. lia.
Qed.

Lemma rank_eq_common r1 r2 s : rank_eq r1 s -> rank_eq r2 s -> rank_eq r1 r2.
Proof.
  destruct r1, r2, s; simpl; try done; try congruence.
  intros -> ->. reflexivity.
Qed.

(** *** What the ranks are *)

(** Under 'min' the rank of an item is one more than the number of items
    strictly before it in the order (larger ones by default); under
    'average' half the number of the other items equal to it is added. *)
Lemma rankdata_counts (a : list Z) method reverse ranks (i : nat) x r :
  rankdata a method reverse = Ok ranks ->
  a !! i = Some x -> ranks !! i = Some r ->
  if String.eqb method "min"
  then r = RInt (1 + count_if (λ y, strictly_before reverse y x) a)
  else rank_eq r (RFloat (inject_Z (1 + count_if (λ y, strictly_before reverse y x) a)
                          + (inject_Z (count_if (Z.eqb x) a) - 1) / 2)).
Proof.
  intros Hrun Hx Hr.
  destruct (rank_of_index a method reverse ranks i x r Hrun Hx Hr)
    as (p & k & Hk & _ & <- & <- & Heq).
  pose proof (rank_value_spec _ p k r Hk Heq) as Hval.
  unfold spec_rank, twice_rank in *. destruct (String.eqb method "min").
  - destruct r as [n|q]; simpl in Heq; [|done]. f_equal. lia.
  - destruct r as [n|q]; simpl in Heq; [done|]. simpl in Hval. simpl.
    rewrite Hval, Qmake_Qdiv. rewrite !inject_Z_plus. change (inject_Z 2) with 2%Q.
    change (inject_Z 1) with 1%Q. rewrite inject_Z_mult. change (inject_Z 2) with 2%Q.
    field.
Qed.

(** Every rank lies between 1 and the number of items. *)
Lemma rankdata_bounds (a : list Z) method reverse ranks (i : nat) r :
  rankdata a method reverse = Ok ranks -> ranks !! i = Some r ->
  (1 <= rank_value r <= inject_Z (Z.of_nat (length a)))%Q.
Proof.
  intros Hrun Hr.
  destruct (rankdata_structure a method reverse) as (_ & ranks' & Hrun' & Hlen & _).
  assert (ranks' = ranks) as -> by congruence.
  destruct (lookup_lt_is_Some_2 a i) as [x Hx].
  { rewrite <- Hlen. by eapply lookup_lt_Some. }
  destruct (rank_of_index a method reverse ranks i x r Hrun Hx Hr)
    as (p & k & Hk & Hpk & _ & _ & Heq).
  rewrite (rank_value_spec _ p k r Hk Heq). unfold twice_rank, Qle. simpl.
  destruct (String.eqb method "min"); lia.
Qed.

(** Equal items have equal ranks. *)
Lemma rankdata_ties (a : list Z) method reverse ranks (i j : nat) x r1 r2 :
  rankdata a method reverse = Ok ranks ->
  a !! i = Some x -> a !! j = Some x ->
  ranks !! i = Some r1 -> ranks !! j = Some r2 ->
  rank_eq r1 r2.
Proof.
  intros Hrun Hi Hj Hr1 Hr2.
  destruct (rank_of_index a method reverse ranks i x r1 Hrun Hi Hr1)
    as (p & k & _ & _ & Hp & Hk & Heq).
  destruct (rank_of_index a method reverse ranks j x r2 Hrun Hj Hr2)
    as (p' & k' & _ & _ & Hp' & Hk' & Heq').
  assert (p' = p) as -> by lia. assert (k' = k) as -> by lia.
  by eapply rank_eq_common.
Qed.

(** An item strictly before another in the order (a larger one by
    default, a smaller one when ascending) has a strictly smaller rank. *)
Lemma rankdata_order (a : list Z) method reverse ranks (i j : nat) x y r1 r2 :
  rankdata a method reverse = Ok ranks ->
  a !! i = Some x -> a !! j = Some y ->
  ranks !! i = Some r1 -> ranks !! j = Some r2 ->
  strictly_before reverse x y = true ->
  (rank_value r1 < rank_value r2)%Q.
Proof.
  intros Hrun Hi Hj Hr1 Hr2 Hxy.
  destruct (rank_of_index a method reverse ranks i x r1 Hrun Hi Hr1)
    as (p & k & Hk0 & _ & Hp & Hk & Heq).
  destruct (rank_of_index a method reverse ranks j y r2 Hrun Hj Hr2)
    as (p' & k' & Hk0' & _ & Hp' & Hk' & Heq').
  assert (Z.of_nat p + Z.of_nat k ≤ Z.of_nat p') as Hle.
  { rewrite Hp, Hk, Hp'. apply count_if_sum.
    - intros z Hz. apply strictly_before_precedes in Hz as [Hzx Hne].
      apply strictly_before_precedes in Hxy as [Hxy Hne'].
      apply strictly_before_precedes. split; [by eapply precedes_trans|].
      intros ->. apply Hne'. by apply (precedes_antisym reverse).
    - intros z Hz%Z.eqb_eq. by subst.
    - intros z Hz. apply strictly_before_precedes in Hz as [_ Hne].
      apply Z.eqb_neq. congruence. }
  rewrite (rank_value_spec _ p k r1 Hk0 Heq), (rank_value_spec _ p' k' r2 Hk0' Heq').
  unfold twice_rank, Qlt. simpl. destruct (String.eqb method "min"); lia.
Qed.

(** *** Ascending and descending *)

Lemma count_if_fmap f (g : Z → Z) l : count_if f (g <$> l) = count_if (f ∘ g) l.
Proof.
  induction l as [|y l IH]; [done|].
  rewrite fmap_cons. cbn [count_if]. by rewrite IH.
Qed.

Lemma count_if_ext f g l : (∀ y, f y = g y) -> count_if f l = count_if g l.
Proof. intros Hfg. induction l as [|y l IH]; simpl; [done|]. by rewrite Hfg, IH. Qed.

(** The ascending ranks of a sequence are the descending ranks of the
    negated sequence. *)
Lemma rankdata_negated (a : list Z) method ranks1 ranks2 :
  rankdata a method false = Ok ranks1 ->
  rankdata (Z.opp <$> a) method true = Ok ranks2 ->
  Forall2 rank_eq ranks1 ranks2.
Proof.
  intros Hrun1 Hrun2.
  destruct (rankdata_structure a method false) as (_ & r1 & Hr1 & Hlen1 & _).
  destruct (rankdata_structure (Z.opp <$> a) method true) as (_ & r2 & Hr2 & Hlen2 & _).
  assert (r1 = ranks1) as -> by congruence. assert (r2 = ranks2) as -> by congruence.
  rewrite length_fmap in Hlen2.
  apply Forall2_same_length_lookup. split; [congruence|].
  intros i ra rb Hra Hrb.
  destruct (lookup_lt_is_Some_2 a i) as [x Hx].
  { rewrite <- Hlen1. by eapply lookup_lt_Some. }
  assert ((Z.opp <$> a) !! i = Some (- x)) as Hx' by (by rewrite list_lookup_fmap, Hx).
  destruct (rank_of_index a method false ranks1 i x ra Hrun1 Hx Hra)
    as (p & k & _ & _ & Hp & Hk & Heq).
  destruct (rank_of_index _ method true ranks2 i (- x) rb Hrun2 Hx' Hrb)
    as (p' & k' & _ & _ & Hp' & Hk' & Heq').
  rewrite count_if_fmap in Hp', Hk'.
  rewrite (count_if_ext _ (λ y, strictly_before false y x)) in Hp'.
  2:{ intros y. unfold strictly_before. simpl.
      destruct (Z.ltb_spec (- x) (- y)), (Z.ltb_spec y x); lia. }
  rewrite (count_if_ext _ (Z.eqb x)) in Hk'.
  2:{ intros y. simpl. destruct (Z.eqb_spec (- x) (- y)), (Z.eqb_spec x y); lia. }
  assert (p' = p) as -> by lia. assert (k' = k) as -> by lia.
  by eapply rank_eq_common.
Qed.

(** The first item of the example of the documentation: one item is
    larger than 10 and no other item equals it. *)
Lemma rankdata_counts_witness :
  rank_eq (RFloat 3)
    (RFloat (inject_Z (1 + count_if (λ y, strictly_before true y 10) [10; 20; 20; 5])
             + (inject_Z (count_if (Z.eqb 10) [10; 20; 20; 5]) - 1) / 2)).
Proof.
  apply (rankdata_counts [10; 20; 20; 5] "average" true
           [RFloat 3; RFloat (3 # 2); RFloat (3 # 2); RFloat 4] 0 10 (RFloat 3)).
  - vm_compute. reflexivity.
  - reflexivity.
  - reflexivity.
Defined.

Lemma rankdata_bounds_witness :
  (1 <= rank_value (RFloat (3 # 2)) <= inject_Z (Z.of_nat (length [10; 20; 20; 5])))%Q.
Proof.
  apply (rankdata_bounds [10; 20; 20; 5] "average" true
           [RFloat 3; RFloat (3 # 2); RFloat (3 # 2); RFloat 4] 1 (RFloat (3 # 2))).
  - vm_compute. reflexivity.
  - reflexivity.
Defined.

Lemma rankdata_ties_witness : rank_eq (RInt 1) (RInt 1).
Proof.
  apply (rankdata_ties [10; 20; 20; 5] "min" true [RInt 3; RInt 1; RInt 1; RInt 4] 1 2 20).
  - vm_compute. reflexivity.
  - reflexivity.
  - reflexivity.
  - reflexivity.
  - reflexivity.
Defined.

Lemma rankdata_order_witness : (rank_value (RInt 1) < rank_value (RInt 3))%Q.
Proof.
  apply (rankdata_order [10; 20; 20; 5] "min" true [RInt 3; RInt 1; RInt 1; RInt 4]
           1 0 20 10).
  - vm_compute. reflexivity.
  - reflexivity.
  - reflexivity.
  - reflexivity.
  - reflexivity.
  - reflexivity.
Defined.

Lemma rankdata_negated_witness :
  Forall2 rank_eq [RInt 2; RInt 3; RInt 3; RInt 1] [RInt 2; RInt 3; RInt 3; RInt 1].
Proof.
  apply (rankdata_negated [10; 20; 20; 5] "min").
  - vm_compute. reflexivity.
  - vm_compute. reflexivity.
Defined.
